(** * mmmd video core: escape-sequence parser, layout metrics, timeline

    A shallow embedding of [video.ts]: the function [parseAnsi], and the
    metric, frame-count and per-frame computations of [main].

    Conventions of the embedding.
    - A JavaScript string is a [list ascii]; the parser looks only at the
      characters ESC, '[', '0'..'9', ';' and 'm' and copies the others.
    - A JavaScript number that the code keeps integral is a [Z] (or an [N]
      for an escape code); the others are rationals [Q].  [Video] computes
      with them exactly.  [Video64] rounds every arithmetic result to the
      nearest double, as [Binary64] defines it; what depends on the rounding
      (the number of frames, where the pages rest, whether the scroll moves
      back) is settled there.
    - [Math.round x] is [Qfloor (x + 1/2)], [Math.ceil] is [Qceiling]. *)

From Stdlib Require Import Ascii String Bool Arith NArith ZArith List.
From Stdlib Require Import QArith Qround Qminmax Qabs Qpower Qreduction Lia Lqa.
From Stdlib Require Decimal DecimalString DecimalN SpecFloat.
From Equations Require Import Equations.
Import ListNotations.

(** ** Style parser *)

Module Ansi.

Local Open Scope char_scope.
Local Open Scope N_scope.

(** [const ANSI: Record<number, string>]; [None] is a missing key. *)
Definition ANSI (c : N) : option string :=
  match c with
  | 30 => Some "#8899cc"%string
  | 31 => Some "#ff5555"%string
  | 32 => Some "#50fa7b"%string
  | 33 => Some "#f1fa8c"%string
  | 34 => Some "#6699ff"%string
  | 35 => Some "#ff79c6"%string
  | 36 => Some "#8be9fd"%string
  | 37 => Some "#ffffff"%string
  | 90 => Some "#8899cc"%string
  | 91 => Some "#ff5555"%string
  | 92 => Some "#50fa7b"%string
  | 93 => Some "#f1fa8c"%string
  | 94 => Some "#6699ff"%string
  | 95 => Some "#ff79c6"%string
  | 96 => Some "#8be9fd"%string
  | 97 => Some "#ffffff"%string
  | _ => None
  end.

(** [interface Style]: every property is optional.  A flag is [None] while
    the property was never assigned, [Some b] once it was.  For [fg], [None]
    is what reading the property gives when it is unset or was assigned
    [undefined]. *)
Record Style : Type := mkStyle {
  fg : option string;
  bold : option bool;
  italic : option bool;
  underline : option bool;
  dim : option bool
}.

(** The object literal [{}]. *)
Definition emptyStyle : Style := mkStyle None None None None None.

(** [interface Span]. *)
Record Span : Type := mkSpan {
  text : list ascii;
  style : Style
}.

(** *** The pieces of [seq.split(';').filter(Boolean).map(Number)] *)

(** [String.prototype.split] with a one-character separator. *)
Fixpoint split (sep : ascii) (s : list ascii) : list (list ascii) :=
  match s with
  | [] => [[]]
  | c :: t =>
      if Ascii.eqb c sep then [] :: split sep t
      else match split sep t with
           | h :: r => (c :: h) :: r
           | [] => [[c]]
           end
  end.

(** [Boolean] applied to a string: false on the empty string only. *)
Definition Boolean (s : list ascii) : bool :=
  match s with [] => false | _ :: _ => true end.

Definition isDigit (c : ascii) : bool :=
  let n := N_of_ascii c in (48 <=? n) && (n <=? 57).

(** [Number] on the strings that reach it here, which are runs of decimal
    digits: the value read in base ten, [0] for the empty string, and
    [None] (NaN) where another character occurs.  The value is kept exact;
    the code compares it with constants below 100 only, and a double is
    exact far beyond them. *)
Fixpoint NumberFrom (acc : N) (s : list ascii) : option N :=
  match s with
  | [] => Some acc
  | c :: t =>
      if isDigit c then NumberFrom (10 * acc + (N_of_ascii c - 48)) t
      else None
  end.

Definition Number (s : list ascii) : option N := NumberFrom 0 s.

Definition codes (seq : list ascii) : list (option N) :=
  map Number (filter Boolean (split ";" seq)).

(** *** The body of the [for (const c of ...)] loop *)

Definition applyCode (style : Style) (c : option N) : Style :=
  match c with
  | None => style
  | Some 0 => emptyStyle
  | Some 1 => mkStyle (fg style) (Some true) (italic style) (underline style) (dim style)
  | Some 2 => mkStyle (fg style) (bold style) (italic style) (underline style) (Some true)
  | Some 3 => mkStyle (fg style) (bold style) (Some true) (underline style) (dim style)
  | Some 4 => mkStyle (fg style) (bold style) (italic style) (Some true) (dim style)
  | Some 22 => mkStyle (fg style) (Some false) (italic style) (underline style) (Some false)
  | Some 23 => mkStyle (fg style) (bold style) (Some false) (underline style) (dim style)
  | Some 24 => mkStyle (fg style) (bold style) (italic style) (Some false) (dim style)
  | Some 39 => mkStyle None (bold style) (italic style) (underline style) (dim style)
  | Some n =>
      match ANSI n with
      | Some colour => mkStyle (Some colour) (bold style) (italic style) (underline style) (dim style)
      | None => style
      end
  end.

(** The whole [for] loop over the codes of one escape sequence. *)
Definition applySeq (style : Style) (seq : list ascii) : Style :=
  fold_left applyCode (codes seq) style.

(** *** The regular expression of [parseAnsi]: ESC, '[', any run of
    digits and semicolons (captured), 'm'; global flag *)

Definition ESC : ascii := "027".

Definition isParamChar (c : ascii) : bool :=
  isDigit c || Ascii.eqb c ";".

(** The longest run of digits and semicolons.  The star is greedy; as the
    character that must follow is 'm', which the class excludes, giving
    characters back never helps, so the longest prefix is the only
    candidate. *)
Fixpoint params (s : list ascii) : list ascii :=
  match s with
  | c :: t => if isParamChar c then c :: params t else []
  | [] => []
  end.

(** A match that begins at the first character of [s]: the captured group. *)
Definition matchHere (s : list ascii) : option (list ascii) :=
  match s with
  | e :: b :: t =>
      if Ascii.eqb e ESC && Ascii.eqb b "[" then
        match skipn (length (params t)) t with
        | m :: _ => if Ascii.eqb m "m" then Some (params t) else None
        | [] => None
        end
      else None
  | _ => None
  end.

(** What [re.exec] hands back: [m.index], [m[1]] and the new [re.lastIndex]. *)
Record Match : Type := mkMatch {
  index : nat;
  group1 : list ascii;
  lastIndex : nat
}.

(** Leftmost match in [s], the suffix of the text that starts at index [i]. *)
Fixpoint search (s : list ascii) (i : nat) : option Match :=
  match matchHere s with
  | Some g => Some (mkMatch i g (i + 3 + length g))
  | None =>
      match s with
      | [] => None
      | _ :: t => search t (S i)
      end
  end.

(** [re.exec(text)] with [re.lastIndex = from]. *)
Definition exec (txt : list ascii) (from : nat) : option Match :=
  search (skipn from txt) from.

(** [text.slice(a, b)] for [a <= b], and [text.slice(a)]. *)
Definition slice (txt : list ascii) (a b : nat) : list ascii :=
  firstn (b - a) (skipn a txt).

Definition sliceFrom (txt : list ascii) (a : nat) : list ascii :=
  skipn a txt.

(** *** The [while] loop of [parseAnsi] *)

(** The variables the loop updates.  [idx] and [re.lastIndex] are equal at
    the head of every iteration (both start at 0, and the body ends with
    [idx = re.lastIndex]), so one field stands for both; [cur] is the
    variable [style]. *)
Record PState : Type := mkPState {
  idx : nat;
  cur : Style;
  spans : list Span
}.

Definition push (sp : list Span) (cond : bool) (s : Span) : list Span :=
  if cond then sp ++ [s] else sp.

(** One iteration: [None] when [re.exec] returns [null] and the loop ends. *)
Definition step (txt : list ascii) (st : PState) : option PState :=
  match exec txt (idx st) with
  | None => None
  | Some m =>
      Some (mkPState (lastIndex m)
                     (applySeq (cur st) (group1 m))
                     (push (spans st) (Nat.ltb (idx st) (index m))
                           (mkSpan (slice txt (idx st) (index m)) (cur st))))
  end.

(** The statement after the loop. *)
Definition finish (txt : list ascii) (st : PState) : list Span :=
  push (spans st) (Nat.ltb (idx st) (length txt))
       (mkSpan (sliceFrom txt (idx st)) (cur st)).

Definition init : PState := mkPState 0 emptyStyle [].

(** The value of a test together with the equation that it has it; the
    loop below needs the equation to show that it ends. *)
Definition inspect {A : Type} (a : A) : {b : A | a = b} := exist _ a eq_refl.

(** [while ((m = re.exec(text)) !== null) { ... }]: every match is at least
    three characters long and lies inside the text, so [text.length - idx]
    decreases. *)
Equations? loop (txt : list ascii) (st : PState) : PState
  by wf (length txt - idx st)%nat lt :=
  loop txt st with inspect (step txt st) := {
    | exist _ (Some st') _ => loop txt st'
    | exist _ None _ => st }.
Proof.
  assert (Hs : forall s i m, search s i = Some m ->
                 (i < lastIndex m <= i + length s)%nat).
  { induction s as [|a s IH]; intros i m; cbn [search].
    - discriminate.
    - destruct (matchHere (a :: s)) as [g|] eqn:Hm.
      + intros [= <-]; cbn [lastIndex]. split; [lia|].
        unfold matchHere in Hm.
        destruct s as [|b t]; [discriminate|].
        destruct (Ascii.eqb a ESC && Ascii.eqb b "["); [|discriminate].
        destruct (skipn (length (params t)) t) as [|c r] eqn:Hk; [discriminate|].
        destruct (Ascii.eqb c "m"); [|discriminate].
        injection Hm as <-.
        assert (length (skipn (length (params t)) t) = S (length r))
          by (rewrite Hk; reflexivity).
        rewrite length_skipn in *. cbn [length]. lia.
      + intros H. apply IH in H. cbn [length]. lia. }
  unfold step, exec in *.
  destruct (search (skipn (idx st) txt) (idx st)) as [m|] eqn:Hx; [|discriminate].
  apply Hs in Hx. rewrite length_skipn in Hx.
  match goal with H : Some _ = Some _ |- _ => injection H as <- end.
  cbn [idx]. lia.
Qed.

(** [function parseAnsi(text: string): Span[]]. *)
Definition parseAnsi (txt : list ascii) : list Span :=
  finish txt (loop txt init).

End Ansi.

(** ** What the parser is specified against *)

Module AnsiSpec.

Import Ansi.
Local Open Scope char_scope.

(** The escape sequence with the parameter text [ps]: ESC '[' ps 'm'. *)
Definition sgr (ps : list ascii) : list ascii := ESC :: "[" :: ps ++ ["m"].

(** A line contains an escape sequence when it reads
    [pre ++ ESC [ ps m ++ post] with [ps] made of digits and semicolons. *)
Definition containsEscape (line : list ascii) : Prop :=
  exists pre ps post,
    forallb isParamChar ps = true /\ line = pre ++ sgr ps ++ post.

(** Past the parameters and the final 'm' of a sequence whose "ESC [" was
    just read: what follows the sequence, if it is one. *)
Fixpoint afterParams (s : list ascii) : option (list ascii) :=
  match s with
  | [] => None
  | c :: t =>
      if Ascii.eqb c "m" then Some t
      else if isParamChar c then afterParams t
      else None
  end.

(** What follows the escape sequence that [s] begins with, if it begins
    with one. *)
Definition afterEscape (s : list ascii) : option (list ascii) :=
  match s with
  | e :: b :: t =>
      if Ascii.eqb e ESC && Ascii.eqb b "[" then afterParams t else None
  | _ => None
  end.

(** The line with its escape sequences removed, reading from the left: a
    sequence is skipped whole, any other character is kept.  (One pass, as
    [text.replace(re, '')] does it: what the removal leaves is not read
    again.) *)
Equations? stripEscapes (s : list ascii) : list ascii by wf (length s) lt :=
  stripEscapes [] := [];
  stripEscapes (c :: t) with inspect (afterEscape (c :: t)) := {
    | exist _ (Some rest) _ => stripEscapes rest
    | exist _ None _ => c :: stripEscapes t }.
Proof.
  assert (Hp : forall u r, afterParams u = Some r -> (length r < length u)%nat).
  { induction u as [|a u IH]; intros r; cbn [afterParams]; [discriminate|].
    destruct (Ascii.eqb a "m").
    - intros [= <-]. cbn [length]. lia.
    - destruct (isParamChar a); [|discriminate].
      intros H. apply IH in H. cbn [length]. lia. }
  unfold afterEscape in *. destruct t as [|b t]; [discriminate|].
  destruct (Ascii.eqb c ESC && Ascii.eqb b "["); [|discriminate].
  match goal with H : afterParams _ = Some _ |- _ => apply Hp in H end.
  cbn [length]. lia.
Qed.

(** The text that a list of spans shows. *)
Definition visible (sp : list Span) : list ascii := concat (map text sp).

(** The codes [parseAnsi] acts on. *)
Definition recognized (c : N) : bool :=
  match c with
  | 0 | 1 | 2 | 3 | 4 | 22 | 23 | 24 | 39 => true
  | _ => match ANSI c with Some _ => true | None => false end
  end%N.

(** A value that [map(Number)] may yield and that is not such a code. *)
Definition unrecognized (c : option N) : Prop :=
  match c with
  | None => True
  | Some n => recognized n = false
  end.

(** The span of a plain text: none when the text is empty. *)
Definition plainSpan (t : list ascii) : list Span :=
  match t with
  | [] => []
  | _ :: _ => [mkSpan t emptyStyle]
  end.

End AnsiSpec.

(** ** Layout metrics, timeline and per-frame transform

    In exact arithmetic; [Video64] below has the computations that leave
    the whole numbers with the rounding of doubles. *)

Module Video.

Local Open Scope Z_scope.

(** [Math.round], [Math.ceil] and [Math.floor] on exact rationals. *)
Definition Math_round (x : Q) : Z := Qfloor (x + (1 # 2)).
Definition Math_ceil (x : Q) : Z := Qceiling x.
Definition Math_floor (x : Q) : Z := Qfloor x.

(** [type SizeKey = keyof typeof SIZES]; [PaddingKey] is the same union of
    the keys 'sm', 'md' and 'lg'. *)
Inductive SizeKey : Type := sm | md | lg.
Definition PaddingKey : Type := SizeKey.
Inductive Aspect : Type := square | landscape | portrait.

Record Preset : Type := mkPreset {
  p_square : Z;
  p_landscape : Z * Z;
  p_portrait : Z * Z
}.

Definition SIZES (k : SizeKey) : Preset :=
  match k with
  | sm => mkPreset 540 (720, 540) (540, 720)
  | md => mkPreset 720 (960, 720) (720, 960)
  | lg => mkPreset 1080 (1440, 1080) (1080, 1440)
  end.

Definition PADDINGS (k : PaddingKey) : Z :=
  match k with sm => 30 | md => 48 | lg => 64 end.

(** The object [parseArgs] returns (the input file apart). *)
Record Options : Type := mkOptions {
  output : string;
  bg : string;
  window : string;
  border : string;
  size : SizeKey;
  aspect : Aspect;
  padding : PaddingKey;
  fps : Q;
  speed : Q;
  font : string;
  quality : Q;
  cols : Q;
  pageWait : Q;
  overlap : Q
}.

(** [const DEFAULTS], as [parseArgs] resolves it when no flag is given. *)
Definition DEFAULTS : Options :=
  mkOptions "output.mp4" "#222" "#000" "#333" md landscape md
            30 8 "Menlo" 28 80 6 4.

(** The [assertMin] checks of [parseArgs]: what every [Options] that
    reaches [main] satisfies. *)
Definition validOptions (o : Options) : Prop :=
  (1 <= fps o /\ 0 <= speed o /\ 0 <= quality o /\ 1 <= cols o /\
   0 <= pageWait o /\ 0 <= overlap o)%Q.

(** [1 - Math.pow(1 - p, 3)]. *)
Definition easeOut (p : Q) : Q := (1 - (1 - p) ^ 3)%Q.

(** What one pass of the frame loop computes before drawing. *)
Record Transform : Type := mkTransform {
  zoom : Q;
  scrollY : Q
}.

(** The branch of the first [if] chain of the frame loop that a frame takes;
    the two page branches carry [currentPage]. *)
Inductive Phase : Type :=
| ZoomIn
| HoldAfterZoom
| PageScroll (page : Z)
| PagePause (page : Z)
| ZoomOut
| FinalStill.

Section Main.

(** The resolved options, the width [mx.measureText('M').width] that the
    canvas library reports for the font, and the parsed document. *)
Variable o : Options.
Variable cw : Q.
Variable lines : list (list Ansi.Span).

Definition preset : Preset := SIZES (size o).

Definition W : Z :=
  match aspect o with
  | square => p_square preset
  | landscape => fst (p_landscape preset)
  | portrait => fst (p_portrait preset)
  end.

Definition H : Z :=
  match aspect o with
  | square => p_square preset
  | landscape => snd (p_landscape preset)
  | portrait => snd (p_portrait preset)
  end.

Definition PAD : Z := PADDINGS (padding o).
Definition FONT : Z := match size o with sm => 12 | md => 13 | lg => 15 end.
Definition LH : Z := Math_round (inject_Z FONT * 1.5).
Definition WPAD : Z := Math_round (inject_Z PAD * 0.7).
Definition RAD : Z := match size o with sm => 10 | _ => 12 end.
Definition TITLE_H : Z := 32.

Definition contentW : Z := Math_ceil (cols o * cw).
Definition winW : Z := contentW + WPAD * 2.
Definition winH : Z := H - PAD * 2.
Definition winX : Z := Math_round (inject_Z (W - winW) / 2).
Definition winY : Z := PAD.

Definition contentTop : Z := winY + TITLE_H.
Definition visH : Z := winH - TITLE_H - WPAD.
Definition totalH : Z := Z.of_nat (length lines) * LH.
Definition maxScroll : Z := Z.max 0 (totalH - visH + WPAD).
Definition hasScroll : bool := 0 <? maxScroll.

Definition ZOOM_FRAMES : Z := Math_round (fps o * 0.6).
Definition zoomScale : Q := inject_Z W / inject_Z winW.

Definition pageHeight : Q :=
  Qmax (inject_Z LH) (inject_Z visH - inject_Z LH * overlap o).
Definition numPages : Z := Math_ceil (inject_Z maxScroll / pageHeight).
Definition PAGE_SCROLL_FRAMES : Z := Math_round (fps o * 0.8).
Definition PAGE_PAUSE_FRAMES : Z := Math_round (fps o * pageWait o).
Definition HOLD_AFTER_ZOOM : Z := PAGE_PAUSE_FRAMES.
Definition scrollFrames : Z :=
  if hasScroll then numPages * (PAGE_SCROLL_FRAMES + PAGE_PAUSE_FRAMES) else 0.
Definition total : Z :=
  ZOOM_FRAMES + HOLD_AFTER_ZOOM + scrollFrames +
  (if hasScroll then ZOOM_FRAMES else Math_round (fps o * 0.3)).

(** *** The frame loop, for the frame index [f] *)

Definition scrollStart : Z := ZOOM_FRAMES + HOLD_AFTER_ZOOM.
Definition scrollEnd : Z := scrollStart + scrollFrames.
Definition zoomOutStart : Z := scrollEnd.
Definition pageLen : Z := PAGE_SCROLL_FRAMES + PAGE_PAUSE_FRAMES.

(** [Math.min(maxScroll, prevPageScroll + pageHeight)] with
    [prevPageScroll = currentPage * pageHeight]: where the scroll rests
    while page [currentPage] is paused. *)
Definition pageTarget (currentPage : Z) : Q :=
  Qmin (inject_Z maxScroll)
       (inject_Z currentPage * pageHeight + pageHeight).

(** The first [if] chain: [zoom] and [scrollY]. *)
Definition transform (f : Z) : Transform :=
  if f <? ZOOM_FRAMES then
    let p := (inject_Z f / inject_Z ZOOM_FRAMES)%Q in
    let ease := easeOut p in
    mkTransform (1 + (zoomScale - 1) * ease) 0
  else if f <? scrollStart then
    mkTransform zoomScale 0
  else if f <? scrollEnd then
    let scrollFrame := f - scrollStart in
    let currentPage := Math_floor (inject_Z scrollFrame / inject_Z pageLen) in
    let frameInPage := Z.rem scrollFrame pageLen in
    let prevPageScroll := (inject_Z currentPage * pageHeight)%Q in
    if frameInPage <? PAGE_SCROLL_FRAMES then
      let p := (inject_Z frameInPage / inject_Z PAGE_SCROLL_FRAMES)%Q in
      let ease := easeOut p in
      mkTransform zoomScale
                  (Qmin (inject_Z maxScroll) (prevPageScroll + pageHeight * ease))
    else
      mkTransform zoomScale (pageTarget currentPage)
  else if hasScroll then
    let p := (inject_Z (f - zoomOutStart) / inject_Z ZOOM_FRAMES)%Q in
    let ease := easeOut p in
    mkTransform (zoomScale - (zoomScale - 1) * ease) (inject_Z maxScroll)
  else
    mkTransform 1 0.

(** The branch of that chain taken by frame [f]. *)
Definition phaseOf (f : Z) : Phase :=
  if f <? ZOOM_FRAMES then ZoomIn
  else if f <? scrollStart then HoldAfterZoom
  else if f <? scrollEnd then
    let scrollFrame := f - scrollStart in
    let currentPage := Math_floor (inject_Z scrollFrame / inject_Z pageLen) in
    let frameInPage := Z.rem scrollFrame pageLen in
    if frameInPage <? PAGE_SCROLL_FRAMES then PageScroll currentPage
    else PagePause currentPage
  else if hasScroll then ZoomOut
  else FinalStill.



End Main.

(** [rendered.split('\n').map(parseAnsi)]. *)
Definition document (rendered : list ascii) : list (list Ansi.Span) :=
  map Ansi.parseAnsi (Ansi.split "010"%char rendered).

End Video.

(** ** Sample inputs *)

Module Samples.

Import Ansi AnsiSpec Video.
Local Open Scope char_scope.

Definition hello : list ascii := list_ascii_of_string "hello".

Definition boldStyle : Style := mkStyle None (Some true) None None None.

(** ESC[1m A ESC[m B *)
Definition boldThenBare : list ascii :=
  sgr ["1"] ++ ["A"] ++ sgr [] ++ ["B"].

(** ESC[99m between "ab" and "cd". *)
Definition aroundUnknown : list ascii :=
  ["a"; "b"] ++ sgr ["9"; "9"] ++ ["c"; "d"].

(** A one-line document. *)
Definition doc1 : list (list Span) := document hello.

(** A rendered text of 26 line breaks, hence 27 (empty) lines: with the
    default options it fits the visible band and still scrolls. *)
Definition doc27 : list (list Span) := document (repeat "010" 26%nat).

(** 170 lines: with the default options 3400 pixels of text, 2876 to
    scroll, in pages of 478. *)
Definition doc170 : list (list Span) := document (repeat "010" 169%nat).

(** A character width of 7.8125 pixels (13 pixel Menlo is close to it);
    80 columns then take 625 pixels. *)
Definition cw13 : Q := 125 # 16.

End Samples.

(** A reading of numerals for the samples of the command line: decimal
    digits only, as [Ansi.Number] reads them. *)
Module SampleNumber.

Definition readDigits (s : string) : option Q :=
  option_map (fun n => inject_Z (Z.of_N n)) (Ansi.Number (list_ascii_of_string s)).

End SampleNumber.

(** ** The scroll of the pages, by page and frame in the page *)

Module Frames.

Import Video.
Local Open Scope Z_scope.

Section Pages.

Variable o : Options.
Variable lines : list (list Ansi.Span).

(** [scrollY] in the branch "paginated scrolling", for [currentPage = k]
    and [frameInPage = r]. *)
Definition inPage (k r : Z) : Q :=
  if r <? PAGE_SCROLL_FRAMES o then
    Qmin (inject_Z (maxScroll o lines))
         (inject_Z k * pageHeight o
          + pageHeight o
            * easeOut (inject_Z r / inject_Z (PAGE_SCROLL_FRAMES o)))
  else pageTarget o lines k.



End Pages.

End Frames.

(** ** Drawing: the text loop, the style of a span, the frame files *)

Module Draw.

Import Ansi Video.
Local Open Scope Z_scope.

(** A line as the text loop of a frame meets it: the baseline [y] it has
    there, whether the test on [y] lets it be drawn, and its spans. *)
Record Placed : Type := mkPlaced {
  baseline : Q;
  shown : bool;
  content : list Span
}.

Definition Qlt_bool (a b : Q) : bool := negb (Qle_bool b a).

Section Text.

Variable o : Options.
Variable lines : list (list Span).

(** [y > contentTop - LH && y < contentTop + visH + LH]. *)
Definition inReach (y : Q) : bool :=
  Qlt_bool (inject_Z (contentTop o - LH o)) y
  && Qlt_bool y (inject_Z (contentTop o + visH o + LH o)).

(** [for (const line of lines) { if (...) {...}; y += LH }]. *)
Fixpoint placeLines (y : Q) (ls : list (list Span)) : list Placed :=
  match ls with
  | [] => []
  | l :: t => mkPlaced y (inReach y) l :: placeLines (y + inject_Z (LH o)) t
  end.

(** The loop from [let y = contentTop + LH - scrollY]. *)
Definition textLayout (scrollY : Q) : list Placed :=
  placeLines (inject_Z (contentTop o + LH o) - scrollY) lines.

End Text.

(** A flag of a style read as a condition: unset and [false] both fail. *)
Definition truthy (b : option bool) : bool :=
  match b with Some true => true | _ => false end.

(** [style.dim ? '#6272a4' : style.fg || '#ffffff']. *)
Definition fillStyle (st : Style) : string :=
  if truthy (dim st) then "#6272a4"%string
  else match fg st with
       | Some c => if String.eqb c ""%string then "#ffffff"%string else c
       | None => "#ffffff"%string
       end.

(** The part of [ctx.font] that the style decides:
    [(bold ? 'bold ' : '') + (italic ? 'italic ' : '')]. *)
Definition fontStyle (st : Style) : string :=
  ((if truthy (bold st) then "bold " else "")
   ++ (if truthy (italic st) then "italic " else ""))%string.

(** How a span looks: fill colour, font style, and whether the stroke of
    [if (style.underline)] is drawn. *)
Definition look (st : Style) : string * string * bool :=
  (fillStyle st, fontStyle st, truthy (underline st)).

(** [String(f)] for a frame index: its decimal digits. *)
Definition decimal (f : N) : list ascii :=
  list_ascii_of_string (DecimalString.NilEmpty.string_of_uint (N.to_uint f)).

(** [s.padStart(n, c)] for a one-character [c]. *)
Definition padStart (n : nat) (c : ascii) (s : list ascii) : list ascii :=
  repeat c (n - length s) ++ s.

(** The file of frame [f]: [`f${String(f).padStart(5, '0')}.png`]. *)
Definition frameName (f : N) : list ascii :=
  "f"%char :: padStart 5 "0"%char (decimal f) ++ list_ascii_of_string ".png".

(** [P] on the [n] frame indices from [f] on. *)
Fixpoint allFrom (n : nat) (f : N) (P : N -> bool) : bool :=
  match n with
  | O => true
  | S m => P f && allFrom m (N.succ f) P
  end.

End Draw.

(** ** Command line: [parseArgs] of video.ts and the dispatch of index.ts *)

Module Cli.

Import Video Draw.
Local Open Scope string_scope.

(** [new Error(...)], by the values its message is made of. *)
Inductive Error : Type :=
| InvalidChoice (name value : string) (choices : list string)
| BelowMin (name : string) (value min : Q).

(** How a call ends: it returns, it throws, or it leaves through
    [process.exit(code)]. *)
Inductive Outcome (A : Type) : Type :=
| Returned (a : A)
| Thrown (e : Error)
| Exited (code : Z).

Arguments Returned {A} a.
Arguments Thrown {A} e.
Arguments Exited {A} code.

Definition bind {A B : Type} (x : Outcome A) (k : A -> Outcome B) : Outcome B :=
  match x with
  | Returned a => k a
  | Thrown e => Thrown e
  | Exited c => Exited c
  end.

Notation "x <- c ;; k" := (bind c (fun x => k))
  (at level 61, c at next level, right associativity).

(** [assertChoice]. *)
Definition assertChoice (name value : string) (choices : list string)
  : Outcome string :=
  if existsb (String.eqb value) choices then Returned value
  else Thrown (InvalidChoice name value choices).

(** [assertMin]. *)
Definition assertMin (name : string) (value min : Q) : Outcome Q :=
  if Qlt_bool value min then Thrown (BelowMin name value min)
  else Returned value.

(** [args.indexOf(f)], [None] for -1. *)
Fixpoint indexOf (args : list string) (f : string) : option nat :=
  match args with
  | [] => None
  | a :: t => if String.eqb a f then Some O else option_map S (indexOf t f)
  end.

(** [const get = (f) => { const i = args.indexOf(f); return i !== -1 ?
    args[i + 1] : undefined }]. *)
Definition get (args : list string) (f : string) : option string :=
  match indexOf args f with
  | Some i => nth_error args (i + 1)
  | None => None
  end.

(** [v || d] for a string or [undefined]: the empty string is falsy. *)
Definition orElse (v : option string) (d : string) : string :=
  match v with
  | Some s => if String.eqb s "" then d else s
  | None => d
  end.

(** The keys of [SIZES] and [PADDINGS], and the aspects, as the strings
    they are in the source. *)
Definition keyName (k : SizeKey) : string :=
  match k with sm => "sm" | md => "md" | lg => "lg" end.

Definition aspectName (a : Aspect) : string :=
  match a with
  | square => "square"
  | landscape => "landscape"
  | portrait => "portrait"
  end.

(** The key that a string is, if it is one: what [SIZES[s]], [PADDINGS[s]]
    find. *)
Definition keyOf (s : string) : option SizeKey :=
  if String.eqb s "sm" then Some sm
  else if String.eqb s "md" then Some md
  else if String.eqb s "lg" then Some lg
  else None.

Definition aspectOf (s : string) : option Aspect :=
  if String.eqb s "square" then Some square
  else if String.eqb s "landscape" then Some landscape
  else if String.eqb s "portrait" then Some portrait
  else None.

(** The object that [parseArgs] returns, with the strings it holds. *)
Record Parsed : Type := mkParsed {
  file : option string;
  output : string;
  bg : string;
  window : string;
  border : string;
  size : string;
  aspect : string;
  padding : string;
  fps : Q;
  speed : Q;
  font : string;
  quality : Q;
  cols : Q;
  pageWait : Q;
  overlap : Q
}.

Section Args.

(** [Number(raw)] when it is finite, [None] when it is NaN or infinite:
    the reading of numerals is the language's, not the program's. *)
Variable Number : string -> option Q.

(** [parseNumber]. *)
Definition parseNumber (raw : option string) (fallback : Q) : Q :=
  match raw with
  | None => fallback
  | Some r =>
      match Number r with
      | Some parsed => parsed
      | None => fallback
      end
  end.

Definition wantsHelp (args : list string) : bool :=
  existsb (String.eqb "-h") args || existsb (String.eqb "--help") args.

(** [parseArgs], on [process.argv.slice(2)]. *)
Definition parseArgs (args : list string) : Outcome Parsed :=
  if wantsHelp args then Exited 0
  else
    size <- assertChoice "size"
              (orElse (get args "--size") (keyName (Video.size DEFAULTS)))
              ["sm"; "md"; "lg"] ;;
    aspect <- assertChoice "aspect"
                (orElse (get args "--aspect") (aspectName (Video.aspect DEFAULTS)))
                ["square"; "landscape"; "portrait"] ;;
    padding <- assertChoice "padding"
                 (orElse (get args "--padding") (keyName (Video.padding DEFAULTS)))
                 ["sm"; "md"; "lg"] ;;
    fps <- assertMin "fps" (parseNumber (get args "--fps") (Video.fps DEFAULTS)) 1 ;;
    speed <- assertMin "speed"
               (parseNumber (get args "--speed") (Video.speed DEFAULTS)) 0 ;;
    quality <- assertMin "quality"
                 (parseNumber (get args "--quality") (Video.quality DEFAULTS)) 0 ;;
    cols <- assertMin "cols" (parseNumber (get args "--cols") (Video.cols DEFAULTS)) 1 ;;
    pageWait <- assertMin "page-wait"
                  (parseNumber (get args "--page-wait") (Video.pageWait DEFAULTS)) 0 ;;
    overlap <- assertMin "overlap"
                 (parseNumber (get args "--overlap") (Video.overlap DEFAULTS)) 0 ;;
    Returned
      (mkParsed
         (find (fun a => negb (String.prefix "-" a)) args)
         (orElse (get args "-o") "output.mp4")
         (orElse (get args "--bg") (Video.bg DEFAULTS))
         (orElse (get args "--window") (Video.window DEFAULTS))
         (orElse (get args "--border") (Video.border DEFAULTS))
         size aspect padding fps speed
         (orElse (get args "--font") (Video.font DEFAULTS))
         quality cols pageWait overlap).

End Args.

(** The options of [main] that the strings of a [Parsed] stand for, when
    each of [size], [aspect] and [padding] is a key that [main] looks up. *)
Definition resolve (r : Parsed) : option Options :=
  match keyOf (size r), aspectOf (aspect r), keyOf (padding r) with
  | Some s, Some a, Some p =>
      Some (mkOptions (output r) (bg r) (window r) (border r) s a p
                      (fps r) (speed r) (font r) (quality r) (cols r)
                      (pageWait r) (overlap r))
  | _, _, _ => None
  end.

(** index.ts: what the command does with its arguments. *)
Inductive Action : Type :=
| ShowUsage
| RunVideo (argv : list string)
| UsageError
| Render (file : string).

Definition index (args : list string) : Action :=
  if wantsHelp args then ShowUsage
  else if existsb (String.eqb "--video") args then
    RunVideo (filter (fun a => negb (String.eqb a "--video")) args)
  else
    match find (fun a => negb (String.prefix "-" a)) args with
    | Some f => if String.eqb f "" then UsageError else Render f
    | None => UsageError
    end.

End Cli.

(** ** The parser from a given running style *)

Module AnsiFrom.

Import Ansi.

(** The body of [parseAnsi] with the variable [style] starting at [st]
    instead of [{}]. *)
Definition parseFrom (st : Style) (txt : list ascii) : list Span :=
  finish txt (loop txt (mkPState 0 st [])).

(** The span of a text under the style [st]: none when the text is empty. *)
Definition styledSpan (t : list ascii) (st : Style) : list Span :=
  match t with
  | [] => []
  | _ :: _ => [mkSpan t st]
  end.

(** A loop state of a text seen [k] characters further, behind the spans
    [sp0]. *)
Definition shiftState (k : nat) (sp0 : list Span) (st : PState) : PState :=
  mkPState (k + idx st) (cur st) (sp0 ++ spans st).

Definition shiftMatch (k : nat) (m : Match) : Match :=
  mkMatch (k + index m) (group1 m) (k + lastIndex m).

End AnsiFrom.

(** ** Double-precision arithmetic *)

Module Binary64.

Local Open Scope Q_scope.

Definition pow2 (e : Z) : Q := 2 ^ e.

(** The binade of a positive rational: the [k] with [2^k <= x < 2^(k+1)].
    The difference of the bit lengths of numerator and denominator is [k]
    or [k + 1]. *)
Definition binade (x : Q) : Z :=
  let k := (Z.log2 (Qnum x) - Z.log2 (Zpos (Qden x)))%Z in
  if Qle_bool (pow2 k) x then k else (k - 1)%Z.

(** The exponent of the last place of the doubles around [x]: 52 binary
    places below the binade, and no finer than the subnormal step
    [2^-1074]. *)
Definition lastPlace (x : Q) : Z := Z.max (binade x - 52) (-1074).

(** The nearest integer, a tie going to the even one. *)
Definition nearestEven (x : Q) : Z :=
  let n := Qfloor x in
  match Qcompare (x - inject_Z n) (1 # 2) with
  | Lt => n
  | Eq => if Z.even n then n else (n + 1)%Z
  | Gt => (n + 1)%Z
  end.

(** The nearest multiple of [2^e]. *)
Definition toGrid (e : Z) (x : Q) : Q :=
  inject_Z (nearestEven (x / pow2 e)) * pow2 e.

Definition roundPos (x : Q) : Q := toGrid (lastPlace x) x.

(** The double nearest to [x], ties to even: the value of a numeric
    literal or of an arithmetic result.  The result is in lowest terms.
    Overflow is left out: the exponent range has no upper end here. *)
Definition binary64 (x : Q) : Q :=
  Qred (if Qle_bool 0 x then roundPos x else - roundPos (- x)).

(** The values a double can hold (the upper end of the exponent range is
    left open). *)
Definition representable (x : Q) : Prop :=
  exists m e : Z,
    (Z.abs m < 2 ^ 53)%Z /\ (-1074 <= e)%Z /\ x == inject_Z m * pow2 e.

(** [+], [-], [*] and [/] on doubles. *)
Definition fadd (x y : Q) : Q := binary64 (x + y).
Definition fsub (x y : Q) : Q := binary64 (x - y).
Definition fmul (x y : Q) : Q := binary64 (x * y).
Definition fdiv (x y : Q) : Q := binary64 (x / y).

(** For comparison with the Standard Library's specification of IEEE
    arithmetic at 53 bits: a whole number as a double there, and the value
    of a finite double, in lowest terms. *)
Definition ofWhole (m : Z) : SpecFloat.spec_float :=
  SpecFloat.binary_normalize 53 1024 m 0 false.

Definition valueOf (x : SpecFloat.spec_float) : option Q :=
  match x with
  | SpecFloat.S754_zero _ => Some 0
  | SpecFloat.S754_finite s m e =>
      Some (Qred ((if s then - inject_Z (Zpos m) else inject_Z (Zpos m)) * pow2 e))
  | _ => None
  end.

End Binary64.

(** ** Pages and frame counts as the doubles give them

    The computations of [main] that do not stay within the whole numbers,
    with each arithmetic result rounded.  The metrics that are whole
    numbers ([W], [H], [PAD], [LH], [WPAD], [visH], [totalH], [maxScroll])
    and [hasScroll] are those of [Video]: doubles are exact on whole
    numbers of that size. *)

Module Video64.

Import Video Binary64.
Local Open Scope Z_scope.

(** The literals [0.6], [0.8] and [0.3]. *)
Definition c0_6 : Q := binary64 (6 # 10).
Definition c0_8 : Q := binary64 (8 # 10).
Definition c0_3 : Q := binary64 (3 # 10).

Section Main.

(** [Math.pow], whose result the language leaves to the engine (an
    approximation of the power); the code calls it with the exponent 3. *)
Variable Math_pow : Q -> Z -> Q.

(** The options (each number the double that [parseArgs] returned), the
    width of an 'M' and the parsed document. *)
Variable o : Options.
Variable cw : Q.
Variable lines : list (list Ansi.Span).

Definition contentW : Z := Math_ceil (fmul (cols o) cw).
Definition winW : Z := contentW + WPAD o * 2.

Definition ZOOM_FRAMES : Z := Math_round (fmul (fps o) c0_6).
Definition zoomScale : Q := fdiv (inject_Z (W o)) (inject_Z winW).

Definition pageHeight : Q :=
  Qmax (inject_Z (LH o))
       (fsub (inject_Z (visH o)) (fmul (inject_Z (LH o)) (overlap o))).
Definition numPages : Z :=
  Math_ceil (fdiv (inject_Z (maxScroll o lines)) pageHeight).
Definition PAGE_SCROLL_FRAMES : Z := Math_round (fmul (fps o) c0_8).
Definition PAGE_PAUSE_FRAMES : Z := Math_round (fmul (fps o) (pageWait o)).
Definition HOLD_AFTER_ZOOM : Z := PAGE_PAUSE_FRAMES.
Definition scrollFrames : Z :=
  if hasScroll o lines
  then numPages * (PAGE_SCROLL_FRAMES + PAGE_PAUSE_FRAMES) else 0.
Definition total : Z :=
  ZOOM_FRAMES + HOLD_AFTER_ZOOM + scrollFrames +
  (if hasScroll o lines then ZOOM_FRAMES else Math_round (fmul (fps o) c0_3)).

Definition scrollStart : Z := ZOOM_FRAMES + HOLD_AFTER_ZOOM.
Definition scrollEnd : Z := scrollStart + scrollFrames.
Definition zoomOutStart : Z := scrollEnd.
Definition pageLen : Z := PAGE_SCROLL_FRAMES + PAGE_PAUSE_FRAMES.

(** [1 - Math.pow(1 - p, 3)]. *)
Definition easeOut (p : Q) : Q := fsub 1 (Math_pow (fsub 1 p) 3).

(** [currentPage * pageHeight]. *)
Definition prevPageScroll (currentPage : Z) : Q :=
  fmul (inject_Z currentPage) pageHeight.

(** [Math.min(maxScroll, prevPageScroll + pageHeight)]: where the scroll
    rests while page [currentPage] is paused. *)
Definition pageTarget (currentPage : Z) : Q :=
  Qmin (inject_Z (maxScroll o lines))
       (fadd (prevPageScroll currentPage) pageHeight).

(** [scrollY] in the branch "paginated scrolling", for [currentPage = k]
    and [frameInPage = r]. *)
Definition inPage (k r : Z) : Q :=
  if r <? PAGE_SCROLL_FRAMES then
    let p := fdiv (inject_Z r) (inject_Z PAGE_SCROLL_FRAMES) in
    let ease := easeOut p in
    Qmin (inject_Z (maxScroll o lines))
         (fadd (prevPageScroll k) (fmul pageHeight ease))
  else pageTarget k.

(** The first [if] chain of the frame loop. *)
Definition transform (f : Z) : Transform :=
  if f <? ZOOM_FRAMES then
    let p := fdiv (inject_Z f) (inject_Z ZOOM_FRAMES) in
    let ease := easeOut p in
    mkTransform (fadd 1 (fmul (fsub zoomScale 1) ease)) 0
  else if f <? scrollStart then
    mkTransform zoomScale 0
  else if f <? scrollEnd then
    let scrollFrame := f - scrollStart in
    let currentPage :=
      Math_floor (fdiv (inject_Z scrollFrame) (inject_Z pageLen)) in
    let frameInPage := Z.rem scrollFrame pageLen in
    if frameInPage <? PAGE_SCROLL_FRAMES then
      let p := fdiv (inject_Z frameInPage) (inject_Z PAGE_SCROLL_FRAMES) in
      let ease := easeOut p in
      mkTransform zoomScale
                  (Qmin (inject_Z (maxScroll o lines))
                        (fadd (prevPageScroll currentPage)
                              (fmul pageHeight ease)))
    else
      mkTransform zoomScale (pageTarget currentPage)
  else if hasScroll o lines then
    let p := fdiv (inject_Z (f - zoomOutStart)) (inject_Z ZOOM_FRAMES) in
    let ease := easeOut p in
    mkTransform (fsub zoomScale (fmul (fsub zoomScale 1) ease))
                (inject_Z (maxScroll o lines))
  else
    mkTransform 1 0.

(** The branch of that chain taken by frame [f]. *)
Definition phaseOf (f : Z) : Phase :=
  if f <? ZOOM_FRAMES then ZoomIn
  else if f <? scrollStart then HoldAfterZoom
  else if f <? scrollEnd then
    let scrollFrame := f - scrollStart in
    let currentPage :=
      Math_floor (fdiv (inject_Z scrollFrame) (inject_Z pageLen)) in
    let frameInPage := Z.rem scrollFrame pageLen in
    if frameInPage <? PAGE_SCROLL_FRAMES then PageScroll currentPage
    else PagePause currentPage
  else if hasScroll o lines then ZoomOut
  else FinalStill.

End Main.

End Video64.

(** Sample runs with fractional options. *)
Module Samples64.

Import Video Binary64.

Definition withOverlap (v : Q) (o : Options) : Options :=
  mkOptions (output o) (bg o) (window o) (border o) (size o) (aspect o)
            (padding o) (fps o) (speed o) (font o) (quality o) (cols o)
            (pageWait o) v.

Definition withTiming (f w : Q) (o : Options) : Options :=
  mkOptions (output o) (bg o) (window o) (border o) (size o) (aspect o)
            (padding o) f (speed o) (font o) (quality o) (cols o)
            w (overlap o).

(** [--overlap 0.01], [--overlap 0.06] and [--overlap 0.13]. *)
Definition overlap_0_01 : Options := withOverlap (binary64 (1 # 100)) DEFAULTS.
Definition overlap_0_06 : Options := withOverlap (binary64 (6 # 100)) DEFAULTS.
Definition overlap_0_13 : Options := withOverlap (binary64 (13 # 100)) DEFAULTS.

(** [--fps 10 --page-wait 0.35]. *)
Definition fps10_wait_0_35 : Options :=
  withTiming 10 (binary64 (35 # 100)) DEFAULTS.

(** Documents of 584, 2671 and 193 lines. *)
Definition doc584 : list (list Ansi.Span) := document (repeat "010"%char 583%nat).
Definition doc2671 : list (list Ansi.Span) := document (repeat "010"%char 2670%nat).
Definition doc193 : list (list Ansi.Span) := document (repeat "010"%char 192%nat).

(** A [Math.pow] that rounds the exact power. *)
Definition roundedPow (x : Q) (n : Z) : Q := binary64 (x ^ n).

End Samples64.

(** ** Properties of the parser *)

Module AnsiFacts.

Import Ansi AnsiSpec Samples.
Local Open Scope char_scope.

(** *** The regular expression against the specified sequences *)

Lemma m_not_param (c : ascii) : Ascii.eqb c "m" = true -> isParamChar c = false.
Proof. intros H. apply Ascii.eqb_eq in H. subst c. reflexivity. Qed.

Lemma params_all (s : list ascii) : forallb isParamChar (params s) = true.
Proof.
  induction s as [|c t IH]; [reflexivity|]. cbn [params].
  destruct (isParamChar c) eqn:Hc; [|reflexivity]. cbn. now rewrite Hc.
Qed.

Lemma params_prefix (s : list ascii) :
  s = params s ++ skipn (length (params s)) s.
Proof.
  induction s as [|c t IH]; [reflexivity|]. cbn [params].
  destruct (isParamChar c); [|reflexivity].
  cbn [length skipn app]. now rewrite <- IH.
Qed.

(** The greedy run is the whole parameter text when an 'm' follows it. *)
Lemma params_app (ps post : list ascii) :
  forallb isParamChar ps = true -> params (ps ++ "m" :: post) = ps.
Proof.
  induction ps as [|c t IH]; [reflexivity|]. cbn [forallb app params].
  intros H. apply andb_prop in H as [Hc Ht]. rewrite Hc. now rewrite IH.
Qed.

Lemma afterParams_params (s : list ascii) :
  afterParams s =
  match skipn (length (params s)) s with
  | m :: r => if Ascii.eqb m "m" then Some r else None
  | [] => None
  end.
Proof.
  induction s as [|c t IH]; [reflexivity|]. cbn [afterParams params].
  destruct (Ascii.eqb c "m") eqn:Hm.
  - rewrite (m_not_param c Hm). cbn [length skipn]. now rewrite Hm.
  - destruct (isParamChar c).
    + cbn [length skipn]. exact IH.
    + cbn [length skipn]. now rewrite Hm.
Qed.

(** The expression matches at the head of [s] exactly when [s] begins with
    a specified escape sequence, and then its end is where that sequence
    ends. *)
Lemma matchHere_afterEscape (s : list ascii) :
  match matchHere s with
  | Some g =>
      forallb isParamChar g = true /\
      s = sgr g ++ skipn (3 + length g) s /\
      afterEscape s = Some (skipn (3 + length g) s)
  | None => afterEscape s = None
  end.
Proof.
  unfold matchHere, afterEscape.
  destruct s as [|e [|b t]]; try reflexivity.
  destruct (Ascii.eqb e ESC && Ascii.eqb b "[") eqn:Hh; [|reflexivity].
  apply andb_prop in Hh as [He Hb].
  apply Ascii.eqb_eq in He, Hb. subst e b.
  rewrite afterParams_params.
  assert (Hpre := params_prefix t).
  destruct (skipn (length (params t)) t) as [|m r] eqn:Hk; [reflexivity|].
  destruct (Ascii.eqb m "m") eqn:Hm; [|reflexivity].
  apply Ascii.eqb_eq in Hm. subst m.
  assert (Hr : skipn (3 + length (params t)) (ESC :: "[" :: t) = r).
  { change r with (skipn 1 ("m" :: r)). rewrite <- Hk.
    rewrite skipn_skipn. reflexivity. }
  rewrite Hr. split; [apply params_all|]. split; [|reflexivity].
  unfold sgr. cbn [app]. do 2 f_equal. rewrite <- app_assoc. exact Hpre.
Qed.

Lemma matchHere_sgr (ps post : list ascii) :
  forallb isParamChar ps = true -> matchHere (sgr ps ++ post) = Some ps.
Proof.
  intros Hps. unfold sgr, matchHere. cbn [app].
  rewrite <- app_assoc. cbn [app].
  rewrite !Ascii.eqb_refl. cbn [andb].
  rewrite (params_app ps post Hps).
  rewrite skipn_app, skipn_all, Nat.sub_diag. cbn [app skipn].
  now rewrite Ascii.eqb_refl.
Qed.

(** *** Unfolding [stripEscapes] and [loop] *)

Lemma inspect_case {A : Type} (a : A) (P : {b : A | a = b} -> Prop) :
  (forall (b : A) (e : a = b), P (exist _ b e)) -> P (inspect a).
Proof. intros H. apply H. Qed.

Lemma stripEscapes_skip (c : ascii) (t rest : list ascii) :
  afterEscape (c :: t) = Some rest ->
  stripEscapes (c :: t) = stripEscapes rest.
Proof.
  intros H. rewrite stripEscapes_equation_2.
  pattern (inspect (afterEscape (c :: t))). apply inspect_case.
  intros [r|] e; simp stripEscapes; congruence.
Qed.

Lemma stripEscapes_keep (c : ascii) (t : list ascii) :
  afterEscape (c :: t) = None ->
  stripEscapes (c :: t) = c :: stripEscapes t.
Proof.
  intros H. rewrite stripEscapes_equation_2.
  pattern (inspect (afterEscape (c :: t))). apply inspect_case.
  intros [r|] e; simp stripEscapes; congruence.
Qed.

Lemma loop_unfold (txt : list ascii) (st : PState) :
  loop txt st =
  match step txt st with
  | Some st' => loop txt st'
  | None => st
  end.
Proof.
  rewrite loop_equation_1.
  pattern (inspect (step txt st)). apply inspect_case.
  intros [st'|] e.
  - rewrite loop_clause_1_equation_1, e. reflexivity.
  - rewrite loop_clause_1_equation_2, e. reflexivity.
Qed.

(** *** What [re.exec] finds *)

Lemma search_spec (s : list ascii) : forall i : nat,
  match search s i with
  | Some m =>
      (i <= index m)%nat /\
      lastIndex m = (index m + 3 + length (group1 m))%nat /\
      (lastIndex m <= i + length s)%nat /\
      forallb isParamChar (group1 m) = true /\
      s = firstn (index m - i) s ++ sgr (group1 m) ++ skipn (lastIndex m - i) s /\
      stripEscapes s
        = firstn (index m - i) s ++ stripEscapes (skipn (lastIndex m - i) s)
  | None => stripEscapes s = s
  end.
Proof.
  induction s as [|a s IH]; intros i.
  - cbn. now simp stripEscapes.
  - cbn [search].
    assert (Hm := matchHere_afterEscape (a :: s)).
    destruct (matchHere (a :: s)) as [g|].
    + destruct Hm as (Hg & Hs & Ha). cbn [index lastIndex group1].
      replace (i - i)%nat with 0%nat by lia.
      replace (i + 3 + length g - i)%nat with (3 + length g)%nat by lia.
      cbn [firstn app].
      split; [lia|]. split; [reflexivity|]. split.
      * assert (Hl : length (a :: s)
                     = (length (sgr g) + length (skipn (3 + length g) (a :: s)))%nat)
          by (rewrite <- length_app, <- Hs; reflexivity).
        unfold sgr in Hl. cbn [length] in Hl. rewrite length_app in Hl.
        cbn [length] in *. lia.
      * split; [exact Hg|]. split; [exact Hs|]. now apply stripEscapes_skip.
    + specialize (IH (S i)).
      destruct (search s (S i)) as [m|].
      * destruct IH as (Hi & Hl & Hb & Hg & Hs & Hst).
        replace (index m - i)%nat with (S (index m - S i)) by lia.
        replace (lastIndex m - i)%nat with (S (lastIndex m - S i)) by lia.
        cbn [firstn skipn app length].
        split; [lia|]. split; [exact Hl|]. split; [lia|]. split; [exact Hg|].
        split; [now rewrite <- Hs|].
        rewrite (stripEscapes_keep a s Hm). now rewrite Hst.
      * rewrite (stripEscapes_keep a s Hm). now rewrite IH.
Qed.

(** The search misses no sequence. *)
Lemma search_complete (pre ps post : list ascii) (i : nat) :
  forallb isParamChar ps = true ->
  search (pre ++ sgr ps ++ post) i <> None.
Proof.
  intros Hps. revert i.
  induction pre as [|c pre IH]; intros i.
  - cbn [app]. destruct (sgr ps ++ post) as [|a r] eqn:Hr; [discriminate|].
    cbn [search]. rewrite <- Hr, (matchHere_sgr ps post Hps). discriminate.
  - cbn [app search].
    destruct (matchHere (c :: pre ++ sgr ps ++ post)); [discriminate|]. apply IH.
Qed.

Lemma search_None_iff (s : list ascii) (i : nat) :
  search s i = None <-> ~ containsEscape s.
Proof.
  split.
  - intros Hn (pre & ps & post & Hps & ->).
    now apply (search_complete pre ps post i Hps).
  - intros Hc. assert (H := search_spec s i).
    destruct (search s i) as [m|]; [|reflexivity].
    exfalso. apply Hc. destruct H as (_ & _ & _ & Hg & Hs & _).
    exists (firstn (index m - i) s), (group1 m), (skipn (lastIndex m - i) s).
    now split.
Qed.

(** *** One iteration *)

Lemma step_progress (txt : list ascii) (st st' : PState) :
  step txt st = Some st' -> (idx st < idx st' <= length txt)%nat.
Proof.
  unfold step, exec. intros H.
  assert (Hs := search_spec (skipn (idx st) txt) (idx st)).
  destruct (search (skipn (idx st) txt) (idx st)) as [m|]; [|discriminate].
  injection H as <-. cbn [idx].
  destruct Hs as (Hi & Hl & Hb & _). rewrite length_skipn in Hb. lia.
Qed.

(** *** The loop: it ends, by its own test, and keeps what each iteration
    keeps *)

Lemma loop_invariant (txt : list ascii) (I : PState -> Prop) :
  (forall st st', I st -> step txt st = Some st' -> I st') ->
  forall st, I st -> I (loop txt st) /\ step txt (loop txt st) = None.
Proof.
  intros Hstep st.
  remember (length txt - idx st)%nat as n eqn:Hn.
  revert st Hn. induction n as [n IH] using lt_wf_ind. intros st Hn HI.
  rewrite loop_unfold. destruct (step txt st) as [st'|] eqn:Hs.
  - assert (Hp := step_progress txt st st' Hs).
    apply (IH (length txt - idx st')%nat); [lia|reflexivity|].
    now apply (Hstep st).
  - now split.
Qed.

(** *** Text of the spans *)

Lemma visible_push (sp : list Span) (b : bool) (s : Span) :
  visible (push sp b s) = visible sp ++ (if b then text s else []).
Proof.
  unfold visible, push. destruct b.
  - rewrite map_app, concat_app. cbn. now rewrite app_nil_r.
  - now rewrite app_nil_r.
Qed.

Lemma step_visible (txt : list ascii) (st st' : PState) :
  step txt st = Some st' ->
  exists m,
    exec txt (idx st) = Some m /\
    idx st' = lastIndex m /\
    cur st' = applySeq (cur st) (group1 m) /\
    visible (spans st') = visible (spans st) ++ slice txt (idx st) (index m).
Proof.
  unfold step. intros H.
  destruct (exec txt (idx st)) as [m|]; [|discriminate].
  injection H as <-. exists m. cbn [idx cur spans].
  repeat split; try reflexivity.
  rewrite visible_push. cbn [text]. f_equal.
  destruct (Nat.ltb_spec (idx st) (index m)) as [Hlt|Hge]; [reflexivity|].
  unfold slice. replace (index m - idx st)%nat with 0%nat by lia. reflexivity.
Qed.

(** The spans pushed so far and the rest of the line, stripped, make up the
    stripped line. *)
Lemma step_keeps_text (txt : list ascii) (st st' : PState) :
  visible (spans st) ++ stripEscapes (skipn (idx st) txt) = stripEscapes txt ->
  step txt st = Some st' ->
  visible (spans st') ++ stripEscapes (skipn (idx st') txt) = stripEscapes txt.
Proof.
  intros HI Hs.
  destruct (step_visible txt st st' Hs) as (m & Hx & Hi & _ & Hv).
  unfold exec in Hx.
  assert (Hsp := search_spec (skipn (idx st) txt) (idx st)).
  rewrite Hx in Hsp. destruct Hsp as (Hle & Hl & _ & _ & _ & Hst).
  rewrite skipn_skipn in Hst.
  replace (lastIndex m - idx st + idx st)%nat with (lastIndex m) in Hst by lia.
  rewrite <- HI, Hv, Hi, Hst, <- app_assoc. reflexivity.
Qed.

Lemma visible_parseAnsi (line : list ascii) :
  visible (parseAnsi line) = stripEscapes line.
Proof.
  unfold parseAnsi.
  destruct (loop_invariant line
              (fun st => visible (spans st) ++ stripEscapes (skipn (idx st) line)
                         = stripEscapes line)
              (step_keeps_text line) init eq_refl) as [HI Hend].
  set (st := loop line init) in *.
  unfold step, exec in Hend.
  assert (Hsp := search_spec (skipn (idx st) line) (idx st)).
  destruct (search (skipn (idx st) line) (idx st)); [discriminate|].
  rewrite Hsp in HI. rewrite <- HI.
  change (visible (finish line st) = visible (spans st) ++ skipn (idx st) line).
  unfold finish. rewrite visible_push. cbn [text]. unfold sliceFrom. f_equal.
  destruct (Nat.ltb_spec (idx st) (length line)) as [Hlt|Hge]; [reflexivity|].
  symmetry. now apply skipn_all2.
Qed.

(** C4: the texts of the spans that [parseAnsi] returns, concatenated in
    order, are the line with its escape sequences removed. *)
Theorem parseAnsi_roundtrip (line : list ascii) :
  concat (map text (parseAnsi line)) = stripEscapes line.
Proof. exact (visible_parseAnsi line). Qed.

(** *** No empty span *)

Lemma step_keeps_nonempty (txt : list ascii) (st st' : PState) :
  Forall (fun sp => text sp <> []) (spans st) ->
  step txt st = Some st' ->
  Forall (fun sp => text sp <> []) (spans st').
Proof.
  intros HI Hs. assert (Hp := step_progress txt st st' Hs).
  unfold step in Hs. destruct (exec txt (idx st)) as [m|]; [|discriminate].
  injection Hs as <-. cbn [idx spans] in *. unfold push.
  destruct (Nat.ltb_spec (idx st) (index m)) as [Hlt|Hge]; [|exact HI].
  apply Forall_app. split; [exact HI|]. constructor; [|constructor].
  cbn [text]. unfold slice. intros He.
  apply (f_equal (@length ascii)) in He.
  rewrite length_firstn, length_skipn in He. cbn [length] in He. lia.
Qed.

(** C10: no span that [parseAnsi] returns has an empty text, wherever the
    escape sequences stand in the line. *)
Theorem parseAnsi_spans_nonempty (line : list ascii) :
  Forall (fun sp => text sp <> []) (parseAnsi line).
Proof.
  unfold parseAnsi.
  destruct (loop_invariant line
              (fun st => Forall (fun sp => text sp <> []) (spans st))
              (step_keeps_nonempty line) init (Forall_nil _)) as [HI _].
  set (st := loop line init) in *.
  unfold finish, push.
  destruct (Nat.ltb_spec (idx st) (length line)) as [Hlt|Hge]; [|exact HI].
  apply Forall_app. split; [exact HI|]. constructor; [|constructor].
  cbn [text]. unfold sliceFrom. intros He.
  apply (f_equal (@length ascii)) in He.
  rewrite length_skipn in He. cbn [length] in He. lia.
Qed.

(** *** Lines without escape sequence *)

Lemma nil_no_escape : ~ containsEscape [].
Proof.
  intros (pre & ps & post & _ & H).
  apply (f_equal (@length ascii)) in H.
  rewrite !length_app in H. unfold sgr in H. cbn [length] in H. lia.
Qed.

(** C6, as amended: on a line without escape sequence [parseAnsi] returns
    one span, with the whole line as text and the empty style, when the
    line is not empty, and no span when the line is empty. *)
Theorem parseAnsi_plain (line : list ascii) :
  ~ containsEscape line ->
  parseAnsi line =
  match line with
  | [] => []
  | _ :: _ => [mkSpan line emptyStyle]
  end.
Proof.
  intros Hc. apply (search_None_iff line 0) in Hc.
  unfold parseAnsi. rewrite loop_unfold. unfold step, exec.
  cbn [idx init skipn]. rewrite Hc.
  unfold finish, push, sliceFrom. cbn [idx cur spans skipn].
  destruct line; reflexivity.
Qed.

Lemma hello_no_escape : ~ containsEscape hello.
Proof. apply (search_None_iff hello 0). reflexivity. Qed.

Lemma parseAnsi_plain_witness :
  parseAnsi hello = [mkSpan hello emptyStyle].
Proof. exact (parseAnsi_plain hello hello_no_escape). Defined.

(** C6 as worded fails on the empty line, which holds no escape sequence
    and yields no span. *)
Lemma parseAnsi_empty_line_no_span :
  ~ containsEscape [] /\ parseAnsi [] = [].
Proof. split; [exact nil_no_escape|reflexivity]. Qed.

(** *** Sequences that carry no code, or none that is recognized *)

Lemma applyCode_unrecognized (st : Style) (c : option N) :
  unrecognized c -> applyCode st c = st.
Proof.
  destruct c as [n|]; [|reflexivity]. cbn [unrecognized]. intros Hn.
  unfold recognized in Hn. unfold applyCode.
  destruct n as [|p]; [discriminate|].
  do 7 (destruct p as [p|p|]; try discriminate Hn; try reflexivity);
    destruct (ANSI _); try discriminate Hn; reflexivity.
Qed.

Lemma applyCodes_unrecognized (cs : list (option N)) (st : Style) :
  Forall unrecognized cs -> fold_left applyCode cs st = st.
Proof.
  induction 1 as [|c cs Hc _ IH]; [reflexivity|].
  cbn [fold_left]. now rewrite (applyCode_unrecognized st c Hc).
Qed.

Lemma applySeq_unrecognized (st : Style) (seq : list ascii) :
  Forall unrecognized (codes seq) -> applySeq st seq = st.
Proof. apply applyCodes_unrecognized. Qed.

(** *** The sequence ESC [ m *)

(** C5, as amended: a sequence ESC[m with an empty parameter list carries no
    code; the parser consumes it and the running style stays what it was.
    The style becomes the empty style on the code 0 (ESC[0m), whatever it
    was before. *)
Theorem empty_params_keep_style :
  (forall st : Style, applySeq st [] = st) /\
  (forall st : Style, applySeq st ["0"] = emptyStyle) /\
  (forall (line : list ascii) (st : PState) (m : Match),
     exec line (idx st) = Some m ->
     group1 m = [] ->
     exists st',
       step line st = Some st' /\ idx st' = lastIndex m /\ cur st' = cur st).
Proof.
  split; [reflexivity|]. split; [reflexivity|].
  intros line st m Hx Hg. unfold step. rewrite Hx, Hg.
  eexists. split; [reflexivity|]. split; reflexivity.
Qed.

Lemma empty_params_keep_style_witness :
  exists st',
    step boldThenBare (mkPState 4 boldStyle []) = Some st' /\
    idx st' = 8%nat /\ cur st' = boldStyle.
Proof.
  destruct empty_params_keep_style as (_ & _ & H).
  exact (H boldThenBare (mkPState 4 boldStyle []) (mkMatch 5 [] 8)
           eq_refl eq_refl).
Defined.

(** C5 as worded fails: on ESC[1m A ESC[m B the first iteration leaves the
    style bold, the second consumes ESC[m and the style is bold still, and
    the span of B is bold. *)
Lemma empty_params_do_not_reset :
  step boldThenBare init = Some (mkPState 4 boldStyle []) /\
  exec boldThenBare 4 = Some (mkMatch 5 [] 8) /\
  ~ (forall st',
       step boldThenBare (mkPState 4 boldStyle []) = Some st' ->
       cur st' = emptyStyle) /\
  parseAnsi boldThenBare = [mkSpan ["A"] boldStyle; mkSpan ["B"] boldStyle].
Proof.
  split; [reflexivity|]. split; [reflexivity|]. split; [|reflexivity].
  intros H. specialize (H _ eq_refl). discriminate H.
Qed.

(** *** Text on both sides of a sequence *)

Lemma afterParams_app_ESC (t rest : list ascii) :
  afterParams (t ++ ESC :: rest)
  = option_map (fun r => r ++ ESC :: rest) (afterParams t).
Proof.
  induction t as [|a u IH]; [reflexivity|]. cbn [app afterParams].
  destruct (Ascii.eqb a "m"); [reflexivity|].
  destruct (isParamChar a); [exact IH|reflexivity].
Qed.

(** No sequence that starts in [pre] runs into the ESC that follows. *)
Lemma afterEscape_app_ESC (c : ascii) (t rest : list ascii) :
  afterEscape ((c :: t) ++ ESC :: rest)
  = option_map (fun r => r ++ ESC :: rest) (afterEscape (c :: t)).
Proof.
  destruct t as [|b t]; cbn [app afterEscape].
  - change (Ascii.eqb ESC "[") with false. now rewrite andb_false_r.
  - destruct (Ascii.eqb c ESC && Ascii.eqb b "["); [|reflexivity].
    apply afterParams_app_ESC.
Qed.

Lemma afterEscape_shorter (s r : list ascii) :
  afterEscape s = Some r -> (length r < length s)%nat.
Proof.
  intros H. assert (Hm := matchHere_afterEscape s).
  destruct (matchHere s) as [g|]; [|congruence].
  destruct Hm as (_ & _ & Ha).
  assert (Hr : r = skipn (3 + length g) s) by congruence.
  rewrite Hr, length_skipn.
  destruct s as [|a s]; [discriminate|]. cbn [length]. lia.
Qed.

Lemma stripEscapes_app_ESC (pre rest : list ascii) :
  stripEscapes (pre ++ ESC :: rest)
  = stripEscapes pre ++ stripEscapes (ESC :: rest).
Proof.
  remember (length pre) as n eqn:Hn. revert pre Hn.
  induction n as [n IH] using lt_wf_ind. intros pre Hn.
  destruct pre as [|c t].
  - rewrite stripEscapes_equation_1. reflexivity.
  - assert (Ha := afterEscape_app_ESC c t rest).
    destruct (afterEscape (c :: t)) as [r|] eqn:He; cbn [option_map] in Ha.
    + rewrite (stripEscapes_skip c t r He).
      change ((c :: t) ++ ESC :: rest) with (c :: (t ++ ESC :: rest)) in *.
      rewrite (stripEscapes_skip c _ _ Ha).
      apply (IH (length r)); [|reflexivity].
      rewrite Hn. now apply afterEscape_shorter.
    + rewrite (stripEscapes_keep c t He).
      change ((c :: t) ++ ESC :: rest) with (c :: (t ++ ESC :: rest)) in *.
      rewrite (stripEscapes_keep c _ Ha). cbn [app]. f_equal.
      apply (IH (length t)); [|reflexivity]. rewrite Hn. cbn [length]. lia.
Qed.

Lemma stripEscapes_sgr (ps post : list ascii) :
  forallb isParamChar ps = true ->
  stripEscapes (sgr ps ++ post) = stripEscapes post.
Proof.
  intros Hps. assert (Hm := matchHere_afterEscape (sgr ps ++ post)).
  rewrite (matchHere_sgr ps post Hps) in Hm. destruct Hm as (_ & _ & Ha).
  assert (Hk : skipn (3 + length ps) (sgr ps ++ post) = post).
  { assert (Hlen : (3 + length ps)%nat = length (sgr ps))
      by (unfold sgr; cbn [length]; rewrite length_app; cbn [length]; lia).
    rewrite Hlen, skipn_app, skipn_all, Nat.sub_diag. reflexivity. }
  rewrite Hk in Ha. unfold sgr in *. cbn [app] in *.
  now apply stripEscapes_skip.
Qed.

(** Removing the sequences of a line removes each of them and the sequences
    of what stands before and after it. *)
Lemma stripEscapes_around (pre ps post : list ascii) :
  forallb isParamChar ps = true ->
  stripEscapes (pre ++ sgr ps ++ post) = stripEscapes pre ++ stripEscapes post.
Proof.
  intros Hps.
  change (sgr ps ++ post) with (ESC :: ("[" :: ps ++ ["m"]) ++ post).
  rewrite stripEscapes_app_ESC. f_equal.
  now apply (stripEscapes_sgr ps post).
Qed.

(** *** A sequence of unrecognized codes between two plain texts *)

Lemma matchHere_None_iff (s : list ascii) :
  matchHere s = None <-> afterEscape s = None.
Proof.
  assert (H := matchHere_afterEscape s).
  destruct (matchHere s) as [g|].
  - destruct H as (_ & _ & Ha). rewrite Ha. split; discriminate.
  - now split.
Qed.

Lemma length_sgr (ps : list ascii) : length (sgr ps) = (3 + length ps)%nat.
Proof. unfold sgr. cbn [length]. rewrite length_app. cbn [length]. lia. Qed.

Lemma search_app_ESC (pre rest : list ascii) : forall i : nat,
  ~ containsEscape pre ->
  search (pre ++ ESC :: rest) i = search (ESC :: rest) (i + length pre).
Proof.
  induction pre as [|c t IH]; intros i Hc.
  - cbn [app length]. now rewrite Nat.add_0_r.
  - assert (Hn := proj2 (search_None_iff (c :: t) 0) Hc).
    cbn [search] in Hn.
    destruct (matchHere (c :: t)) eqn:Hm; [discriminate|].
    apply matchHere_None_iff in Hm.
    assert (Ha := afterEscape_app_ESC c t rest).
    rewrite Hm in Ha. cbn [option_map] in Ha.
    apply matchHere_None_iff in Ha.
    change ((c :: t) ++ ESC :: rest) with (c :: (t ++ ESC :: rest)) in *.
    replace (i + length (c :: t))%nat with (S i + length t)%nat
      by (cbn [length]; lia).
    rewrite <- IH by now apply (search_None_iff t 1).
    cbn [search]. now rewrite Ha.
Qed.

Lemma exec_first_sequence (pre ps post : list ascii) :
  ~ containsEscape pre ->
  forallb isParamChar ps = true ->
  exec (pre ++ sgr ps ++ post) 0
  = Some (mkMatch (length pre) ps (length pre + 3 + length ps)).
Proof.
  intros Hc Hps. unfold exec. cbn [skipn].
  change (sgr ps ++ post) with (ESC :: ("[" :: ps ++ ["m"]) ++ post).
  rewrite (search_app_ESC pre _ 0 Hc). cbn [Nat.add search].
  change (ESC :: ("[" :: ps ++ ["m"]) ++ post) with (sgr ps ++ post).
  now rewrite (matchHere_sgr ps post Hps).
Qed.

Lemma skipn_past_sequence (pre ps post : list ascii) :
  skipn (length pre + 3 + length ps) (pre ++ sgr ps ++ post) = post.
Proof.
  replace (length pre + 3 + length ps)%nat
    with (length (sgr ps) + length pre)%nat by (rewrite length_sgr; lia).
  rewrite <- skipn_skipn.
  rewrite (skipn_app (length pre)), skipn_all, Nat.sub_diag. cbn [app skipn].
  rewrite skipn_app, skipn_all, Nat.sub_diag. reflexivity.
Qed.

Lemma parseAnsi_around_unrecognized (pre ps post : list ascii) :
  forallb isParamChar ps = true ->
  Forall unrecognized (codes ps) ->
  ~ containsEscape pre ->
  ~ containsEscape post ->
  parseAnsi (pre ++ sgr ps ++ post) = plainSpan pre ++ plainSpan post.
Proof.
  intros Hps Hun Hpre Hpost.
  set (txt := pre ++ sgr ps ++ post).
  set (li := (length pre + 3 + length ps)%nat).
  assert (Hx := exec_first_sequence pre ps post Hpre Hps). fold txt li in Hx.
  assert (Hk : skipn li txt = post) by apply skipn_past_sequence.
  assert (Hlen : length txt = (li + length post)%nat).
  { unfold txt, li. rewrite !length_app, length_sgr. lia. }
  assert (Hsl : slice txt 0 (length pre) = pre).
  { unfold slice, txt. cbn [skipn]. rewrite Nat.sub_0_r.
    rewrite firstn_app, firstn_all, Nat.sub_diag. cbn [firstn].
    now rewrite app_nil_r. }
  unfold parseAnsi.
  rewrite loop_unfold. unfold step at 1. cbn [idx cur spans init].
  rewrite Hx. cbn [index group1 lastIndex]. rewrite Hsl.
  rewrite (applySeq_unrecognized emptyStyle ps Hun).
  rewrite loop_unfold. unfold step, exec. cbn [idx cur spans].
  rewrite Hk, (proj2 (search_None_iff post li) Hpost).
  unfold finish, sliceFrom. cbn [idx cur spans]. rewrite Hk, Hlen.
  unfold push, plainSpan.
  destruct pre as [|a pre']; destruct post as [|b post']; cbn [length app];
    repeat match goal with
           | |- context [Nat.ltb ?x ?y] =>
               destruct (Nat.ltb_spec x y); try lia
           end; reflexivity.
Qed.

(** C9: [parseAnsi] is defined on every line, and its spans show the line
    without its escape sequences, so what stands before and after a
    sequence is kept whatever the codes of the sequence; a code outside the
    recognized set leaves the running style as it was, within one iteration
    and in the spans of the line. *)
Theorem unknown_codes_tolerated :
  (forall line : list ascii,
     exists sp, parseAnsi line = sp /\
                concat (map text sp) = stripEscapes line) /\
  (forall pre ps post : list ascii,
     forallb isParamChar ps = true ->
     concat (map text (parseAnsi (pre ++ sgr ps ++ post)))
     = stripEscapes pre ++ stripEscapes post) /\
  (forall (st : Style) (c : option N),
     unrecognized c -> applyCode st c = st) /\
  (forall (line : list ascii) (st : PState) (m : Match),
     exec line (idx st) = Some m ->
     Forall unrecognized (codes (group1 m)) ->
     exists st',
       step line st = Some st' /\ idx st' = lastIndex m /\
       cur st' = cur st /\
       visible (spans st') = visible (spans st) ++ slice line (idx st) (index m)) /\
  (forall pre ps post : list ascii,
     forallb isParamChar ps = true ->
     Forall unrecognized (codes ps) ->
     ~ containsEscape pre ->
     ~ containsEscape post ->
     parseAnsi (pre ++ sgr ps ++ post) = plainSpan pre ++ plainSpan post).
Proof.
  split.
  { intros line. exists (parseAnsi line). split; [reflexivity|].
    apply visible_parseAnsi. }
  split.
  { intros pre ps post Hps. fold (visible (parseAnsi (pre ++ sgr ps ++ post))).
    rewrite visible_parseAnsi. now apply stripEscapes_around. }
  split; [exact applyCode_unrecognized|].
  split; [|exact parseAnsi_around_unrecognized].
  intros line st m Hx Hun.
  destruct (step line st) as [st'|] eqn:Hs.
  - destruct (step_visible line st st' Hs) as (m' & Hx' & Hi & Hc & Hv).
    assert (m' = m) by congruence. subst m'.
    exists st'. split; [reflexivity|]. split; [exact Hi|]. split; [|exact Hv].
    rewrite Hc. now apply applySeq_unrecognized.
  - unfold step in Hs. rewrite Hx in Hs. discriminate.
Qed.

Lemma unknown_codes_tolerated_witness :
  parseAnsi aroundUnknown
  = [mkSpan ["a"; "b"] emptyStyle; mkSpan ["c"; "d"] emptyStyle].
Proof.
  destruct unknown_codes_tolerated as (_ & _ & _ & _ & H).
  apply (H ["a"; "b"] ["9"; "9"] ["c"; "d"]).
  - reflexivity.
  - repeat constructor.
  - apply (search_None_iff _ 0). reflexivity.
  - apply (search_None_iff _ 0). reflexivity.
Defined.

End AnsiFacts.

(** ** Properties of the layout metrics and of the timeline *)

Module VideoFacts.

Import Video Samples.
Local Open Scope Z_scope.

(** *** Rounding *)

Lemma Math_round_mono (x y : Q) : (x <= y)%Q -> Math_round x <= Math_round y.
Proof.
  intros Hxy. unfold Math_round. apply Qfloor_resp_le. lra.
Qed.

Lemma Math_round_Z (z : Z) : Math_round (inject_Z z) = z.
Proof.
  unfold Math_round.
  assert (H1 := Qfloor_le (inject_Z z + (1 # 2))).
  assert (H2 := Qlt_floor (inject_Z z + (1 # 2))).
  set (r := Qfloor (inject_Z z + (1 # 2))) in *.
  assert (Ha : (inject_Z r <= inject_Z z + (1 # 2))%Q) by exact H1.
  assert (Hb : (inject_Z z + (1 # 2) < inject_Z (r + 1))%Q) by exact H2.
  rewrite inject_Z_plus in Hb.
  assert (Hc : (inject_Z r < inject_Z (z + 1))%Q)
    by (rewrite inject_Z_plus; change (inject_Z 1) with 1%Q; lra).
  assert (Hd : (inject_Z z < inject_Z (r + 1))%Q)
    by (rewrite inject_Z_plus; change (inject_Z 1) with 1%Q in *; lra).
  rewrite <- Zlt_Qlt in Hc, Hd. lia.
Qed.

Lemma Math_round_nonneg (x : Q) : (0 <= x)%Q -> 0 <= Math_round x.
Proof.
  intros Hx. change 0 with (Math_round 0). now apply Math_round_mono.
Qed.

(** *** Constants of the three size and padding tiers *)

Lemma LH_values (o : Options) :
  LH o = match size o with sm => 18 | md => 20 | lg => 23 end.
Proof. unfold LH, FONT. destruct (size o); reflexivity. Qed.

Lemma WPAD_values (o : Options) :
  WPAD o = match padding o with sm => 21 | md => 34 | lg => 45 end.
Proof. unfold WPAD, PAD, PADDINGS. destruct (padding o); reflexivity. Qed.

Lemma LH_pos (o : Options) : 18 <= LH o.
Proof. rewrite LH_values. destruct (size o); lia. Qed.

Lemma WPAD_pos (o : Options) : 21 <= WPAD o.
Proof. rewrite WPAD_values. destruct (padding o); lia. Qed.

Lemma pageHeight_pos (o : Options) : (0 < pageHeight o)%Q.
Proof.
  unfold pageHeight.
  assert (H := LH_pos o).
  assert (Hq : (inject_Z 18 <= inject_Z (LH o))%Q) by (rewrite <- Zle_Qle; exact H).
  change (inject_Z 18) with 18%Q in Hq.
  assert (Hm := Q.le_max_l (inject_Z (LH o))
                           (inject_Z (visH o) - inject_Z (LH o) * overlap o)).
  lra.
Qed.

(** *** Frame counts under the [assertMin] checks *)

Section Valid.

Variable o : Options.
Hypothesis Hvalid : validOptions o.






End Valid.

(** *** Scroll bound *)

Lemma maxScroll_nonneg (o : Options) (lines : list (list Ansi.Span)) :
  0 <= maxScroll o lines.
Proof. unfold maxScroll. lia. Qed.

Lemma hasScroll_false_iff (o : Options) (lines : list (list Ansi.Span)) :
  hasScroll o lines = false <-> totalH o lines + WPAD o <= visH o.
Proof.
  unfold hasScroll, maxScroll. rewrite Z.ltb_ge. lia.
Qed.

(** C1, as amended: the maximum scroll offset is never negative, and it is
    zero, with [hasScroll] false, whenever the content together with the
    bottom padding [WPAD] fits the visible band, that is when
    [totalH + WPAD <= visH]; in no other case is [hasScroll] false, and
    [WPAD] is 21 pixels or more. *)
Theorem maxScroll_bound (o : Options) (lines : list (list Ansi.Span)) :
  0 <= maxScroll o lines /\
  (totalH o lines + WPAD o <= visH o ->
   maxScroll o lines = 0 /\ hasScroll o lines = false) /\
  (hasScroll o lines = false -> totalH o lines + WPAD o <= visH o) /\
  21 <= WPAD o.
Proof.
  split; [apply maxScroll_nonneg|].
  split; [|split; [apply hasScroll_false_iff|apply WPAD_pos]].
  intros Hfit. split.
  - unfold maxScroll. lia.
  - now apply hasScroll_false_iff.
Qed.

Lemma maxScroll_bound_witness :
  totalH DEFAULTS doc1 + WPAD DEFAULTS <= visH DEFAULTS /\
  maxScroll DEFAULTS doc1 = 0 /\ hasScroll DEFAULTS doc1 = false.
Proof.
  split; [vm_compute; discriminate|].
  apply (maxScroll_bound DEFAULTS doc1). vm_compute; discriminate.
Defined.

(** C1 as worded fails: with the default options, 27 lines take 540 pixels
    of a 558 pixel band, yet the bottom padding of 34 pixels leaves 16
    pixels to scroll. *)
Lemma maxScroll_fit_without_padding_scrolls :
  totalH DEFAULTS doc27 = 540 /\ visH DEFAULTS = 558 /\
  totalH DEFAULTS doc27 <= visH DEFAULTS /\
  maxScroll DEFAULTS doc27 = 16 /\
  hasScroll DEFAULTS doc27 = true.
Proof.
  split; [reflexivity|]. split; [reflexivity|].
  split; [vm_compute; discriminate|]. split; reflexivity.
Qed.

(** *** Number of pages *)

Lemma numPages_bounds (o : Options) (lines : list (list Ansi.Span)) :
  (inject_Z (numPages o lines - 1) * pageHeight o < inject_Z (maxScroll o lines)
   /\ inject_Z (maxScroll o lines) <= inject_Z (numPages o lines) * pageHeight o)%Q.
Proof.
  unfold numPages, Math_ceil.
  assert (Hp := pageHeight_pos o).
  set (x := (inject_Z (maxScroll o lines) / pageHeight o)%Q).
  assert (Hx : (x * pageHeight o == inject_Z (maxScroll o lines))%Q).
  { unfold x. field. lra. }
  split.
  - rewrite <- Hx. apply Qmult_lt_compat_r; [exact Hp|]. apply Qceiling_lt.
  - rewrite <- Hx. apply Qmult_le_compat_r; [|lra]. apply Qle_ceiling.
Qed.



(** *** Page coverage *)

Lemma scale_le (a b : Z) (P : Q) :
  (0 < P)%Q -> a <= b -> (inject_Z a * P <= inject_Z b * P)%Q.
Proof.
  intros HP Hab. apply Qmult_le_compat_r; [|lra]. now rewrite <- Zle_Qle.
Qed.

Lemma scale_lt (a b : Z) (P : Q) :
  (0 < P)%Q -> a < b -> (inject_Z a * P < inject_Z b * P)%Q.
Proof.
  intros HP Hab. apply Qmult_lt_compat_r; [exact HP|]. now rewrite <- Zlt_Qlt.
Qed.

Lemma scale_succ (a : Z) (P : Q) :
  (inject_Z (a + 1) * P == inject_Z a * P + P)%Q.
Proof. rewrite inject_Z_plus. change (inject_Z 1) with 1%Q. ring. Qed.

Lemma pageTarget_formula (o : Options) (lines : list (list Ansi.Span)) (k : Z) :
  (pageTarget o lines k ==
   Qmin (inject_Z (maxScroll o lines)) (inject_Z (k + 1) * pageHeight o))%Q.
Proof.
  unfold pageTarget.
  assert (Hs := scale_succ k (pageHeight o)).
  destruct (Q.min_spec (inject_Z (maxScroll o lines))
                       (inject_Z k * pageHeight o + pageHeight o)) as [[? ->]|[? ->]];
  destruct (Q.min_spec (inject_Z (maxScroll o lines))
                       (inject_Z (k + 1) * pageHeight o)) as [[? ->]|[? ->]];
  lra.
Qed.

(** Before the last page the target is a whole number of page heights. *)
Lemma pageTarget_inner (o : Options) (lines : list (list Ansi.Span)) (k : Z) :
  k < numPages o lines - 1 ->
  (pageTarget o lines k == inject_Z (k + 1) * pageHeight o /\
   pageTarget o lines k < inject_Z (maxScroll o lines))%Q.
Proof.
  intros Hk.
  destruct (numPages_bounds o lines) as [Hlo _].
  assert (Hp := pageHeight_pos o).
  assert (Hle : (inject_Z (k + 1) * pageHeight o
                 <= inject_Z (numPages o lines - 1) * pageHeight o)%Q)
    by (apply scale_le; [exact Hp|lia]).
  rewrite pageTarget_formula.
  destruct (Q.min_spec (inject_Z (maxScroll o lines))
                       (inject_Z (k + 1) * pageHeight o)) as [[? ->]|[? ->]];
  split; lra.
Qed.

(** The last page rests at [maxScroll]. *)
Lemma pageTarget_last (o : Options) (lines : list (list Ansi.Span)) :
  (pageTarget o lines (numPages o lines - 1) == inject_Z (maxScroll o lines))%Q.
Proof.
  destruct (numPages_bounds o lines) as [_ Hhi].
  rewrite pageTarget_formula.
  replace (numPages o lines - 1 + 1) with (numPages o lines) by lia.
  destruct (Q.min_spec (inject_Z (maxScroll o lines))
                       (inject_Z (numPages o lines) * pageHeight o)) as [[? ->]|[? ->]];
  lra.
Qed.

Lemma numPages_pos (o : Options) (lines : list (list Ansi.Span)) :
  hasScroll o lines = true -> 1 <= numPages o lines.
Proof.
  intros Hs. unfold hasScroll in Hs. rewrite Z.ltb_lt in Hs.
  destruct (numPages_bounds o lines) as [_ Hhi].
  assert (Hp := pageHeight_pos o).
  destruct (Z_lt_le_dec (numPages o lines) 1) as [Hn|]; [exfalso|assumption].
  assert (Hle : (inject_Z (numPages o lines) * pageHeight o
                 <= inject_Z 0 * pageHeight o)%Q)
    by (apply scale_le; [exact Hp|lia]).
  assert (Hm : (inject_Z 0 < inject_Z (maxScroll o lines))%Q)
    by (rewrite <- Zlt_Qlt; exact Hs).
  change (inject_Z 0) with 0%Q in *. lra.
Qed.

(** *** The default options *)

Lemma DEFAULTS_valid : validOptions DEFAULTS.
Proof. unfold validOptions; cbn. repeat split; lra. Qed.

(** *** Zoom-in *)





(** *** Progress bar *)



(** Conversely, the page and the frame in the page rebuild the frame. *)
Lemma page_join (len sf : Z) :
  0 < len -> 0 <= sf ->
  let k := Math_floor (inject_Z sf / inject_Z len) in
  let r := Z.rem sf len in
  sf = k * len + r /\ 0 <= k /\ 0 <= r < len.
Proof.
  intros Hlen Hsf. cbv zeta. unfold Math_floor. rewrite <- Zdiv_Qdiv.
  rewrite Z.rem_mod_nonneg by lia.
  assert (H1 := Z.div_mod sf len ltac:(lia)).
  assert (H2 := Z.mod_pos_bound sf len Hlen).
  assert (H3 := Z.div_pos sf len Hsf Hlen).
  lia.
Qed.

Section Bar.

Variable o : Options.
Variable lines : list (list Ansi.Span).
Hypothesis Hvalid : validOptions o.






End Bar.

(** While page [k] is paused the scroll rests at its target, at the target
    zoom. *)
Lemma pause_rests_at_target (o : Options) (cw : Q) (lines : list (list Ansi.Span))
      (f k : Z) :
  phaseOf o lines f = PagePause k ->
  transform o cw lines f = mkTransform (zoomScale o cw) (pageTarget o lines k).
Proof.
  unfold phaseOf, transform.
  destruct (f <? ZOOM_FRAMES o); [discriminate|].
  destruct (f <? scrollStart o); [discriminate|].
  destruct (f <? scrollEnd o lines).
  - destruct (Z.rem (f - scrollStart o) (pageLen o) <? PAGE_SCROLL_FRAMES o);
      [discriminate|].
    now intros [= <-].
  - destruct (hasScroll o lines); discriminate.
Qed.



End VideoFacts.

(** ** Properties of the frame loop beyond the phases *)

Module FramesFacts.

Import Video Samples Frames VideoFacts.
Local Open Scope Z_scope.

(** *** The ease-out curve *)

Lemma cube_expand (x : Q) : (x ^ 3 == x * x * x)%Q.
Proof. simpl. ring. Qed.

Lemma cube_mono (x y : Q) : (0 <= x -> x <= y -> x * x * x <= y * y * y)%Q.
Proof.
  intros Hx Hxy.
  assert (H2 : (0 <= x * x <= y * y)%Q).
  { split; [apply Qmult_le_0_compat; assumption|].
    apply Qmult_le_compat_nonneg; split; assumption. }
  apply Qmult_le_compat_nonneg; [exact H2|split; assumption].
Qed.




Lemma ratio_range (a b : Z) :
  0 <= a < b -> (0 <= inject_Z a / inject_Z b /\ inject_Z a / inject_Z b < 1)%Q.
Proof.
  intros Hab.
  assert (Hb : (0 < inject_Z b)%Q)
    by (change 0%Q with (inject_Z 0); rewrite <- Zlt_Qlt; lia).
  split.
  - apply Qle_shift_div_l; [exact Hb|]. rewrite Qmult_0_l.
    change 0%Q with (inject_Z 0). rewrite <- Zle_Qle. lia.
  - apply Qlt_shift_div_r; [exact Hb|]. rewrite Qmult_1_l.
    rewrite <- Zlt_Qlt. lia.
Qed.

(** *** The scroll offset of a frame *)


Section Scroll.

Variable o : Options.
Variable cw : Q.
Variable lines : list (list Ansi.Span).
Hypothesis Hvalid : validOptions o.

Let M : Q := inject_Z (maxScroll o lines).
Let P : Q := pageHeight o.








Lemma ratio_mono (a b c : Z) :
  0 < c -> a <= b -> (inject_Z a / inject_Z c <= inject_Z b / inject_Z c)%Q.
Proof.
  intros Hc Hab. unfold Qdiv. apply Qmult_le_compat_r.
  - now rewrite <- Zle_Qle.
  - apply Qinv_le_0_compat. change 0%Q with (inject_Z 0).
    rewrite <- Zle_Qle. lia.
Qed.


End Scroll.



(** *** Zoom *)







(** *** Progress bar and page height *)



End FramesFacts.

(** ** Properties of the text loop, of the span styles and of the frame
    files *)

Module DrawFacts.

Import Ansi AnsiSpec Video Samples Frames Draw VideoFacts FramesFacts.
Local Open Scope Z_scope.

(** *** Page height against the visible band *)

Lemma visH_min (o : Options) : 335 <= visH o.
Proof.
  unfold visH, winH, H, TITLE_H, preset, SIZES.
  rewrite WPAD_values. unfold PAD, PADDINGS.
  destruct (size o), (aspect o), (padding o); cbn; lia.
Qed.

Lemma LH_max (o : Options) : LH o <= 23.
Proof. rewrite LH_values. destruct (size o); lia. Qed.





(** *** Baselines *)

Lemma Qlt_bool_iff (a b : Q) : Qlt_bool a b = true <-> (a < b)%Q.
Proof.
  unfold Qlt_bool. rewrite negb_true_iff. split.
  - intros H. apply Qnot_le_lt. intros Hle.
    apply Qle_bool_iff in Hle. congruence.
  - intros H. destruct (Qle_bool b a) eqn:Hb; [|reflexivity].
    apply Qle_bool_iff in Hb. lra.
Qed.

Lemma inReach_iff (o : Options) (y : Q) :
  inReach o y = true <->
  (inject_Z (contentTop o - LH o) < y
   /\ y < inject_Z (contentTop o + visH o + LH o))%Q.
Proof.
  unfold inReach. rewrite andb_true_iff, !Qlt_bool_iff. reflexivity.
Qed.

(** Line [i] gets the baseline [y + i * LH], and the test is made on it. *)
Lemma placeLines_nth (o : Options) (ls : list (list Span)) :
  forall (y : Q) (i : nat) (l : list Span),
    nth_error ls i = Some l ->
    exists y',
      nth_error (placeLines o y ls) i = Some (mkPlaced y' (inReach o y') l) /\
      (y' == y + inject_Z (Z.of_nat i * LH o))%Q.
Proof.
  induction ls as [|l0 t IH]; intros y i l Hl.
  - destruct i; discriminate.
  - destruct i as [|i]; cbn [nth_error placeLines] in *.
    + injection Hl as <-. exists y. split; [reflexivity|].
      cbn [Z.of_nat Z.mul]. change (inject_Z 0) with 0%Q. ring.
    + destruct (IH (y + inject_Z (LH o))%Q i l Hl) as (y' & Hn & Hy).
      exists y'. split; [exact Hn|]. rewrite Hy.
      replace (Z.of_nat (S i) * LH o) with (LH o + Z.of_nat i * LH o) by lia.
      rewrite inject_Z_plus. ring.
Qed.

Lemma placeLines_length (o : Options) (ls : list (list Span)) (y : Q) :
  length (placeLines o y ls) = length ls.
Proof.
  revert y. induction ls as [|l t IH]; intros y; [reflexivity|].
  cbn [placeLines length]. now rewrite IH.
Qed.

(** X8: when the document scrolls, at the offset [maxScroll] the baseline
    of the last line is [WPAD] pixels above the bottom of the visible band
    (the bottom padding that [maxScroll] includes), and the line passes the
    drawing test. *)
Theorem last_line_above_bottom_padding (o : Options) (lines : list (list Span)) :
  hasScroll o lines = true ->
  exists y l,
    nth_error (textLayout o lines (inject_Z (maxScroll o lines)))
              (length lines - 1)
    = Some (mkPlaced y true l) /\
    (y == inject_Z (contentTop o + visH o - WPAD o))%Q.
Proof.
  intros Hs. unfold hasScroll in Hs. apply Z.ltb_lt in Hs.
  assert (Hw := WPAD_pos o). assert (Hv := visH_min o). assert (Hl := LH_pos o).
  assert (Hn : (0 < length lines)%nat).
  { destruct lines as [|l t]; [|cbn; lia]. exfalso.
    unfold maxScroll, totalH in Hs. cbn [length Z.of_nat] in Hs.
    assert (Hw' := WPAD_values o). destruct (padding o); lia. }
  destruct (nth_error lines (length lines - 1)) as [l|] eqn:Hl1;
    [|apply nth_error_None in Hl1; lia].
  destruct (placeLines_nth o lines
              (inject_Z (contentTop o + LH o) - inject_Z (maxScroll o lines))
              (length lines - 1) l Hl1) as (y & Hy & Hyv).
  assert (Hm : maxScroll o lines = totalH o lines - visH o + WPAD o)
    by (unfold maxScroll in *; lia).
  assert (Hval : (y == inject_Z (contentTop o + visH o - WPAD o))%Q).
  { rewrite Hyv, Hm. unfold totalH, Qminus.
    rewrite <- inject_Z_opp, <- !inject_Z_plus.
    apply inject_Z_injective. rewrite Nat2Z.inj_sub by lia. cbn [Z.of_nat]. lia. }
  exists y, l. split; [|exact Hval].
  unfold textLayout. rewrite Hy. do 2 f_equal.
  apply inReach_iff. rewrite Hval, <- !Zlt_Qlt.
  assert (Hw' := WPAD_values o). destruct (padding o); lia.
Qed.

Lemma last_line_above_bottom_padding_witness :
  exists y l,
    nth_error (textLayout DEFAULTS doc27 16) 26 = Some (mkPlaced y true l) /\
    (y == 604)%Q.
Proof.
  exact (last_line_above_bottom_padding DEFAULTS doc27 eq_refl).
Defined.

(** *** Every line comes to rest inside the band *)

Section Rests.

Variable o : Options.
Variable cw : Q.
Variable lines : list (list Span).
Hypothesis Hvalid : validOptions o.







End Rests.



(** *** Frame files *)

Lemma decimal_inj (f g : N) : decimal f = decimal g -> f = g.
Proof.
  unfold decimal. intros H.
  apply (f_equal string_of_list_ascii) in H.
  rewrite !string_of_list_ascii_of_string in H.
  apply (f_equal DecimalString.NilEmpty.uint_of_string) in H.
  rewrite !DecimalString.NilEmpty.usu in H. injection H as H.
  now apply DecimalN.Unsigned.to_uint_inj.
Qed.

Lemma leading_zeros_value (k : nat) (f : N) :
  option_map N.of_uint
    (DecimalString.NilEmpty.uint_of_string
       (string_of_list_ascii (repeat "0"%char k ++ decimal f)))
  = Some f.
Proof.
  induction k as [|k IH].
  - cbn [repeat app]. unfold decimal.
    rewrite string_of_list_ascii_of_string, DecimalString.NilEmpty.usu.
    cbn [option_map]. now rewrite DecimalN.Unsigned.of_to.
  - cbn [repeat app string_of_list_ascii DecimalString.NilEmpty.uint_of_string].
    destruct (DecimalString.NilEmpty.uint_of_string
                (string_of_list_ascii (repeat "0"%char k ++ decimal f)))
      as [d|]; [|discriminate].
    cbn in *. exact IH.
Qed.

Lemma allFrom_spec (n : nat) (P : N -> bool) : forall f : N,
  allFrom n f P = true ->
  forall g : N, (f <= g < f + N.of_nat n)%N -> P g = true.
Proof.
  induction n as [|n IH]; intros f H g Hg.
  - lia.
  - cbn [allFrom] in H. apply andb_prop in H as [H1 H2].
    destruct (N.eq_dec g f) as [->|Hne]; [exact H1|].
    apply (IH (N.succ f) H2). lia.
Qed.

Lemma five_digits_below_100000 :
  allFrom (N.to_nat 100000) 0 (fun f => Nat.leb (length (decimal f)) 5) = true.
Proof. vm_compute. reflexivity. Qed.

Lemma padStart_length (n : nat) (c : ascii) (s : list ascii) :
  length (padStart n c s) = Nat.max n (length s).
Proof. unfold padStart. rewrite length_app, repeat_length. lia. Qed.

Lemma frameName_length (f : N) :
  length (frameName f) = (5 + Nat.max 5 (length (decimal f)))%nat.
Proof.
  unfold frameName. cbn [length]. rewrite length_app, padStart_length.
  cbn [length list_ascii_of_string]. lia.
Qed.

(** X10: two frames never share a file name, so no frame overwrites
    another; the name is at least 10 characters long, and exactly 10 (five
    digits) for the frames below 100000. *)
Theorem frame_names_distinct :
  (forall f g : N, frameName f = frameName g -> f = g) /\
  (forall f : N, (10 <= length (frameName f))%nat) /\
  (forall f : N, (f < 100000)%N -> length (frameName f) = 10%nat).
Proof.
  split; [|split].
  - intros f g H. unfold frameName in H.
    injection H as H. apply app_inv_tail in H.
    assert (Hv : forall h : N,
              option_map N.of_uint
                (DecimalString.NilEmpty.uint_of_string
                   (string_of_list_ascii (padStart 5 "0"%char (decimal h))))
              = Some h)
      by (intros h; apply leading_zeros_value).
    assert (Hf := Hv f). rewrite H, Hv in Hf. congruence.
  - intros f. rewrite frameName_length. lia.
  - intros f Hf. rewrite frameName_length.
    assert (H := allFrom_spec _ _ 0%N five_digits_below_100000 f ltac:(lia)).
    cbn beta in H. apply Nat.leb_le in H. lia.
Qed.

Lemma frame_names_distinct_witness :
  frameName 7 = list_ascii_of_string "f00007.png" /\
  length (frameName 99999) = 10%nat.
Proof.
  destruct frame_names_distinct as (_ & _ & H).
  split; [reflexivity|]. apply H. reflexivity.
Defined.

End DrawFacts.

(** ** Properties of the parser beyond the text of the spans *)

Module AnsiFromFacts.

Import Ansi AnsiSpec Samples AnsiFrom AnsiFacts Draw.
Local Open Scope char_scope.

(** *** Every code is a number *)

Lemma split_digits (s : list ascii) :
  forallb isParamChar s = true ->
  Forall (fun piece => forallb isDigit piece = true) (split ";" s).
Proof.
  induction s as [|c t IH]; intros H.
  - repeat constructor.
  - cbn [forallb] in H. apply andb_prop in H as [Hc Ht].
    specialize (IH Ht). cbn [split].
    destruct (Ascii.eqb c ";") eqn:Hsemi.
    + constructor; [reflexivity|exact IH].
    + unfold isParamChar in Hc. rewrite Hsemi, orb_false_r in Hc.
      destruct (split ";" t) as [|h r]; [repeat constructor; cbn; now rewrite Hc|].
      inversion IH as [|? ? Hh Hr]; subst.
      constructor; [cbn; now rewrite Hc, Hh|exact Hr].
Qed.

Lemma NumberFrom_digits (s : list ascii) : forall acc : N,
  forallb isDigit s = true -> exists n, NumberFrom acc s = Some n.
Proof.
  induction s as [|c t IH]; intros acc H.
  - now exists acc.
  - cbn [forallb] in H. apply andb_prop in H as [Hc Ht].
    cbn [NumberFrom]. rewrite Hc. now apply IH.
Qed.

Lemma codes_numbers (ps : list ascii) :
  forallb isParamChar ps = true ->
  Forall (fun c => exists n, c = Some n) (codes ps).
Proof.
  intros H. unfold codes. apply Forall_map.
  assert (Hs := split_digits ps H).
  induction Hs as [|piece r Hp _ IH]; [constructor|].
  cbn [filter]. destruct (Boolean piece); [|exact IH].
  constructor; [|exact IH]. now apply NumberFrom_digits.
Qed.

(** X11: whatever the line and wherever the search starts, the parameter
    text of a match is made of digits and semicolons, and every code that
    the [for] loop receives from it is a number: [Number] never yields NaN
    there. *)
Theorem codes_are_numbers (line : list ascii) (from : nat) (m : Match) :
  exec line from = Some m ->
  forallb isParamChar (group1 m) = true /\
  Forall (fun c => exists n, c = Some n) (codes (group1 m)).
Proof.
  intros Hx. unfold exec in Hx.
  assert (Hs := search_spec (skipn from line) from). rewrite Hx in Hs.
  destruct Hs as (_ & _ & _ & Hg & _).
  split; [exact Hg|]. now apply codes_numbers.
Qed.

Lemma codes_are_numbers_witness :
  Forall (fun c => exists n, c = Some n) (codes ["9"; "9"]).
Proof.
  destruct (codes_are_numbers aroundUnknown 0 (mkMatch 2 ["9"; "9"] 7) eq_refl)
    as (_ & H).
  exact H.
Defined.

(** *** The parse of a text behind a prefix *)

Lemma search_offset (s : list ascii) : forall (k i : nat),
  search s (k + i) = option_map (shiftMatch k) (search s i).
Proof.
  induction s as [|a t IH]; intros k i; cbn [search].
  - destruct (matchHere []); [|reflexivity].
    cbn [option_map]. unfold shiftMatch. cbn [index group1 lastIndex].
    do 2 f_equal. lia.
  - destruct (matchHere (a :: t)) as [g|].
    + cbn [option_map]. unfold shiftMatch. cbn [index group1 lastIndex].
      do 2 f_equal. lia.
    + replace (S (k + i)) with (k + S i)%nat by lia. apply IH.
Qed.

Lemma skipn_behind (prefix post : list ascii) (i : nat) :
  skipn (length prefix + i) (prefix ++ post) = skipn i post.
Proof.
  replace (length prefix + i)%nat with (i + length prefix)%nat by lia.
  rewrite <- skipn_skipn, skipn_app, skipn_all, Nat.sub_diag. reflexivity.
Qed.

Lemma exec_behind (prefix post : list ascii) (i : nat) :
  exec (prefix ++ post) (length prefix + i)
  = option_map (shiftMatch (length prefix)) (exec post i).
Proof. unfold exec. rewrite skipn_behind. apply search_offset. Qed.

Lemma step_behind (prefix post : list ascii) (sp0 : list Span) (st : PState) :
  step (prefix ++ post) (shiftState (length prefix) sp0 st)
  = option_map (shiftState (length prefix) sp0) (step post st).
Proof.
  unfold step, shiftState at 1. cbn [idx cur spans]. rewrite exec_behind.
  destruct (exec post (idx st)) as [m|]; [|reflexivity].
  cbn [option_map]. unfold shiftState, shiftMatch. cbn [idx cur spans index group1 lastIndex].
  do 2 f_equal. unfold push, slice.
  rewrite skipn_behind.
  replace (length prefix + index m - (length prefix + idx st))%nat
    with (index m - idx st)%nat by lia.
  destruct (Nat.ltb_spec (idx st) (index m));
    destruct (Nat.ltb_spec (length prefix + idx st) (length prefix + index m));
    try lia; [now rewrite app_assoc|reflexivity].
Qed.

Lemma loop_behind (prefix post : list ascii) (sp0 : list Span) :
  forall st : PState,
    loop (prefix ++ post) (shiftState (length prefix) sp0 st)
    = shiftState (length prefix) sp0 (loop post st).
Proof.
  intros st. remember (length post - idx st)%nat as n eqn:Hn.
  revert st Hn. induction n as [n IH] using lt_wf_ind. intros st Hn.
  rewrite (loop_unfold post st), loop_unfold, step_behind.
  destruct (step post st) as [st'|] eqn:Hs; cbn [option_map]; [|reflexivity].
  assert (Hp := step_progress post st st' Hs).
  apply (IH (length post - idx st')%nat); [lia|reflexivity].
Qed.

Lemma finish_behind (prefix post : list ascii) (sp0 : list Span) (st : PState) :
  finish (prefix ++ post) (shiftState (length prefix) sp0 st)
  = sp0 ++ finish post st.
Proof.
  unfold finish, shiftState, sliceFrom, push. cbn [idx cur spans].
  rewrite skipn_behind, length_app.
  destruct (Nat.ltb_spec (idx st) (length post));
    destruct (Nat.ltb_spec (length prefix + idx st) (length prefix + length post));
    try lia; [now rewrite app_assoc|reflexivity].
Qed.

Lemma parseFrom_sequence (st : Style) (pre ps post : list ascii) :
  ~ containsEscape pre ->
  forallb isParamChar ps = true ->
  parseFrom st (pre ++ sgr ps ++ post)
  = styledSpan pre st ++ parseFrom (applySeq st ps) post.
Proof.
  intros Hpre Hps. unfold parseFrom.
  assert (Hx := exec_first_sequence pre ps post Hpre Hps).
  rewrite loop_unfold. unfold step at 1. cbn [idx cur spans]. rewrite Hx.
  cbn [index group1 lastIndex].
  assert (Hsl : slice (pre ++ sgr ps ++ post) 0 (length pre) = pre).
  { unfold slice. cbn [skipn]. rewrite Nat.sub_0_r.
    rewrite firstn_app, firstn_all, Nat.sub_diag. cbn [firstn].
    now rewrite app_nil_r. }
  rewrite Hsl.
  assert (Hst : mkPState (length pre + 3 + length ps) (applySeq st ps)
                  (push [] (Nat.ltb 0 (length pre)) (mkSpan pre st))
                = shiftState (length (pre ++ sgr ps)) (styledSpan pre st)
                    (mkPState 0 (applySeq st ps) [])).
  { unfold shiftState. cbn [idx cur spans].
    rewrite length_app, length_sgr, app_nil_r. f_equal; [lia|].
    destruct pre; reflexivity. }
  rewrite Hst.
  replace (pre ++ sgr ps ++ post) with ((pre ++ sgr ps) ++ post)
    by now rewrite app_assoc.
  rewrite loop_behind. apply finish_behind.
Qed.

Lemma parseFrom_plain (st : Style) (line : list ascii) :
  ~ containsEscape line -> parseFrom st line = styledSpan line st.
Proof.
  intros Hc. apply (search_None_iff line 0) in Hc.
  unfold parseFrom. rewrite loop_unfold. unfold step, exec.
  cbn [idx skipn]. rewrite Hc.
  unfold finish, push, sliceFrom. cbn [idx cur spans skipn].
  destruct line; reflexivity.
Qed.

(** X12: [parseAnsi] reads a line piece by piece. On a line that begins
    with a text free of sequences, then has a sequence, then anything, the
    result is the span of that text under the running style (none when the
    text is empty) followed by the parse of what follows the sequence under
    the style that the codes of the sequence made; on a line free of
    sequences it is the span of the line. The codes of a sequence thus
    style the text after it and never the text before. *)
Theorem parse_by_pieces :
  (forall line : list ascii, parseAnsi line = parseFrom emptyStyle line) /\
  (forall (st : Style) (line : list ascii),
     ~ containsEscape line -> parseFrom st line = styledSpan line st) /\
  (forall (st : Style) (pre ps post : list ascii),
     ~ containsEscape pre ->
     forallb isParamChar ps = true ->
     parseFrom st (pre ++ sgr ps ++ post)
     = styledSpan pre st ++ parseFrom (applySeq st ps) post).
Proof.
  split; [reflexivity|]. split; [exact parseFrom_plain|exact parseFrom_sequence].
Qed.

Lemma parse_by_pieces_witness :
  parseAnsi boldThenBare
  = [mkSpan ["A"] boldStyle] ++ parseFrom boldStyle ["B"].
Proof.
  destruct parse_by_pieces as (H0 & _ & H).
  rewrite H0.
  etransitivity;
    [exact (H emptyStyle [] ["1"] (["A"] ++ sgr [] ++ ["B"])
              nil_no_escape eq_refl)|].
  apply (H boldStyle ["A"] [] ["B"]); [|reflexivity].
  apply (search_None_iff _ 0). reflexivity.
Defined.

(** *** How the styles look *)

Lemma applyCode_colour (st : Style) (n : N) (col : string) :
  ANSI n = Some col ->
  applyCode st (Some n)
  = mkStyle (Some col) (bold st) (italic st) (underline st) (dim st).
Proof.
  intros H. unfold applyCode.
  destruct n as [|p]; [discriminate|].
  do 7 (destruct p as [p|p|]; try discriminate H;
        try (cbn in H |- *; injection H as <-; reflexivity)).
Qed.

Ltac style_cases st :=
  destruct st as [f [[|]|] [[|]|] [[|]|] [[|]|]].

(** X13: the codes 22, 23, 24 and 39 together give the look of the empty
    style from any style; from a style that looks plain, a code 1, 2, 3, 4
    or a colour followed by the code that closes it (22, 22, 23, 24, 39)
    looks plain again, though the style is then not the empty style; and
    while dim is on a colour code changes nothing of the look. *)
Theorem closing_codes_restore_look :
  (forall st : Style,
     look (fold_left applyCode [Some 22; Some 23; Some 24; Some 39]%N st)
     = look emptyStyle) /\
  (forall (st : Style) (opening closing : N),
     look st = look emptyStyle ->
     In (opening, closing) [(1, 22); (2, 22); (3, 23); (4, 24)]%N ->
     look (applyCode (applyCode st (Some opening)) (Some closing))
     = look emptyStyle) /\
  (forall (st : Style) (n : N) (col : string),
     look st = look emptyStyle ->
     ANSI n = Some col ->
     look (applyCode (applyCode st (Some n)) (Some 39%N)) = look emptyStyle) /\
  (forall (st : Style) (n : N) (col : string),
     truthy (dim st) = true ->
     ANSI n = Some col ->
     look (applyCode st (Some n)) = look st) /\
  applyCode (applyCode emptyStyle (Some 1%N)) (Some 22%N) <> emptyStyle.
Proof.
  split; [|split; [|split; [|split]]].
  - intros st. style_cases st; reflexivity.
  - intros st opening closing Hl Hin.
    cbn [In] in Hin.
    destruct Hin as [H|[H|[H|[H|[]]]]]; injection H as <- <-;
      style_cases st; unfold look, fillStyle, fontStyle in *; cbn in Hl |- *;
      try discriminate Hl; injection Hl as Hl; now rewrite ?Hl.
  - intros st n col Hl Hn. rewrite (applyCode_colour st n col Hn).
    style_cases st; unfold look, fillStyle, fontStyle in *; cbn in Hl |- *;
      try discriminate Hl; reflexivity.
  - intros st n col Hd Hn. rewrite (applyCode_colour st n col Hn).
    unfold look, fillStyle, fontStyle. cbn [dim bold italic underline fg].
    now rewrite Hd.
  - discriminate.
Qed.

Lemma closing_codes_restore_look_witness :
  look (applyCode (applyCode emptyStyle (Some 31%N)) (Some 39%N))
  = look emptyStyle.
Proof.
  destruct closing_codes_restore_look as (_ & _ & H & _).
  exact (H emptyStyle 31%N "#ff5555"%string eq_refl eq_refl).
Defined.

End AnsiFromFacts.

(** ** Properties of the command line *)

Module CliFacts.

Import Video Draw Cli SampleNumber VideoFacts DrawFacts.
Local Open Scope string_scope.
Local Open Scope list_scope.

Lemma assertChoice_Returned (name value x : string) (choices : list string) :
  assertChoice name value choices = Returned x -> x = value /\ In value choices.
Proof.
  unfold assertChoice. destruct (existsb (String.eqb value) choices) eqn:He;
    [|discriminate].
  intros [= <-]. split; [reflexivity|].
  apply existsb_exists in He as (c & Hc & Heq).
  apply String.eqb_eq in Heq. now subst c.
Qed.

Lemma assertMin_Returned (name : string) (value min x : Q) :
  assertMin name value min = Returned x -> x = value /\ (min <= value)%Q.
Proof.
  unfold assertMin. destruct (Qlt_bool value min) eqn:Hlt; [discriminate|].
  intros [= <-]. split; [reflexivity|].
  destruct (Qlt_le_dec value min) as [H|H]; [|exact H].
  apply Qlt_bool_iff in H. congruence.
Qed.

Lemma keyOf_choice (v : string) :
  In v ["sm"; "md"; "lg"] -> exists k, keyOf v = Some k /\ keyName k = v.
Proof.
  cbn [In]. intros [<-|[<-|[<-|[]]]]; eexists; split; reflexivity.
Qed.

Lemma aspectOf_choice (v : string) :
  In v ["square"; "landscape"; "portrait"] ->
  exists a, aspectOf v = Some a /\ aspectName a = v.
Proof.
  cbn [In]. intros [<-|[<-|[<-|[]]]]; eexists; split; reflexivity.
Qed.

Ltac next_check H :=
  match goal with
  | |- context [bind ?c _] =>
      let x := fresh "x" in
      destruct c as [x| |] eqn:H; cbn [bind]; [|discriminate|discriminate]
  end.

Section WithNumber.

Variable Number : string -> option Q.

Lemma parseArgs_Returned (args : list string) (r : Parsed) :
  parseArgs Number args = Returned r ->
  wantsHelp args = false /\
  In (size r) ["sm"; "md"; "lg"] /\
  In (aspect r) ["square"; "landscape"; "portrait"] /\
  In (padding r) ["sm"; "md"; "lg"] /\
  (fps r = parseNumber Number (get args "--fps") 30 /\ 1 <= fps r)%Q /\
  (0 <= speed r /\ 0 <= quality r /\ 1 <= cols r /\
   0 <= pageWait r /\ 0 <= overlap r)%Q /\
  file r = find (fun a => negb (String.prefix "-" a)) args.
Proof.
  unfold parseArgs. destruct (wantsHelp args); [discriminate|].
  next_check H1. next_check H2. next_check H3. next_check H4. next_check H5.
  next_check H6. next_check H7. next_check H8. next_check H9.
  intros [= <-]. cbn [size aspect padding fps speed quality cols pageWait overlap file].
  apply assertChoice_Returned in H1 as [-> H1].
  apply assertChoice_Returned in H2 as [-> H2].
  apply assertChoice_Returned in H3 as [-> H3].
  apply assertMin_Returned in H4 as [-> H4].
  apply assertMin_Returned in H5 as [-> H5].
  apply assertMin_Returned in H6 as [-> H6].
  apply assertMin_Returned in H7 as [-> H7].
  apply assertMin_Returned in H8 as [-> H8].
  apply assertMin_Returned in H9 as [-> H9].
  repeat split; assumption.
Qed.

End WithNumber.

(** X14: whatever [Number] makes of the numerals, the object that
    [parseArgs] returns has a [size], an [aspect] and a [padding] that
    [main] finds in its tables, and numbers within the bounds that the
    theorems on [main] assume: [fps >= 1], [cols >= 1], and [speed],
    [quality], [pageWait], [overlap] not negative. *)
Theorem parseArgs_gives_valid_options (Number : string -> option Q)
        (args : list string) (r : Parsed) :
  parseArgs Number args = Returned r ->
  exists o : Options,
    resolve r = Some o /\ validOptions o /\
    keyName (Video.size o) = size r /\
    aspectName (Video.aspect o) = aspect r /\
    keyName (Video.padding o) = padding r.
Proof.
  intros H.
  destruct (parseArgs_Returned Number args r H)
    as (_ & Hs & Ha & Hp & (_ & Hf) & (H5 & H6 & H7 & H8 & H9) & _).
  destruct (keyOf_choice _ Hs) as (s & Hks & Hns).
  destruct (aspectOf_choice _ Ha) as (a & Hka & Hna).
  destruct (keyOf_choice _ Hp) as (p & Hkp & Hnp).
  unfold resolve. rewrite Hks, Hka, Hkp. eexists. split; [reflexivity|].
  unfold validOptions. cbn. repeat split; assumption.
Qed.

Lemma parseArgs_gives_valid_options_witness :
  exists o : Options,
    resolve (mkParsed (Some "a.md") "output.mp4" "#222" "#000" "#333"
                      "lg" "landscape" "md" 24 8 "Menlo" 28 80 6 4)
    = Some o /\ validOptions o /\
    keyName (Video.size o) = "lg" /\
    aspectName (Video.aspect o) = "landscape" /\
    keyName (Video.padding o) = "md".
Proof.
  exact (parseArgs_gives_valid_options readDigits
           ["--size"; "lg"; "a.md"; "--fps"; "24"] _ eq_refl).
Defined.

(** *** Looking a flag up *)

Lemma indexOf_None (args : list string) (f : string) :
  indexOf args f = None <-> ~ In f args.
Proof.
  induction args as [|a t IH]; cbn [indexOf In].
  - split; [intros _ []|reflexivity].
  - destruct (String.eqb_spec a f) as [->|Hne].
    + split; [discriminate|]. intros H. exfalso. apply H. now left.
    + destruct (indexOf t f) as [i|]; cbn [option_map].
      * split; [discriminate|]. intros H. exfalso.
        assert (Hin : ~ In f t) by (intros Hin; apply H; now right).
        apply IH in Hin. discriminate.
      * split; [|reflexivity]. intros _ [H|H]; [congruence|].
        now apply (proj1 IH).
Qed.

Lemma indexOf_Some (args : list string) (f : string) : forall i : nat,
  indexOf args f = Some i ->
  exists pre post, args = pre ++ f :: post /\ ~ In f pre /\ length pre = i.
Proof.
  induction args as [|a t IH]; intros i; cbn [indexOf]; [discriminate|].
  destruct (String.eqb_spec a f) as [->|Hne].
  - intros [= <-]. exists [], t. repeat split. intros [].
  - destruct (indexOf t f) as [j|]; cbn [option_map]; [|discriminate].
    intros [= <-]. destruct (IH j eq_refl) as (pre & post & H & Hn & Hl).
    exists (a :: pre), post. subst t. repeat split.
    + intros [H|H]; [congruence|contradiction].
    + cbn [length]. now rewrite Hl.
Qed.

Lemma indexOf_app (pre post : list string) (f : string) :
  ~ In f pre -> indexOf (pre ++ f :: post) f = Some (length pre).
Proof.
  induction pre as [|a pre IH]; intros Hn; cbn [app indexOf length].
  - now rewrite String.eqb_refl.
  - destruct (String.eqb_spec a f) as [->|Hne].
    + exfalso. apply Hn. now left.
    + rewrite IH; [reflexivity|]. intros Hin. apply Hn. now right.
Qed.

(** X15: [get] yields the argument that follows the first occurrence of
    the flag, whatever that argument is; it yields nothing when the flag
    is absent and when its first occurrence is the last argument. *)
Theorem get_follows_first_occurrence (args : list string) (f : string) :
  (forall v : string,
     get args f = Some v <->
     exists pre post, args = pre ++ f :: v :: post /\ ~ In f pre) /\
  (~ In f args -> get args f = None) /\
  (forall pre : list string,
     args = pre ++ [f] -> ~ In f pre -> get args f = None).
Proof.
  split; [|split].
  - intros v. unfold get. split.
    + destruct (indexOf args f) as [i|] eqn:Hi; [|discriminate].
      apply indexOf_Some in Hi as (pre & post & -> & Hn & <-).
      intros Hv. rewrite nth_error_app2 in Hv by lia.
      replace (length pre + 1 - length pre)%nat with 1%nat in Hv by lia.
      destruct post as [|w post]; [discriminate|]. cbn in Hv.
      injection Hv as ->. now exists pre, post.
    + intros (pre & post & -> & Hn).
      assert (Hi : indexOf (pre ++ f :: v :: post) f = Some (length pre))
        by now apply indexOf_app.
      rewrite Hi. rewrite nth_error_app2 by lia.
      replace (length pre + 1 - length pre)%nat with 1%nat by lia. reflexivity.
  - intros Hn. unfold get. apply indexOf_None in Hn. now rewrite Hn.
  - intros pre -> Hn. unfold get.
    assert (Hi : indexOf (pre ++ [f]) f = Some (length pre))
      by now apply indexOf_app.
    rewrite Hi. apply nth_error_None. rewrite length_app. cbn [length]. lia.
Qed.

Lemma get_follows_first_occurrence_witness :
  get ["--fps"; "24"; "--fps"; "60"] "--fps" = Some "24".
Proof.
  destruct (get_follows_first_occurrence ["--fps"; "24"; "--fps"; "60"] "--fps")
    as (H & _).
  apply H. exists [], ["--fps"; "60"]. split; [reflexivity|]. intros [].
Defined.

(** *** The input file *)

Lemma find_first_plain (pre post : list string) (v : string) :
  (forall a, In a pre -> String.prefix "-" a = true) ->
  String.prefix "-" v = false ->
  find (fun a => negb (String.prefix "-" a)) (pre ++ v :: post) = Some v.
Proof.
  intros Hpre Hv. induction pre as [|b pre IH]; cbn [app find].
  - now rewrite Hv.
  - rewrite (Hpre b) by now left. cbn [negb]. apply IH.
    intros a Ha. apply Hpre. now right.
Qed.

(** X16: the [file] of the returned object is the first argument that does
    not begin with "-", also when that argument is the value of a flag
    that stands before it: after "--cols 100 README.md" the file is "100". *)
Theorem file_is_first_plain_argument (Number : string -> option Q)
        (pre post : list string) (v : string) (r : Parsed) :
  (forall a, In a pre -> String.prefix "-" a = true) ->
  String.prefix "-" v = false ->
  parseArgs Number (pre ++ v :: post) = Returned r ->
  file r = Some v.
Proof.
  intros Hpre Hv H.
  destruct (parseArgs_Returned Number _ r H) as (_ & _ & _ & _ & _ & _ & Hf).
  rewrite Hf. now apply find_first_plain.
Qed.

Lemma file_is_first_plain_argument_witness :
  exists r,
    parseArgs readDigits ["--cols"; "100"; "README.md"] = Returned r /\
    file r = Some "100" /\ cols r = 100%Q.
Proof.
  eexists. split; [reflexivity|]. split; [|reflexivity].
  apply (file_is_first_plain_argument readDigits ["--cols"] ["README.md"] "100" _).
  - intros a [<-|[]]. reflexivity.
  - reflexivity.
  - reflexivity.
Defined.

(** *** No flag, wrong flags *)

Lemma get_flag_absent (args : list string) (f : string) :
  (forall a, In a args -> String.prefix "-" a = false) ->
  String.prefix "-" f = true ->
  get args f = None.
Proof.
  intros Hargs Hf. unfold get.
  assert (Hn : ~ In f args) by (intros Hin; apply Hargs in Hin; congruence).
  apply indexOf_None in Hn. now rewrite Hn.
Qed.

Lemma existsb_absent (args : list string) (f : string) :
  (forall a, In a args -> String.prefix "-" a = false) ->
  String.prefix "-" f = true ->
  existsb (String.eqb f) args = false.
Proof.
  intros Hargs Hf. destruct (existsb (String.eqb f) args) eqn:He; [|reflexivity].
  apply existsb_exists in He as (a & Ha & Heq). apply String.eqb_eq in Heq.
  subst a. apply Hargs in Ha. congruence.
Qed.

(** X17: when no argument begins with "-", [parseArgs] returns, whatever
    [Number] is: the file is the first argument (none if there is none) and
    the options are those of [DEFAULTS]. *)
Theorem no_flag_gives_defaults (Number : string -> option Q) (args : list string) :
  (forall a, In a args -> String.prefix "-" a = false) ->
  exists r,
    parseArgs Number args = Returned r /\
    file r = hd_error args /\
    resolve r = Some DEFAULTS.
Proof.
  intros Hargs. unfold parseArgs, wantsHelp.
  rewrite !(existsb_absent args) by (exact Hargs || reflexivity).
  cbn [orb].
  rewrite !(get_flag_absent args) by (exact Hargs || reflexivity).
  cbn. eexists. split; [reflexivity|]. split; [|reflexivity].
  cbn [file]. destruct args as [|a t]; [reflexivity|].
  cbn [find hd_error]. now rewrite (Hargs a) by now left.
Qed.

Lemma no_flag_gives_defaults_witness :
  exists r,
    parseArgs readDigits ["README.md"] = Returned r /\
    file r = Some "README.md" /\
    resolve r = Some DEFAULTS.
Proof.
  apply (no_flag_gives_defaults readDigits ["README.md"]).
  intros a [<-|[]]. reflexivity.
Defined.

(** X18: a help flag anywhere ends [parseArgs] through exit code 0 before
    any check; without one, a "--size" value outside sm, md, lg is thrown
    as the first error whatever the other arguments; and a numeral that
    [Number] does not read as a finite number is no error: the default
    30 stands for "--fps". *)
Theorem parseArgs_errors (Number : string -> option Q) (args : list string) :
  (In "-h" args \/ In "--help" args -> parseArgs Number args = Exited 0) /\
  (forall v : string,
     wantsHelp args = false ->
     get args "--size" = Some v ->
     v <> "" -> ~ In v ["sm"; "md"; "lg"] ->
     parseArgs Number args
     = Thrown (InvalidChoice "size" v ["sm"; "md"; "lg"])) /\
  (forall (v : string) (r : Parsed),
     get args "--fps" = Some v ->
     Number v = None ->
     parseArgs Number args = Returned r ->
     fps r = 30%Q).
Proof.
  split; [|split].
  - intros H. unfold parseArgs, wantsHelp.
    assert (Hh : existsb (String.eqb "-h") args
                 || existsb (String.eqb "--help") args = true).
    { apply orb_true_iff. destruct H as [H|H]; [left|right];
        apply existsb_exists; eexists; (split; [exact H|apply String.eqb_refl]). }
    now rewrite Hh.
  - intros v Hh Hg Hv Hn. unfold parseArgs. rewrite Hh, Hg. cbn [orElse].
    apply String.eqb_neq in Hv. rewrite Hv.
    unfold assertChoice at 1.
    destruct (existsb (String.eqb v) ["sm"; "md"; "lg"]) eqn:He; [|reflexivity].
    exfalso. apply Hn. apply existsb_exists in He as (c & Hc & Heq).
    apply String.eqb_eq in Heq. now subst c.
  - intros v r Hg Hnum H.
    destruct (parseArgs_Returned Number args r H) as (_ & _ & _ & _ & (Hf & _) & _).
    rewrite Hf, Hg. cbn [parseNumber]. now rewrite Hnum.
Qed.

Lemma parseArgs_errors_witness :
  parseArgs readDigits ["a.md"; "--size"; "xl"]
  = Thrown (InvalidChoice "size" "xl" ["sm"; "md"; "lg"]).
Proof.
  destruct (parseArgs_errors readDigits ["a.md"; "--size"; "xl"]) as (_ & H & _).
  apply H; [reflexivity|reflexivity|discriminate|].
  cbn [In]. intros [H1|[H1|[H1|[]]]]; discriminate.
Defined.

(** *** index.ts *)

Lemma find_without_video (args : list string) :
  find (fun a => negb (String.prefix "-" a))
       (filter (fun a => negb (String.eqb a "--video")) args)
  = find (fun a => negb (String.prefix "-" a)) args.
Proof.
  induction args as [|a t IH]; [reflexivity|]. cbn [filter find].
  destruct (String.eqb_spec a "--video") as [->|Hne]; cbn [negb].
  - cbn. exact IH.
  - cbn [find]. now rewrite IH.
Qed.

Lemma wantsHelp_without_video (args : list string) :
  wantsHelp (filter (fun a => negb (String.eqb a "--video")) args)
  = wantsHelp args.
Proof.
  unfold wantsHelp. f_equal;
    (induction args as [|a t IH]; [reflexivity|]; cbn [filter existsb];
     destruct (String.eqb_spec a "--video") as [->|Hne]; cbn [negb existsb];
     [exact IH|now rewrite IH]).
Qed.

Lemma get_at (pre post : list string) (f v : string) :
  ~ In f pre -> get (pre ++ f :: v :: post) f = Some v.
Proof.
  intros Hn. unfold get. rewrite indexOf_app by exact Hn.
  rewrite nth_error_app2 by lia.
  now replace (length pre + 1 - length pre)%nat with 1%nat by lia.
Qed.

Lemma filter_keeps (x a : string) (l : list string) :
  a <> x ->
  filter (fun b => negb (String.eqb b x)) (a :: l)
  = a :: filter (fun b => negb (String.eqb b x)) l.
Proof.
  intros Ha. cbn [filter]. apply String.eqb_neq in Ha. now rewrite Ha.
Qed.

Lemma count_occ_without (x a : string) (l : list string) :
  a <> x ->
  count_occ string_dec (filter (fun b => negb (String.eqb b x)) l) a
  = count_occ string_dec l a.
Proof.
  intros Ha. induction l as [|b t IH]; [reflexivity|]. cbn [filter].
  destruct (String.eqb_spec b x) as [->|Hne]; cbn [negb].
  - rewrite IH. symmetry. apply count_occ_cons_neq. congruence.
  - cbn [count_occ]. destruct (string_dec b a); now rewrite IH.
Qed.

(** X19: with "--video" among the arguments and no help flag, index.ts
    hands video.ts the command line with every "--video" left out and the
    other arguments as they are: each as often as before, any two of them
    in the order they had, so that a flag which is not followed by
    "--video" is still followed by the same argument.  [parseArgs] there
    does not leave for help, and the file it finds is the first argument
    not beginning with "-" of the original command line, the one that
    index.ts would render without "--video". *)
Theorem video_mode_keeps_the_file (Number : string -> option Q)
        (args : list string) :
  wantsHelp args = false ->
  In "--video" args ->
  exists argv,
    index args = RunVideo argv /\
    argv = filter (fun a => negb (String.eqb a "--video")) args /\
    ~ In "--video" argv /\
    (forall a, a <> "--video" ->
               count_occ string_dec argv a = count_occ string_dec args a) /\
    (forall l1 a l2 b l3,
       args = l1 ++ a :: l2 ++ b :: l3 -> a <> "--video" -> b <> "--video" ->
       exists m1 m2 m3, argv = m1 ++ a :: m2 ++ b :: m3) /\
    (forall pre f v post,
       args = pre ++ f :: v :: post -> ~ In f pre ->
       f <> "--video" -> v <> "--video" ->
       get argv f = Some v) /\
    parseArgs Number argv <> Exited 0 /\
    (forall r, parseArgs Number argv = Returned r ->
               file r = find (fun a => negb (String.prefix "-" a)) args).
Proof.
  intros Hh Hv.
  exists (filter (fun a => negb (String.eqb a "--video")) args).
  split.
  { unfold index. rewrite Hh.
    assert (He : existsb (String.eqb "--video") args = true)
      by (apply existsb_exists; exists "--video"; split;
          [exact Hv|apply String.eqb_refl]).
    now rewrite He. }
  split; [reflexivity|].
  split.
  { intros Hin. apply filter_In in Hin as [_ Hin].
    now rewrite String.eqb_refl in Hin. }
  split; [intros a Ha; now apply count_occ_without|].
  split.
  { intros l1 a l2 b l3 -> Ha Hb.
    exists (filter (fun a => negb (String.eqb a "--video")) l1),
           (filter (fun a => negb (String.eqb a "--video")) l2),
           (filter (fun a => negb (String.eqb a "--video")) l3).
    rewrite filter_app, (filter_keeps _ a) by exact Ha.
    now rewrite filter_app, (filter_keeps _ b) by exact Hb. }
  split.
  { intros pre f v post -> Hn Hf Hv'.
    rewrite filter_app, (filter_keeps _ f), (filter_keeps _ v) by assumption.
    apply get_at. intros Hin. apply filter_In in Hin as [Hin _]. contradiction. }
  split.
  { unfold parseArgs. rewrite wantsHelp_without_video, Hh.
    unfold assertChoice, assertMin.
    repeat match goal with
           | |- context [bind (if ?b then _ else _) _] =>
               destruct b; cbn [bind]
           end; discriminate. }
  intros r Hr.
  destruct (parseArgs_Returned Number _ r Hr) as (_ & _ & _ & _ & _ & _ & Hf).
  rewrite Hf. apply find_without_video.
Qed.

Lemma video_mode_keeps_the_file_witness :
  exists argv,
    index ["a.md"; "--video"; "-o"; "b.mp4"] = RunVideo argv /\
    argv = ["a.md"; "-o"; "b.mp4"] /\
    get argv "-o" = Some "b.mp4" /\
    parseArgs readDigits argv <> Exited 0 /\
    (forall r, parseArgs readDigits argv = Returned r ->
               file r = Some "a.md").
Proof.
  destruct (video_mode_keeps_the_file readDigits ["a.md"; "--video"; "-o"; "b.mp4"])
    as (argv & Hi & Ha & _ & _ & _ & Hg & He & Hf).
  - reflexivity.
  - cbn [In]. tauto.
  - exists argv. split; [exact Hi|]. split; [exact Ha|].
    split; [|split; [exact He|exact Hf]].
    apply (Hg ["a.md"; "--video"] "-o" "b.mp4" []); [reflexivity| |discriminate ..].
    cbn [In]. intros [H|[H|[]]]; discriminate.
Defined.

End CliFacts.

(** ** Properties of the double-precision arithmetic *)

Module Binary64Facts.

Import Binary64.
Local Open Scope Q_scope.

(** *** Powers of two *)

Lemma two_neq_0 : ~ 2 == 0.
Proof. discriminate. Qed.

Lemma pow2_pos (e : Z) : 0 < pow2 e.
Proof. apply Qpower_0_lt. reflexivity. Qed.

Lemma pow2_add (a b : Z) : pow2 (a + b) == pow2 a * pow2 b.
Proof. apply Qpower_plus, two_neq_0. Qed.

Lemma pow2_le (a b : Z) : (a <= b)%Z -> pow2 a <= pow2 b.
Proof. intros H. apply Qpower_le_compat_l; [exact H|discriminate]. Qed.

Lemma pow2_lt_inv (a b : Z) : pow2 a < pow2 b -> (a < b)%Z.
Proof. intros H. apply (Qpower_lt_compat_l_inv 2); [exact H|reflexivity]. Qed.

Lemma pow2_Z (n : Z) : (0 <= n)%Z -> pow2 n == inject_Z (2 ^ n).
Proof. intros H. unfold pow2. now rewrite Zpower_Qpower. Qed.

Lemma pow2_split (a b : Z) : pow2 a == pow2 (a - b) * pow2 b.
Proof. rewrite <- pow2_add. now replace (a - b + b)%Z with a by lia. Qed.

(** *** The binade of a positive rational *)

Lemma binade_spec (x : Q) :
  0 < x -> pow2 (binade x) <= x /\ x < pow2 (binade x + 1).
Proof.
  intros Hx. destruct x as [n d].
  assert (Hn : (0 < n)%Z) by (unfold Qlt in Hx; simpl in Hx; lia).
  unfold binade. cbn [Qnum Qden].
  set (a := Z.log2 n). set (b := Z.log2 (Zpos d)).
  destruct (Z.log2_spec n Hn) as [Ha1 Ha2]. fold a in Ha1, Ha2.
  destruct (Z.log2_spec (Zpos d) ltac:(lia)) as [Hb1 Hb2]. fold b in Hb1, Hb2.
  assert (Ha0 : (0 <= a)%Z) by apply Z.log2_nonneg.
  assert (Hb0 : (0 <= b)%Z) by apply Z.log2_nonneg.
  assert (HnQ : pow2 a <= inject_Z n /\ inject_Z n < pow2 (a + 1)).
  { rewrite !pow2_Z by lia. rewrite <- Zle_Qle, <- Zlt_Qlt.
    split; [exact Ha1|]. now replace (a + 1)%Z with (Z.succ a) by lia. }
  assert (HdQ : pow2 b <= inject_Z (Zpos d) /\ inject_Z (Zpos d) < pow2 (b + 1)).
  { rewrite !pow2_Z by lia. rewrite <- Zle_Qle, <- Zlt_Qlt.
    split; [exact Hb1|]. now replace (b + 1)%Z with (Z.succ b) by lia. }
  assert (Hd : 0 < inject_Z (Zpos d)) by reflexivity.
  assert (Hxd : n # d == inject_Z n / inject_Z (Zpos d)) by apply Qmake_Qdiv.
  set (k := (a - b)%Z).
  assert (Hlo : pow2 (k - 1) <= n # d).
  { rewrite Hxd. apply Qle_shift_div_l; [exact Hd|].
    assert (Hs := pow2_split a (b + 1)).
    replace (a - (b + 1))%Z with (k - 1)%Z in Hs by (unfold k; lia).
    assert (Hp := pow2_pos (k - 1)).
    assert (Hm : pow2 (k - 1) * inject_Z (Zpos d) <= pow2 (k - 1) * pow2 (b + 1))
      by (apply Qmult_le_l; [exact Hp|lra]).
    lra. }
  assert (Hhi : n # d < pow2 (k + 1)).
  { rewrite Hxd. apply Qlt_shift_div_r; [exact Hd|].
    assert (Hs := pow2_split (a + 1) b).
    replace (a + 1 - b)%Z with (k + 1)%Z in Hs by (unfold k; lia).
    assert (Hp := pow2_pos (k + 1)).
    assert (Hm : pow2 (k + 1) * pow2 b <= pow2 (k + 1) * inject_Z (Zpos d))
      by (apply Qmult_le_l; [exact Hp|lra]).
    lra. }
  destruct (Qle_bool (pow2 k) (n # d)) eqn:Hk.
  - apply Qle_bool_iff in Hk. split; assumption.
  - replace (k - 1 + 1)%Z with k by lia. split; [exact Hlo|].
    apply Qnot_le_lt. intros Hle. apply Qle_bool_iff in Hle. congruence.
Qed.

Lemma binade_unique (x : Q) (k : Z) :
  pow2 k <= x -> x < pow2 (k + 1) -> binade x = k.
Proof.
  intros Hlo Hhi.
  assert (Hx : 0 < x) by (assert (H := pow2_pos k); lra).
  destruct (binade_spec x Hx) as [Blo Bhi].
  assert (H1 : (k < binade x + 1)%Z) by (apply pow2_lt_inv; lra).
  assert (H2 : (binade x < k + 1)%Z) by (apply pow2_lt_inv; lra).
  lia.
Qed.

Lemma binade_comp (x y : Q) : 0 < x -> x == y -> binade x = binade y.
Proof.
  intros Hx Hxy. destruct (binade_spec x Hx) as [Blo Bhi].
  symmetry. apply binade_unique; rewrite <- Hxy; assumption.
Qed.

Lemma binade_mono (x y : Q) : 0 < x -> x <= y -> (binade x <= binade y)%Z.
Proof.
  intros Hx Hxy.
  destruct (binade_spec x Hx) as [Blo _].
  destruct (binade_spec y ltac:(lra)) as [_ Bhi].
  assert (H : (binade x < binade y + 1)%Z) by (apply pow2_lt_inv; lra).
  lia.
Qed.

(** *** Nearest integer, ties to even *)

Lemma nearestEven_comp (x y : Q) : x == y -> nearestEven x = nearestEven y.
Proof.
  intros Hxy. unfold nearestEven. rewrite (Qfloor_comp _ _ Hxy).
  assert (H : x - inject_Z (Qfloor y) == y - inject_Z (Qfloor y)) by (rewrite Hxy; reflexivity).
  now rewrite (Qcompare_comp _ _ H _ _ (Qeq_refl (1 # 2))).
Qed.

Lemma nearestEven_bounds (x : Q) :
  (Qfloor x <= nearestEven x <= Qfloor x + 1)%Z.
Proof.
  unfold nearestEven.
  destruct (Qcompare (x - inject_Z (Qfloor x)) (1 # 2)); [|lia|lia].
  destruct (Z.even (Qfloor x)); lia.
Qed.

Lemma nearestEven_Z (z : Z) : nearestEven (inject_Z z) = z.
Proof.
  unfold nearestEven. rewrite Qfloor_Z.
  assert (H : inject_Z z - inject_Z z == 0) by ring.
  now rewrite (Qcompare_comp _ _ H _ _ (Qeq_refl (1 # 2))).
Qed.

Lemma nearestEven_mono (x y : Q) : x <= y -> (nearestEven x <= nearestEven y)%Z.
Proof.
  intros Hxy.
  assert (Hf := Qfloor_resp_le x y Hxy).
  assert (Bx := nearestEven_bounds x). assert (By := nearestEven_bounds y).
  destruct (Z_lt_le_dec (Qfloor x) (Qfloor y)) as [Hlt|Hge]; [lia|].
  assert (Heq : Qfloor y = Qfloor x) by lia.
  unfold nearestEven. rewrite Heq.
  destruct (Qcompare_spec (x - inject_Z (Qfloor x)) (1 # 2)) as [Hx|Hx|Hx];
    destruct (Qcompare_spec (y - inject_Z (Qfloor x)) (1 # 2)) as [Hy|Hy|Hy];
    try lia; try lra; destruct (Z.even (Qfloor x)); lia.
Qed.

Lemma nearestEven_le (x : Q) (z : Z) : x <= inject_Z z -> (nearestEven x <= z)%Z.
Proof. intros H. rewrite <- (nearestEven_Z z). now apply nearestEven_mono. Qed.

Lemma nearestEven_ge (x : Q) (z : Z) : inject_Z z <= x -> (z <= nearestEven x)%Z.
Proof. intros H. rewrite <- (nearestEven_Z z). now apply nearestEven_mono. Qed.

(** *** Rounding to the multiples of a power of two *)

Lemma scaled_le (e : Z) (x y : Q) : x <= y -> x / pow2 e <= y / pow2 e.
Proof.
  intros H. assert (Hp := pow2_pos e). unfold Qdiv.
  apply Qmult_le_compat_r; [exact H|]. apply Qinv_le_0_compat. lra.
Qed.

Lemma scaled_multiple (e z : Z) : inject_Z z * pow2 e / pow2 e == inject_Z z.
Proof. assert (Hp := pow2_pos e). field. lra. Qed.

Lemma toGrid_comp (e : Z) (x y : Q) : x == y -> toGrid e x == toGrid e y.
Proof.
  intros Hxy. unfold toGrid.
  assert (H : x / pow2 e == y / pow2 e) by (rewrite Hxy; reflexivity).
  now rewrite (nearestEven_comp _ _ H).
Qed.

Lemma toGrid_mono (e : Z) (x y : Q) : x <= y -> toGrid e x <= toGrid e y.
Proof.
  intros Hxy. unfold toGrid. assert (Hp := pow2_pos e).
  apply Qmult_le_compat_r; [|lra]. rewrite <- Zle_Qle.
  apply nearestEven_mono. now apply scaled_le.
Qed.

Lemma toGrid_multiple (e z : Z) : toGrid e (inject_Z z * pow2 e) == inject_Z z * pow2 e.
Proof.
  unfold toGrid. now rewrite (nearestEven_comp _ _ (scaled_multiple e z)), nearestEven_Z.
Qed.

Lemma toGrid_le (e z : Z) (x : Q) :
  x <= inject_Z z * pow2 e -> toGrid e x <= inject_Z z * pow2 e.
Proof. intros H. rewrite <- toGrid_multiple. now apply toGrid_mono. Qed.

Lemma toGrid_ge (e z : Z) (x : Q) :
  inject_Z z * pow2 e <= x -> inject_Z z * pow2 e <= toGrid e x.
Proof. intros H. rewrite <- toGrid_multiple. now apply toGrid_mono. Qed.

(** A power of two is a multiple of every smaller one. *)
Lemma pow2_multiple (a e : Z) :
  (e <= a)%Z -> pow2 a == inject_Z (2 ^ (a - e)) * pow2 e.
Proof.
  intros H. rewrite <- pow2_Z by lia. apply pow2_split.
Qed.

(** *** Rounding a number that is not negative *)

Lemma toGrid_0 (e : Z) (x : Q) : x == 0 -> toGrid e x == 0.
Proof.
  intros Hx. rewrite (toGrid_comp e x (inject_Z 0 * pow2 e)).
  - rewrite toGrid_multiple. ring.
  - rewrite Hx. ring.
Qed.

Lemma roundPos_nonneg (x : Q) : 0 <= x -> 0 <= roundPos x.
Proof.
  intros Hx. unfold roundPos.
  assert (H := toGrid_ge (lastPlace x) 0 x).
  assert (Hz : inject_Z 0 * pow2 (lastPlace x) == 0) by ring.
  rewrite Hz in H. apply H. exact Hx.
Qed.

Lemma lastPlace_comp (x y : Q) : 0 < x -> x == y -> lastPlace x = lastPlace y.
Proof. intros Hx Hxy. unfold lastPlace. now rewrite (binade_comp x y Hx Hxy). Qed.

Lemma roundPos_comp (x y : Q) : 0 <= x -> x == y -> roundPos x == roundPos y.
Proof.
  intros Hx Hxy. unfold roundPos.
  destruct (Qlt_le_dec 0 x) as [Hpos|Hle].
  - rewrite (lastPlace_comp x y Hpos Hxy). now apply toGrid_comp.
  - assert (H0 : x == 0) by lra.
    rewrite (toGrid_0 _ x H0), (toGrid_0 _ y); [reflexivity|]. now rewrite <- Hxy.
Qed.

Lemma lastPlace_le_binade (x : Q) :
  (-1074 < lastPlace x)%Z -> (lastPlace x = binade x - 52)%Z.
Proof. unfold lastPlace. lia. Qed.

Lemma roundPos_mono (x y : Q) : 0 <= x -> x <= y -> roundPos x <= roundPos y.
Proof.
  intros Hx Hxy.
  destruct (Qlt_le_dec 0 x) as [Hpos|Hle].
  - assert (Hb := binade_mono x y Hpos Hxy).
    destruct (binade_spec x Hpos) as [_ Xhi].
    destruct (binade_spec y ltac:(lra)) as [Ylo _].
    destruct (Z.eq_dec (lastPlace x) (lastPlace y)) as [He|Hne].
    + unfold roundPos. rewrite He. now apply toGrid_mono.
    + assert (Hlt : (lastPlace x < lastPlace y)%Z) by (unfold lastPlace in *; lia).
      assert (Hey : lastPlace y = (binade y - 52)%Z)
        by (apply lastPlace_le_binade; unfold lastPlace in *; lia).
      assert (Hbb : (binade x + 1 <= binade y)%Z) by (unfold lastPlace in *; lia).
      assert (Hmid := pow2_le _ _ Hbb).
      apply Qle_trans with (pow2 (binade y)).
      * unfold roundPos. rewrite (pow2_multiple (binade y) (lastPlace x)) by lia.
        apply toGrid_le. rewrite <- pow2_multiple by lia. lra.
      * unfold roundPos. rewrite (pow2_multiple (binade y) (lastPlace y)) by lia.
        apply toGrid_ge. rewrite <- pow2_multiple by lia. lra.
  - assert (H0 : x == 0) by lra.
    unfold roundPos at 1. rewrite (toGrid_0 _ x H0). apply roundPos_nonneg. lra.
Qed.

Lemma roundPos_exact (x : Q) : 0 <= x -> representable x -> roundPos x == x.
Proof.
  intros Hx (m & e & Hm & He & Hxm).
  destruct (Qlt_le_dec 0 x) as [Hpos|Hle].
  2:{ unfold roundPos. rewrite toGrid_0; lra. }
  assert (Hpe := pow2_pos e).
  destruct (binade_spec x Hpos) as [Blo Bhi].
  assert (Hle : (lastPlace x <= e)%Z).
  { destruct (Z_le_gt_dec (lastPlace x) e) as [H|H]; [exact H|exfalso].
    assert (Hl : lastPlace x = (binade x - 52)%Z)
      by (apply lastPlace_le_binade; lia).
    assert (Hm' : inject_Z m < pow2 53).
    { rewrite pow2_Z by lia. rewrite <- Zlt_Qlt. lia. }
    assert (Hx53 : inject_Z m * pow2 e < pow2 53 * pow2 e)
      by (apply Qmult_lt_compat_r; assumption).
    assert (Hs := pow2_add 53 e).
    assert (Hb : (binade x < 53 + e)%Z) by (apply pow2_lt_inv; lra).
    lia. }
  assert (Hmul : x == inject_Z (m * 2 ^ (e - lastPlace x)) * pow2 (lastPlace x)).
  { assert (Hp := pow2_multiple e (lastPlace x) Hle).
    set (l := lastPlace x) in *. rewrite inject_Z_mult, Hxm, Hp. ring. }
  unfold roundPos. rewrite (toGrid_comp _ _ _ Hmul), toGrid_multiple.
  symmetry. exact Hmul.
Qed.

(** *** binary64 *)

Lemma binary64_unfold (x : Q) :
  binary64 x == if Qle_bool 0 x then roundPos x else - roundPos (- x).
Proof. unfold binary64. apply Qred_correct. Qed.

Lemma binary64_pos (x : Q) : 0 <= x -> binary64 x == roundPos x.
Proof.
  intros Hx. rewrite binary64_unfold.
  apply Qle_bool_iff in Hx. now rewrite Hx.
Qed.

Lemma binary64_neg (x : Q) : x < 0 -> binary64 x == - roundPos (- x).
Proof.
  intros Hx. rewrite binary64_unfold.
  destruct (Qle_bool 0 x) eqn:H; [|reflexivity].
  apply Qle_bool_iff in H. lra.
Qed.

#[global] Instance binary64_comp : Proper (Qeq ==> Qeq) binary64.
Proof.
  intros x y Hxy. destruct (Qlt_le_dec x 0) as [Hneg|Hpos].
  - rewrite (binary64_neg x Hneg), (binary64_neg y) by lra.
    apply Qopp_comp. apply roundPos_comp; [lra|now rewrite Hxy].
  - rewrite (binary64_pos x Hpos), (binary64_pos y) by lra.
    now apply roundPos_comp.
Qed.

Theorem binary64_mono (x y : Q) : x <= y -> binary64 x <= binary64 y.
Proof.
  intros Hxy. destruct (Qlt_le_dec x 0) as [Hx|Hx]; destruct (Qlt_le_dec y 0) as [Hy|Hy].
  - rewrite (binary64_neg x Hx), (binary64_neg y Hy).
    assert (H := roundPos_mono (- y) (- x) ltac:(lra) ltac:(lra)). lra.
  - rewrite (binary64_neg x Hx), (binary64_pos y Hy).
    assert (H1 := roundPos_nonneg (- x) ltac:(lra)).
    assert (H2 := roundPos_nonneg y Hy). lra.
  - lra.
  - rewrite (binary64_pos x Hx), (binary64_pos y Hy). now apply roundPos_mono.
Qed.

Lemma representable_opp (x : Q) : representable x -> representable (- x).
Proof.
  intros (m & e & Hm & He & Hx). exists (- m)%Z, e.
  split; [now rewrite Z.abs_opp|]. split; [exact He|].
  rewrite Hx, inject_Z_opp. ring.
Qed.

Theorem binary64_exact (x : Q) : representable x -> binary64 x == x.
Proof.
  intros Hr. destruct (Qlt_le_dec x 0) as [Hx|Hx].
  - rewrite (binary64_neg x Hx), roundPos_exact; [ring|lra|].
    now apply representable_opp.
  - rewrite (binary64_pos x Hx). now apply roundPos_exact.
Qed.

Lemma representable_Z (z : Z) : (Z.abs z < 2 ^ 53)%Z -> representable (inject_Z z).
Proof.
  intros Hz. exists z, 0%Z. split; [exact Hz|]. split; [lia|].
  unfold pow2. simpl. ring.
Qed.

(** A multiple of [2^-j] below [2^53 * 2^-j]. *)
Lemma representable_dyadic (m j : Z) :
  (Z.abs m < 2 ^ 53)%Z -> (0 <= j <= 1074)%Z ->
  representable (inject_Z m / inject_Z (2 ^ j)).
Proof.
  intros Hm Hj. exists m, (- j)%Z. split; [exact Hm|]. split; [lia|].
  unfold pow2. rewrite Qpower_opp. fold (pow2 j). rewrite pow2_Z by lia.
  reflexivity.
Qed.

Lemma binary64_Z (z : Z) :
  (Z.abs z < 2 ^ 53)%Z -> binary64 (inject_Z z) == inject_Z z.
Proof. intros Hz. apply binary64_exact. now apply representable_Z. Qed.

Lemma binary64_0 : binary64 0 == 0.
Proof. reflexivity. Qed.

Lemma binary64_nonneg (x : Q) : 0 <= x -> 0 <= binary64 x.
Proof. intros H. rewrite <- binary64_0. now apply binary64_mono. Qed.

(** *** The result is a double, and no double is nearer *)

Lemma nearestEven_nearest (x : Q) (z : Z) :
  Qabs (inject_Z (nearestEven x) - x) <= Qabs (inject_Z z - x).
Proof.
  assert (Hf := Qfloor_le x). assert (Hc := Qlt_floor x).
  rewrite inject_Z_plus in Hc. change (inject_Z 1) with 1 in Hc.
  set (n := Qfloor x) in *.
  assert (Hz : inject_Z z <= inject_Z n \/ inject_Z n + 1 <= inject_Z z).
  { destruct (Z_le_gt_dec z n) as [H|H]; [left; now rewrite <- Zle_Qle|right].
    change (inject_Z n + 1) with (inject_Z n + inject_Z 1).
    rewrite <- inject_Z_plus, <- Zle_Qle. lia. }
  assert (Hn : inject_Z (nearestEven x) == inject_Z n /\ x - inject_Z n <= 1 # 2
               \/ inject_Z (nearestEven x) == inject_Z n + 1 /\ 1 # 2 <= x - inject_Z n).
  { unfold nearestEven. fold n.
    destruct (Qcompare_spec (x - inject_Z n) (1 # 2)) as [H|H|H].
    - destruct (Z.even n); [left|right]; split;
        try reflexivity; try lra.
      rewrite inject_Z_plus. reflexivity.
    - left. split; [reflexivity|lra].
    - right. split; [rewrite inject_Z_plus; reflexivity|lra]. }
  apply Qabs_case; intros H1; apply Qabs_case; intros H2;
    destruct Hn as [[Hn Hh]|[Hn Hh]]; destruct Hz as [Hz|Hz]; lra.
Qed.

Lemma toGrid_nearest (e z : Z) (x : Q) :
  Qabs (toGrid e x - x) <= Qabs (inject_Z z * pow2 e - x).
Proof.
  assert (Hp := pow2_pos e). unfold toGrid.
  assert (H := nearestEven_nearest (x / pow2 e) z).
  set (N := nearestEven (x / pow2 e)) in *.
  assert (E1 : inject_Z N * pow2 e - x == (inject_Z N - x / pow2 e) * pow2 e)
    by (field; lra).
  assert (E2 : inject_Z z * pow2 e - x == (inject_Z z - x / pow2 e) * pow2 e)
    by (field; lra).
  rewrite E1, E2, !Qabs_Qmult, (Qabs_pos (pow2 e)) by lra.
  apply Qmult_le_compat_r; [exact H|lra].
Qed.

Lemma representable_multiple (x : Q) (f : Q) :
  0 < x -> representable f ->
  (exists z : Z, f == inject_Z z * pow2 (lastPlace x)) \/
  (Qabs f < pow2 (binade x) /\ lastPlace x = (binade x - 52)%Z).
Proof.
  intros Hx (m & e & Hm & He & Hf).
  destruct (Z_le_gt_dec (lastPlace x) e) as [Hle|Hgt].
  - left. exists (m * 2 ^ (e - lastPlace x))%Z.
    rewrite Hf, inject_Z_mult, (pow2_multiple e (lastPlace x) Hle). ring.
  - right. assert (Hl : lastPlace x = (binade x - 52)%Z)
      by (apply lastPlace_le_binade; lia).
    split; [|exact Hl].
    assert (Hpe := pow2_pos e).
    assert (Hm' : Qabs (inject_Z m) < pow2 53).
    { rewrite pow2_Z by lia.
      assert (Ha : Qabs (inject_Z m) == inject_Z (Z.abs m)) by reflexivity.
      rewrite Ha, <- Zlt_Qlt. exact Hm. }
    rewrite Hf, Qabs_Qmult, (Qabs_pos (pow2 e)) by lra.
    apply Qlt_le_trans with (pow2 53 * pow2 e).
    + apply Qmult_lt_compat_r; assumption.
    + rewrite <- pow2_add. apply pow2_le. lia.
Qed.

Lemma roundPos_nearest (x f : Q) :
  0 <= x -> representable f -> Qabs (roundPos x - x) <= Qabs (f - x).
Proof.
  intros Hx Hf.
  destruct (Qlt_le_dec 0 x) as [Hpos|Hle].
  2:{ unfold roundPos. rewrite (toGrid_0 _ x) by lra.
      assert (H0 : 0 - x == 0) by lra. rewrite H0. apply Qabs_nonneg. }
  destruct (representable_multiple x f Hpos Hf) as [[z Hz]|[Hsmall Hl]].
  - unfold roundPos. rewrite Hz. apply toGrid_nearest.
  - destruct (binade_spec x Hpos) as [Blo _].
    apply Qle_trans with (Qabs (pow2 (binade x) - x)).
    + unfold roundPos.
      rewrite (pow2_multiple (binade x) (lastPlace x)) by lia.
      apply toGrid_nearest.
    + revert Hsmall. apply Qabs_case; intros H1; apply Qabs_case; intros H2;
        apply Qabs_case; intros H3; lra.
Qed.

Theorem binary64_nearest (x f : Q) :
  representable f -> Qabs (binary64 x - x) <= Qabs (f - x).
Proof.
  intros Hf. destruct (Qlt_le_dec x 0) as [Hx|Hx].
  - rewrite (binary64_neg x Hx).
    assert (H := roundPos_nearest (- x) (- f) ltac:(lra) (representable_opp f Hf)).
    assert (E1 : - roundPos (- x) - x == - (roundPos (- x) - - x)) by ring.
    assert (E2 : f - x == - (- f - - x)) by ring.
    now rewrite E1, E2, !Qabs_opp.
  - rewrite (binary64_pos x Hx). now apply roundPos_nearest.
Qed.

Lemma roundPos_representable (x : Q) : 0 <= x -> representable (roundPos x).
Proof.
  intros Hx. destruct (Qlt_le_dec 0 x) as [Hpos|Hle].
  2:{ exists 0%Z, 0%Z. split; [reflexivity|]. split; [lia|].
      unfold roundPos. rewrite toGrid_0 by lra. ring. }
  destruct (binade_spec x Hpos) as [_ Bhi].
  assert (Hp := pow2_pos (lastPlace x)).
  set (e := lastPlace x) in *.
  set (N := nearestEven (x / pow2 e)).
  assert (He : (binade x - 52 <= e)%Z /\ (-1074 <= e)%Z) by (unfold e, lastPlace; lia).
  assert (HN0 : (0 <= N)%Z).
  { apply nearestEven_ge. change (inject_Z 0) with 0.
    apply Qle_shift_div_l; [exact Hp|]. lra. }
  assert (HN : (N <= 2 ^ 53)%Z).
  { apply nearestEven_le. apply Qle_shift_div_r; [exact Hp|].
    rewrite <- pow2_Z, <- pow2_add by lia.
    assert (H := pow2_le (binade x + 1) (53 + e) ltac:(lia)). lra. }
  destruct (Z.eq_dec N (2 ^ 53)) as [Heq|Hne].
  - exists (2 ^ 52)%Z, (e + 1)%Z. split; [reflexivity|]. split; [lia|].
    unfold roundPos, toGrid. fold e N. rewrite Heq, pow2_add.
    change (pow2 1) with 2. change (inject_Z (2 ^ 53)) with (inject_Z (2 ^ 52) * 2).
    ring.
  - exists N, e. split; [lia|]. split; [lia|]. reflexivity.
Qed.

Theorem binary64_representable (x : Q) : representable (binary64 x).
Proof.
  destruct (Qlt_le_dec x 0) as [Hx|Hx].
  - destruct (representable_opp _ (roundPos_representable (- x) ltac:(lra)))
      as (m & e & Hm & He & Hv).
    exists m, e. split; [exact Hm|]. split; [exact He|].
    now rewrite (binary64_neg x Hx).
  - destruct (roundPos_representable x Hx) as (m & e & Hm & He & Hv).
    exists m, e. split; [exact Hm|]. split; [exact He|].
    now rewrite (binary64_pos x Hx).
Qed.

(** *** Agreement with the specification of the Standard Library *)

(** On sample computations the rounding is that of [SpecFloat]: the literal
    0.35 and the product 10 * 0.35, a tie that goes to the even neighbour
    3.5; for the literal 0.01, the page height 558 - 20 * 0.01, the quotient
    11156 / pageHeight and the sum 19 * pageHeight + pageHeight. *)
Lemma binary64_as_SpecFloat :
  let lit a b := SpecFloat.SFdiv 53 1024 (ofWhole a) (ofWhole b) in
  let ph := SpecFloat.SFsub 53 1024 (ofWhole 558)
              (SpecFloat.SFmul 53 1024 (ofWhole 20) (lit 1 100)%Z) in
  let ph' := fsub 558 (fmul 20 (binary64 (1 # 100))) in
  valueOf (lit 35 100)%Z = Some (binary64 (35 # 100)) /\
  valueOf (SpecFloat.SFmul 53 1024 (ofWhole 10) (lit 35 100)%Z)
    = Some (fmul 10 (binary64 (35 # 100))) /\
  fmul 10 (binary64 (35 # 100)) = 7 # 2 /\
  valueOf ph = Some ph' /\
  valueOf (SpecFloat.SFdiv 53 1024 (ofWhole 11156) ph)
    = Some (fdiv 11156 ph') /\
  valueOf (SpecFloat.SFadd 53 1024
             (SpecFloat.SFmul 53 1024 (ofWhole 19) ph) ph)
    = Some (fadd (fmul 19 ph') ph').
Proof. repeat split; vm_compute; reflexivity. Qed.

(** The canonical form of a result that is a whole number. *)
Lemma Qred_Z (z : Z) : Qred (inject_Z z) = inject_Z z.
Proof.
  unfold Qred, inject_Z.
  generalize (Z.ggcd_gcd z 1) (Z.ggcd_correct_divisors z 1).
  destruct (Z.ggcd z 1) as (g, (a, b)). cbn [fst snd].
  rewrite Z.gcd_1_r. intros Hg [Ha Hb]. subst g.
  rewrite Z.mul_1_l in Ha, Hb. now subst a b.
Qed.

Lemma binary64_eq_Z (x : Q) (z : Z) :
  binary64 x == inject_Z z -> binary64 x = inject_Z z.
Proof.
  unfold binary64. intros H. rewrite Qred_correct in H.
  rewrite (Qred_complete _ _ H). apply Qred_Z.
Qed.

Lemma Qceiling_unique (x : Q) (n : Z) :
  inject_Z (n - 1) < x -> x <= inject_Z n -> Qceiling x = n.
Proof.
  intros Hlo Hhi.
  assert (H1 := Qceiling_lt x). assert (H2 := Qle_ceiling x).
  assert (Ha : inject_Z (n - 1) < inject_Z (Qceiling x)) by lra.
  assert (Hb : inject_Z (Qceiling x - 1) < inject_Z n) by lra.
  rewrite <- Zlt_Qlt in Ha, Hb. lia.
Qed.

Lemma Qfloor_unique (x : Q) (n : Z) :
  inject_Z n <= x -> x < inject_Z (n + 1) -> Qfloor x = n.
Proof.
  intros Hlo Hhi.
  assert (H1 := Qfloor_le x). assert (H2 := Qlt_floor x).
  assert (Ha : inject_Z n < inject_Z (Qfloor x + 1)) by lra.
  assert (Hb : inject_Z (Qfloor x) < inject_Z (n + 1)) by lra.
  rewrite <- Zlt_Qlt in Ha, Hb. lia.
Qed.

(** *** Whole numbers *)

Lemma binary64_le_Z (x : Q) (z : Z) :
  (Z.abs z < 2 ^ 53)%Z -> x <= inject_Z z -> binary64 x <= inject_Z z.
Proof.
  intros Hz Hx. rewrite <- (binary64_Z z Hz). now apply binary64_mono.
Qed.

Lemma binary64_ge_Z (x : Q) (z : Z) :
  (Z.abs z < 2 ^ 53)%Z -> inject_Z z <= x -> inject_Z z <= binary64 x.
Proof.
  intros Hz Hx. rewrite <- (binary64_Z z Hz). now apply binary64_mono.
Qed.

Lemma fmul_Z (x y : Q) (a b : Z) :
  x == inject_Z a -> y == inject_Z b -> (Z.abs (a * b) < 2 ^ 53)%Z ->
  fmul x y == inject_Z (a * b).
Proof.
  intros Hx Hy Hab. unfold fmul.
  assert (H : x * y == inject_Z (a * b)) by (rewrite Hx, Hy, inject_Z_mult; reflexivity).
  rewrite H. now apply binary64_Z.
Qed.

Lemma fadd_Z (x y : Q) (a b : Z) :
  x == inject_Z a -> y == inject_Z b -> (Z.abs (a + b) < 2 ^ 53)%Z ->
  fadd x y == inject_Z (a + b).
Proof.
  intros Hx Hy Hab. unfold fadd.
  assert (H : x + y == inject_Z (a + b)) by (rewrite Hx, Hy, inject_Z_plus; reflexivity).
  rewrite H. now apply binary64_Z.
Qed.

Lemma fsub_Z (x y : Q) (a b : Z) :
  x == inject_Z a -> y == inject_Z b -> (Z.abs (a - b) < 2 ^ 53)%Z ->
  fsub x y == inject_Z (a - b).
Proof.
  intros Hx Hy Hab. unfold fsub.
  assert (H : x - y == inject_Z (a - b)).
  { rewrite Hx, Hy. unfold Z.sub, Qminus. rewrite inject_Z_plus, inject_Z_opp.
    reflexivity. }
  rewrite H. now apply binary64_Z.
Qed.

(** The quotient of two whole numbers of moderate size rounds to the same
    side of every whole number: [Math.ceil] of the double is the ceiling
    of the exact quotient. *)
Lemma ceil_fdiv (a b : Z) :
  (0 <= a < 2 ^ 40)%Z -> (1 <= b <= 2 ^ 11)%Z ->
  Qceiling (fdiv (inject_Z a) (inject_Z b)) = Qceiling (inject_Z a / inject_Z b).
Proof.
  intros Ha Hb.
  set (x := inject_Z a / inject_Z b).
  set (n := Qceiling x).
  assert (Hbq : 0 < inject_Z b) by (change 0 with (inject_Z 0); rewrite <- Zlt_Qlt; lia).
  assert (Hlt := Qceiling_lt x). assert (Hle := Qle_ceiling x). fold n in Hlt, Hle.
  assert (Hxb : x * inject_Z b == inject_Z a) by (unfold x; field; lra).
  assert (Hn0 : (0 <= n)%Z).
  { rewrite <- (Qceiling_Z 0). apply Qceiling_resp_le.
    unfold x. apply Qle_shift_div_l; [exact Hbq|].
    rewrite Qmult_0_l. change 0 with (inject_Z 0). rewrite <- Zle_Qle. lia. }
  assert (Hna : (n <= a)%Z).
  { rewrite <- (Qceiling_Z a). apply Qceiling_resp_le.
    unfold x. apply Qle_shift_div_r; [exact Hbq|].
    rewrite <- inject_Z_mult, <- Zle_Qle. nia. }
  assert (Hint : ((n - 1) * b + 1 <= a)%Z).
  { assert (H : inject_Z ((n - 1) * b) < inject_Z a).
    { rewrite inject_Z_mult, <- Hxb. apply Qmult_lt_compat_r; assumption. }
    rewrite <- Zlt_Qlt in H. lia. }
  apply Qceiling_unique.
  - set (r := inject_Z ((n - 1) * 2 ^ 11 + 1) / inject_Z (2 ^ 11)).
    assert (Hr : representable r)
      by (apply representable_dyadic; [lia|lia]).
    assert (Hrx : r <= x).
    { unfold r, x. apply Qle_shift_div_l; [exact Hbq|].
      unfold Qdiv. rewrite <- Qmult_assoc, (Qmult_comm (/ _)), Qmult_assoc.
      apply Qle_shift_div_r; [reflexivity|].
      rewrite <- !inject_Z_mult, <- Zle_Qle. nia. }
    assert (Hnr : inject_Z (n - 1) < r).
    { unfold r. apply Qlt_shift_div_l; [reflexivity|].
      rewrite <- inject_Z_mult, <- Zlt_Qlt. lia. }
    unfold fdiv. fold x.
    assert (H := binary64_mono r x Hrx). rewrite (binary64_exact r Hr) in H. lra.
  - unfold fdiv. fold x.
    assert (H := binary64_mono x (inject_Z n) Hle).
    rewrite binary64_Z in H by lia. exact H.
Qed.

(** Likewise [Math.floor] of the quotient of two whole numbers, as long as
    their sum stays below [2^52]. *)
Lemma floor_fdiv (a b : Z) :
  (0 <= a)%Z -> (1 <= b)%Z -> (a + b <= 2 ^ 52)%Z ->
  Qfloor (fdiv (inject_Z a) (inject_Z b)) = (a / b)%Z.
Proof.
  intros Ha Hb Hab.
  set (x := inject_Z a / inject_Z b).
  set (n := (a / b)%Z).
  assert (Hbq : 0 < inject_Z b) by (change 0 with (inject_Z 0); rewrite <- Zlt_Qlt; lia).
  assert (Hdm := Z.div_mod a b ltac:(lia)).
  assert (Hmod := Z.mod_pos_bound a b ltac:(lia)). fold n in Hdm.
  assert (Hn0 : (0 <= n)%Z) by (apply Z.div_pos; lia).
  set (j := Z.log2_up b).
  assert (Hj0 : (0 <= j)%Z) by apply Z.log2_up_nonneg.
  assert (Hjb : (b <= 2 ^ j)%Z) by (apply Z.log2_log2_up_spec; lia).
  assert (Hj2 : (2 ^ j < 2 * b)%Z).
  { destruct (Z.eq_dec b 1) as [->|Hb1]; [reflexivity|].
    destruct (Z.log2_up_spec b ltac:(lia)) as [Hlo _]. fold j in Hlo.
    replace j with (Z.succ (Z.pred j)) by lia.
    rewrite Z.pow_succ_r; [lia|].
    assert (0 < j)%Z by (apply Z.log2_up_pos; lia). lia. }
  assert (Hj53 : (j <= 1074)%Z).
  { destruct (Z_le_gt_dec j 1074) as [H|H]; [exact H|exfalso].
    assert (H' : (2 ^ 54 <= 2 ^ j)%Z) by (apply Z.pow_le_mono_r; lia).
    change (2 ^ 52)%Z with 4503599627370496%Z in Hab.
    change (2 ^ 54)%Z with 18014398509481984%Z in H'. lia. }
  assert (Hpj : (0 < 2 ^ j)%Z) by (apply Z.pow_pos_nonneg; lia).
  assert (Hjq : 0 < inject_Z (2 ^ j))
    by (change 0 with (inject_Z 0); rewrite <- Zlt_Qlt; exact Hpj).
  set (r := inject_Z ((n + 1) * 2 ^ j - 1) / inject_Z (2 ^ j)).
  assert (Hr : representable r).
  { apply representable_dyadic; [|lia].
    change (2 ^ 52)%Z with 4503599627370496%Z in Hab.
    change (2 ^ 53)%Z with 9007199254740992%Z. nia. }
  assert (Hxr : x <= r).
  { unfold r, x. apply Qle_shift_div_r; [exact Hbq|].
    unfold Qdiv. rewrite <- Qmult_assoc, (Qmult_comm (/ _)), Qmult_assoc.
    apply Qle_shift_div_l; [exact Hjq|].
    rewrite <- !inject_Z_mult, <- Zle_Qle. nia. }
  assert (Hrn : r < inject_Z (n + 1)).
  { unfold r. apply Qlt_shift_div_r; [exact Hjq|].
    rewrite <- inject_Z_mult, <- Zlt_Qlt. lia. }
  assert (Hnx : inject_Z n <= x).
  { unfold x. apply Qle_shift_div_l; [exact Hbq|].
    rewrite <- inject_Z_mult, <- Zle_Qle. nia. }
  apply Qfloor_unique; unfold fdiv; fold x.
  - apply binary64_ge_Z; [|exact Hnx].
    change (2 ^ 52)%Z with 4503599627370496%Z in Hab.
    change (2 ^ 53)%Z with 9007199254740992%Z. nia.
  - assert (H := binary64_mono x r Hxr). rewrite (binary64_exact r Hr) in H. lra.
Qed.

End Binary64Facts.

(** ** Properties of the pages and frame counts in double precision *)

Module Video64Facts.

Import Video Binary64 Video64 Samples Samples64 VideoFacts DrawFacts Binary64Facts.
Local Open Scope Z_scope.

(** *** The metrics that are whole numbers *)

(** The line height and the window padding are the same whole numbers
    when the products [FONT * 1.5] and [PAD * 0.7] are taken in doubles. *)
Lemma metrics_in_doubles (o : Options) :
  Math_round (fmul (inject_Z (FONT o)) (binary64 (15 # 10))) = LH o /\
  Math_round (fmul (inject_Z (PAD o)) (binary64 (7 # 10))) = WPAD o.
Proof.
  unfold LH, WPAD, FONT, PAD, PADDINGS.
  destruct (size o), (padding o); split; vm_compute; reflexivity.
Qed.

(** *** Frame counts under the [assertMin] checks *)

Lemma literal_rounds (c : Q) (r : Z) (x : Q) :
  (0 <= c)%Q -> Math_round (binary64 (1 * c)) = r -> (1 <= x)%Q ->
  r <= Math_round (fmul x c).
Proof.
  intros Hc <- Hx. apply Math_round_mono, binary64_mono.
  apply Qmult_le_compat_r; assumption.
Qed.

Section Valid.

Variable o : Options.
Hypothesis Hvalid : validOptions o.

Lemma ZOOM_FRAMES_pos64 : 1 <= ZOOM_FRAMES o.
Proof.
  destruct Hvalid as (Hfps & _). unfold ZOOM_FRAMES.
  apply literal_rounds; [vm_compute; discriminate|vm_compute; reflexivity|exact Hfps].
Qed.

Lemma PAGE_SCROLL_FRAMES_pos64 : 1 <= PAGE_SCROLL_FRAMES o.
Proof.
  destruct Hvalid as (Hfps & _). unfold PAGE_SCROLL_FRAMES.
  apply literal_rounds; [vm_compute; discriminate|vm_compute; reflexivity|exact Hfps].
Qed.

Lemma PAGE_PAUSE_FRAMES_nonneg64 : 0 <= PAGE_PAUSE_FRAMES o.
Proof.
  destruct Hvalid as (Hfps & _ & _ & _ & Hwait & _).
  apply Math_round_nonneg, binary64_nonneg, Qmult_le_0_compat; lra.
Qed.

Lemma final_still_nonneg64 : 0 <= Math_round (fmul (fps o) c0_3).
Proof.
  destruct Hvalid as (Hfps & _).
  apply Math_round_nonneg, binary64_nonneg, Qmult_le_0_compat;
    [lra|vm_compute; discriminate].
Qed.

Lemma pageLen_pos64 : 1 <= pageLen o.
Proof.
  unfold pageLen.
  assert (H1 := PAGE_SCROLL_FRAMES_pos64). assert (H2 := PAGE_PAUSE_FRAMES_nonneg64).
  lia.
Qed.

End Valid.

(** *** Frame count without scroll *)

Lemma numPages_no_scroll64 (o : Options) (lines : list (list Ansi.Span)) :
  hasScroll o lines = false -> numPages o lines = 0.
Proof.
  intros Hs. unfold hasScroll in Hs. rewrite Z.ltb_ge in Hs.
  assert (Hm := maxScroll_nonneg o lines).
  assert (H0 : maxScroll o lines = 0) by lia.
  unfold numPages, Math_ceil, fdiv. rewrite H0.
  assert (Hz : (inject_Z 0 / pageHeight o == 0)%Q).
  { change (inject_Z 0) with 0%Q. unfold Qdiv. ring. }
  rewrite Hz, binary64_0. reflexivity.
Qed.

(** C7: when [hasScroll] is false there are no pages, the total is
    [round(fps * 0.6) + round(fps * pageWait) + round(fps * 0.3)] with each
    product the double that the multiplication gives, and the
    [round(fps * pageWait)] frames after the zoom-in are frames of the
    animation all the same, each held at the target zoom with no scroll. *)
Theorem no_scroll_frame_count (Math_pow : Q -> Z -> Q)
        (o : Options) (cw : Q) (lines : list (list Ansi.Span)) :
  validOptions o ->
  hasScroll o lines = false ->
  numPages o lines = 0 /\
  scrollFrames o lines = 0 /\
  total o lines
    = Math_round (fmul (fps o) c0_6) + Math_round (fmul (fps o) (pageWait o))
      + Math_round (fmul (fps o) c0_3) /\
  (forall f : Z,
     Math_round (fmul (fps o) c0_6) <= f
       < Math_round (fmul (fps o) c0_6) + Math_round (fmul (fps o) (pageWait o)) ->
     0 <= f < total o lines /\
     phaseOf o lines f = HoldAfterZoom /\
     transform Math_pow o cw lines f = mkTransform (zoomScale o cw) 0).
Proof.
  intros Hv Hs.
  assert (Hz := ZOOM_FRAMES_pos64 o Hv).
  assert (Hstill := final_still_nonneg64 o Hv).
  split; [now apply numPages_no_scroll64|].
  split; [unfold scrollFrames; now rewrite Hs|].
  split.
  - unfold total, scrollFrames. rewrite Hs. unfold ZOOM_FRAMES, HOLD_AFTER_ZOOM,
      PAGE_PAUSE_FRAMES. lia.
  - intros f Hf.
    fold (ZOOM_FRAMES o) in Hf, Hz. fold (PAGE_PAUSE_FRAMES o) in Hf.
    assert (Hlt : (f <? ZOOM_FRAMES o) = false) by (apply Z.ltb_ge; lia).
    assert (Hst : (f <? scrollStart o) = true)
      by (apply Z.ltb_lt; unfold scrollStart, HOLD_AFTER_ZOOM; lia).
    split.
    + unfold total, scrollFrames, HOLD_AFTER_ZOOM. rewrite Hs. lia.
    + unfold phaseOf, transform. now rewrite Hlt, Hst.
Qed.

(** With [--fps 10 --page-wait 0.35] the product is the double 3.5, which
    rounds up: 4 frames of hold, 13 frames in all. *)
Lemma no_scroll_frame_count_witness :
  fmul 10 (binary64 (35 # 100)) = (7 # 2)%Q /\
  total fps10_wait_0_35 doc1 = 6 + 4 + 3 /\
  phaseOf fps10_wait_0_35 doc1 9 = HoldAfterZoom /\
  total DEFAULTS doc1 = 18 + 180 + 9.
Proof.
  assert (Hv : validOptions fps10_wait_0_35)
    by (repeat split; vm_compute; discriminate).
  assert (Hs : hasScroll fps10_wait_0_35 doc1 = false) by (vm_compute; reflexivity).
  destruct (no_scroll_frame_count roundedPow fps10_wait_0_35 cw13 doc1 Hv Hs)
    as (_ & _ & Ht & Hf).
  split; [vm_compute; reflexivity|].
  split; [rewrite Ht; vm_compute; reflexivity|].
  split; [apply Hf; split; [apply Z.leb_le|apply Z.ltb_lt]; vm_compute; reflexivity|].
  vm_compute; reflexivity.
Defined.

(** *** Page height and number of pages *)

Lemma visH_max (o : Options) : visH o <= 1327.
Proof.
  unfold visH, winH, H, TITLE_H, preset, SIZES.
  rewrite WPAD_values. unfold PAD, PADDINGS.
  destruct (size o), (aspect o), (padding o); cbn; lia.
Qed.

Lemma inject_Z_nonneg (z : Z) : 0 <= z -> (0 <= inject_Z z)%Q.
Proof. intros H. change 0%Q with (inject_Z 0). now rewrite <- Zle_Qle. Qed.

Lemma inject_Z_pos (z : Z) : 0 < z -> (0 < inject_Z z)%Q.
Proof. intros H. change 0%Q with (inject_Z 0). now rewrite <- Zlt_Qlt. Qed.

Lemma pageHeight_range64 (o : Options) :
  (0 <= overlap o)%Q ->
  (inject_Z (LH o) <= pageHeight o <= inject_Z (visH o))%Q.
Proof.
  intros Ho. unfold pageHeight.
  assert (Hv := visH_min o). assert (Hv' := visH_max o).
  assert (Hl := LH_max o). assert (Hl' := LH_pos o).
  split; [apply Q.le_max_l|]. apply Q.max_lub; [rewrite <- Zle_Qle; lia|].
  unfold fsub.
  assert (Hx : (0 <= fmul (inject_Z (LH o)) (overlap o))%Q).
  { apply binary64_nonneg, Qmult_le_0_compat; [apply inject_Z_nonneg; lia|exact Ho]. }
  apply binary64_le_Z; [lia|lra].
Qed.

Lemma pageHeight_pos64 (o : Options) : (0 < pageHeight o)%Q.
Proof.
  assert (H := Q.le_max_l (inject_Z (LH o))
                 (fsub (inject_Z (visH o)) (fmul (inject_Z (LH o)) (overlap o)))).
  fold (pageHeight o) in H.
  assert (Hl := inject_Z_pos (LH o) ltac:(assert (H' := LH_pos o); lia)). lra.
Qed.

Lemma numPages_pos64 (o : Options) (lines : list (list Ansi.Span)) :
  validOptions o -> hasScroll o lines = true -> 1 <= numPages o lines.
Proof.
  intros (_ & _ & _ & _ & _ & Ho) Hs.
  unfold hasScroll in Hs. rewrite Z.ltb_lt in Hs.
  destruct (pageHeight_range64 o Ho) as [_ Hup].
  assert (Hp := pageHeight_pos64 o). assert (Hv := visH_max o).
  assert (Hvq : (inject_Z (visH o) <= inject_Z (2 ^ 11))%Q) by (rewrite <- Zle_Qle; lia).
  assert (Hmq : (inject_Z 1 <= inject_Z (maxScroll o lines))%Q) by (rewrite <- Zle_Qle; lia).
  set (r := (inject_Z 1 / inject_Z (2 ^ 11))%Q).
  assert (Hr : representable r) by (apply representable_dyadic; lia).
  assert (Hq : (r <= inject_Z (maxScroll o lines) / pageHeight o)%Q).
  { apply Qle_shift_div_l; [exact Hp|].
    assert (H : (r * pageHeight o <= r * inject_Z (2 ^ 11))%Q)
      by (apply Qmult_le_l; [reflexivity|lra]).
    assert (H1 : (r * inject_Z (2 ^ 11) == 1)%Q) by reflexivity.
    change (inject_Z 1) with 1%Q in Hmq. lra. }
  assert (Hb := binary64_mono _ _ Hq). rewrite (binary64_exact r Hr) in Hb.
  unfold numPages, Math_ceil. fold (fdiv (inject_Z (maxScroll o lines)) (pageHeight o)) in Hb.
  assert (Hc := Qle_ceiling (fdiv (inject_Z (maxScroll o lines)) (pageHeight o))).
  assert (Hpos : (inject_Z 0 < inject_Z (Qceiling (fdiv (inject_Z (maxScroll o lines)) (pageHeight o))))%Q).
  { change (inject_Z 0) with 0%Q. assert (Hr0 : (0 < r)%Q) by reflexivity. lra. }
  rewrite <- Zlt_Qlt in Hpos. lia.
Qed.

(** *** The targets of the pages *)

Lemma pageTarget_le64 (o : Options) (lines : list (list Ansi.Span)) (k : Z) :
  (pageTarget o lines k <= inject_Z (maxScroll o lines))%Q.
Proof. unfold pageTarget. apply Q.le_min_l. Qed.

Lemma prevPageScroll_mono (o : Options) (j k : Z) :
  j <= k -> (prevPageScroll o j <= prevPageScroll o k)%Q.
Proof.
  intros Hjk. unfold prevPageScroll, fmul. apply binary64_mono.
  apply scale_le; [apply pageHeight_pos64|exact Hjk].
Qed.

Lemma pageTarget_mono64 (o : Options) (lines : list (list Ansi.Span)) (j k : Z) :
  j <= k -> (pageTarget o lines j <= pageTarget o lines k)%Q.
Proof.
  intros Hjk. unfold pageTarget.
  apply Q.min_le_compat_l. unfold fadd. apply binary64_mono.
  assert (H := prevPageScroll_mono o j k Hjk). lra.
Qed.

(** *** A whole number of overlap lines *)

Section Whole.

Variable o : Options.
Variable lines : list (list Ansi.Span).
Variable n : Z.
Hypothesis Hvalid : validOptions o.
Hypothesis Hn : (overlap o == inject_Z n)%Q.
Hypothesis Hlen : Z.of_nat (length lines) < 2 ^ 32.

(** The page height, a whole number of pixels. *)
Let P : Z := Z.max (LH o) (visH o - LH o * n).

Lemma overlap_whole_nonneg : 0 <= n.
Proof using Hvalid Hn.
  clear Hlen.
  destruct Hvalid as (_ & _ & _ & _ & _ & Ho). rewrite Hn in Ho.
  change 0%Q with (inject_Z 0) in Ho. now rewrite <- Zle_Qle in Ho.
Qed.

Lemma exact_pageHeight_whole : (Video.pageHeight o == inject_Z P)%Q.
Proof using Hn.
  clear Hlen Hvalid.
  unfold Video.pageHeight, P. rewrite Hn.
  rewrite <- inject_Z_mult.
  assert (H : (inject_Z (visH o) - inject_Z (LH o * n) == inject_Z (visH o - LH o * n))%Q).
  { unfold Z.sub, Qminus. now rewrite inject_Z_plus, inject_Z_opp. }
  rewrite H.
  destruct (Z.max_spec (LH o) (visH o - LH o * n)) as [[Hlt ->]|[Hle ->]].
  - apply Q.max_r. rewrite <- Zle_Qle. lia.
  - apply Q.max_l. rewrite <- Zle_Qle. lia.
Qed.

Lemma pageHeight_whole : (pageHeight o == inject_Z P)%Q.
Proof using Hvalid Hn.
  clear Hlen.
  assert (Hn0 := overlap_whole_nonneg).
  assert (Hv := visH_min o). assert (Hv' := visH_max o).
  assert (Hl := LH_max o). assert (Hl' := LH_pos o).
  unfold pageHeight, P.
  destruct (Z_le_gt_dec (LH o * n) (visH o)) as [Hsmall|Hbig].
  - assert (Hm : (fmul (inject_Z (LH o)) (overlap o) == inject_Z (LH o * n))%Q)
      by (apply fmul_Z; [reflexivity|exact Hn|nia]).
    assert (Hs : (fsub (inject_Z (visH o)) (fmul (inject_Z (LH o)) (overlap o))
                  == inject_Z (visH o - LH o * n))%Q)
      by (apply fsub_Z; [reflexivity|exact Hm|nia]).
    rewrite Hs.
    destruct (Z.max_spec (LH o) (visH o - LH o * n)) as [[Hlt ->]|[Hle ->]].
    + apply Q.max_r. rewrite <- Zle_Qle. lia.
    + apply Q.max_l. rewrite <- Zle_Qle. lia.
  - replace (Z.max (LH o) (visH o - LH o * n)) with (LH o) by lia.
    apply Q.max_l.
    assert (Hm : (inject_Z (visH o) <= fmul (inject_Z (LH o)) (overlap o))%Q).
    { apply binary64_ge_Z; [lia|].
      rewrite Hn, <- inject_Z_mult, <- Zle_Qle. lia. }
    apply binary64_le_Z; [lia|].
    assert (H0 := inject_Z_nonneg (LH o) ltac:(lia)). lra.
Qed.

Lemma page_whole_range : 18 <= P <= 1327.
Proof using Hvalid Hn.
  clear Hlen.
  assert (Hv := visH_min o). assert (Hv' := visH_max o).
  assert (Hl := LH_max o). assert (Hl' := LH_pos o).
  assert (Hn0 := overlap_whole_nonneg). unfold P. nia.
Qed.

Lemma maxScroll_below : 0 <= maxScroll o lines < 2 ^ 37.
Proof using Hlen.
  clear Hvalid Hn P.
  assert (Hv := visH_min o). assert (Hl := LH_max o). assert (Hl' := LH_pos o).
  assert (Hw : WPAD o <= 45) by (rewrite WPAD_values; destruct (padding o); lia).
  unfold maxScroll, totalH. split; [lia|].
  assert (Hnn : 0 <= Z.of_nat (length lines)) by lia.
  set (c := Z.of_nat (length lines)) in *.
  assert (c * LH o <= c * 23) by nia.
  change (2 ^ 37) with 137438953472. change (2 ^ 32) with 4294967296 in Hlen. lia.
Qed.

Lemma numPages_whole : numPages o lines = Video.numPages o lines.
Proof using Hvalid Hn Hlen.
  unfold numPages, Video.numPages, Math_ceil.
  assert (HP := page_whole_range). assert (HM := maxScroll_below).
  assert (H64 : (fdiv (inject_Z (maxScroll o lines)) (pageHeight o)
                 == fdiv (inject_Z (maxScroll o lines)) (inject_Z P))%Q).
  { unfold fdiv. now rewrite pageHeight_whole. }
  rewrite H64, exact_pageHeight_whole.
  apply ceil_fdiv; [change (2 ^ 40) with 1099511627776;
                    change (2 ^ 37) with 137438953472 in HM; lia|].
  change (2 ^ 11) with 2048. lia.
Qed.

Lemma pages_below (k : Z) :
  0 <= k <= Video.numPages o lines -> 0 <= k * P < 2 ^ 38.
Proof using Hvalid Hn Hlen.
  intros Hk. assert (HP := page_whole_range). assert (HM := maxScroll_below).
  destruct (numPages_bounds o lines) as [Hlo _].
  rewrite exact_pageHeight_whole, <- inject_Z_mult, <- Zlt_Qlt in Hlo.
  change (2 ^ 37) with 137438953472 in HM. change (2 ^ 38) with 274877906944.
  nia.
Qed.

Lemma prevPageScroll_whole (k : Z) :
  0 <= k <= Video.numPages o lines ->
  (prevPageScroll o k == inject_Z (k * P))%Q.
Proof using Hvalid Hn Hlen.
  intros Hk. assert (Hb := pages_below k Hk).
  unfold prevPageScroll. apply fmul_Z; [reflexivity|apply pageHeight_whole|].
  change (2 ^ 38) with 274877906944 in Hb. change (2 ^ 53) with 9007199254740992. lia.
Qed.

Lemma pageTarget_whole (k : Z) :
  0 <= k <= Video.numPages o lines ->
  (pageTarget o lines k == Video.pageTarget o lines k)%Q.
Proof using Hvalid Hn Hlen.
  intros Hk. assert (Hb := pages_below k Hk). assert (HP := page_whole_range).
  unfold pageTarget, Video.pageTarget.
  assert (Hs : (fadd (prevPageScroll o k) (pageHeight o) == inject_Z (k * P + P))%Q).
  { apply fadd_Z; [now apply prevPageScroll_whole|apply pageHeight_whole|].
    change (2 ^ 38) with 274877906944 in Hb. change (2 ^ 53) with 9007199254740992. lia. }
  rewrite Hs, exact_pageHeight_whole, <- inject_Z_mult, <- inject_Z_plus.
  reflexivity.
Qed.

End Whole.

(** *** Page coverage *)

(** C2, as amended.  [pageHeight] is [max(LH, visH - LH * overlap)] and
    [numPages] the ceiling of [maxScroll / pageHeight], each result the
    nearest double.  Whatever the overlap, there is at least one page when
    the document scrolls, and the clamped targets of the pages never exceed
    [maxScroll] and never decrease.  For an overlap that is a whole number
    of lines (and a document of fewer than 2^32 lines, the bound of an
    array) every step of the computation is exact: [pageHeight] is
    [max(LH, visH - LH * overlap)], [numPages] is the ceiling of the exact
    quotient [maxScroll / pageHeight], the least count of page heights that
    reaches [maxScroll]; the targets are [min(maxScroll, (k+1) * pageHeight)],
    they increase strictly over the pages [0 .. numPages-1], and the last of
    them is [maxScroll]. *)
Theorem page_coverage (o : Options) (lines : list (list Ansi.Span)) :
  validOptions o ->
  hasScroll o lines = true ->
  pageHeight o
    = Qmax (inject_Z (LH o))
           (fsub (inject_Z (visH o)) (fmul (inject_Z (LH o)) (overlap o))) /\
  numPages o lines
    = Qceiling (fdiv (inject_Z (maxScroll o lines)) (pageHeight o)) /\
  1 <= numPages o lines /\
  (forall k : Z, (pageTarget o lines k <= inject_Z (maxScroll o lines))%Q) /\
  (forall j k : Z,
     j <= k -> (pageTarget o lines j <= pageTarget o lines k)%Q) /\
  (forall n : Z,
     (overlap o == inject_Z n)%Q ->
     Z.of_nat (length lines) < 2 ^ 32 ->
     let P := Qmax (inject_Z (LH o))
                   (inject_Z (visH o) - inject_Z (LH o) * inject_Z n) in
     (pageHeight o == P)%Q /\
     numPages o lines = Qceiling (inject_Z (maxScroll o lines) / P) /\
     (inject_Z (numPages o lines - 1) * P < inject_Z (maxScroll o lines)
      <= inject_Z (numPages o lines) * P)%Q /\
     (forall k : Z,
        0 <= k < numPages o lines ->
        (pageTarget o lines k
         == Qmin (inject_Z (maxScroll o lines)) (inject_Z (k + 1) * P))%Q) /\
     (forall j k : Z,
        0 <= j -> j < k -> k < numPages o lines ->
        (pageTarget o lines j < pageTarget o lines k)%Q) /\
     (pageTarget o lines (numPages o lines - 1)
      == inject_Z (maxScroll o lines))%Q).
Proof.
  intros Hv Hs.
  split; [reflexivity|]. split; [reflexivity|].
  split; [now apply numPages_pos64|].
  split; [intros k; apply pageTarget_le64|].
  split; [intros j k; apply pageTarget_mono64|].
  intros n Hn Hlen P.
  assert (HP : (Video.pageHeight o == P)%Q).
  { unfold Video.pageHeight, P. now rewrite Hn. }
  assert (Hnum := numPages_whole o lines n Hv Hn Hlen).
  assert (Hpos := numPages_pos o lines Hs).
  assert (Htar : forall k, 0 <= k <= Video.numPages o lines ->
                 (pageTarget o lines k == Video.pageTarget o lines k)%Q)
    by (intros k; apply (pageTarget_whole o lines n Hv Hn Hlen)).
  rewrite Hnum.
  split.
  { rewrite (pageHeight_whole o n Hv Hn), <- (exact_pageHeight_whole o n Hn).
    exact HP. }
  split; [unfold Video.numPages, Math_ceil; now rewrite HP|].
  split; [rewrite <- HP; apply numPages_bounds|].
  split.
  { intros k Hk. rewrite Htar by lia. rewrite <- HP. apply pageTarget_formula. }
  split.
  - intros j k Hj Hjk Hk. rewrite !Htar by lia.
    assert (Hp := pageHeight_pos o).
    destruct (pageTarget_inner o lines j) as [Hj1 Hjm]; [lia|].
    assert (Hlt : (inject_Z (j + 1) * Video.pageHeight o
                   < inject_Z (k + 1) * Video.pageHeight o)%Q)
      by (apply scale_lt; [exact Hp|lia]).
    rewrite (pageTarget_formula o lines k).
    destruct (Q.min_spec (inject_Z (maxScroll o lines))
                         (inject_Z (k + 1) * Video.pageHeight o)) as [[? ->]|[? ->]];
    lra.
  - rewrite Htar by lia. apply pageTarget_last.
Qed.

Lemma page_coverage_witness :
  hasScroll DEFAULTS doc170 = true /\
  numPages DEFAULTS doc170 = 7 /\
  (pageTarget DEFAULTS doc170 5 == 2868)%Q /\
  (pageTarget DEFAULTS doc170 (numPages DEFAULTS doc170 - 1) == 2876)%Q.
Proof.
  assert (Hs : hasScroll DEFAULTS doc170 = true) by (vm_compute; reflexivity).
  destruct (page_coverage DEFAULTS doc170 DEFAULTS_valid Hs)
    as (_ & _ & _ & _ & _ & Hw).
  destruct (Hw 4) as (_ & Hn & _ & Hf & _ & Hl);
    [reflexivity|vm_compute; reflexivity|].
  split; [exact Hs|].
  split; [rewrite Hn; vm_compute; reflexivity|].
  split; [|rewrite Hl; vm_compute; reflexivity].
  rewrite Hf; [vm_compute; reflexivity|].
  split; [apply Z.leb_le|apply Z.ltb_lt]; vm_compute; reflexivity.
Defined.

(** C2 as worded fails for a fractional overlap.  With [--overlap 0.01] and
    584 lines there are 11156 pixels to scroll in 20 pages of
    557.79999999999995 pixels, and the last page rests at
    11155.999999999998, short of [maxScroll].  With [--overlap 0.06] and 2671
    lines the last two of the 96 targets are both 52896. *)
Lemma last_target_short_of_maxScroll :
  hasScroll overlap_0_01 doc584 = true /\
  maxScroll overlap_0_01 doc584 = 11156 /\
  pageHeight overlap_0_01 = (2453230343893811 # 4398046511104)%Q /\
  numPages overlap_0_01 doc584 = 20 /\
  pageTarget overlap_0_01 doc584 (20 - 1)
    = (6133075859734527 # 549755813888)%Q /\
  (pageTarget overlap_0_01 doc584 (20 - 1) < 11156)%Q /\
  hasScroll overlap_0_06 doc2671 = true /\
  numPages overlap_0_06 doc2671 = 96 /\
  pageTarget overlap_0_06 doc2671 94 = 52896%Q /\
  pageTarget overlap_0_06 doc2671 95 = 52896%Q.
Proof. repeat split; vm_compute; reflexivity. Qed.

(** *** The scroll of the pages *)

Lemma numPages_nonneg64 (o : Options) (lines : list (list Ansi.Span)) :
  0 <= numPages o lines.
Proof.
  unfold numPages, Math_ceil. rewrite <- (Qceiling_Z 0).
  apply Qceiling_resp_le. apply binary64_nonneg.
  apply Qle_shift_div_l; [apply pageHeight_pos64|].
  rewrite Qmult_0_l. apply inject_Z_nonneg, maxScroll_nonneg.
Qed.

Lemma scrollFrames_nonneg64 (o : Options) (lines : list (list Ansi.Span)) :
  validOptions o -> 0 <= scrollFrames o lines.
Proof.
  intros Hv. unfold scrollFrames. destruct (hasScroll o lines); [|lia].
  assert (H1 := numPages_nonneg64 o lines). assert (H2 := pageLen_pos64 o Hv).
  fold (pageLen o). nia.
Qed.

Lemma phases_in_order64 (o : Options) (lines : list (list Ansi.Span)) :
  validOptions o ->
  1 <= ZOOM_FRAMES o /\ ZOOM_FRAMES o <= scrollStart o /\
  scrollStart o <= scrollEnd o lines /\ scrollEnd o lines <= total o lines.
Proof.
  intros Hv.
  assert (Hz := ZOOM_FRAMES_pos64 o Hv).
  assert (Hh := PAGE_PAUSE_FRAMES_nonneg64 o Hv).
  assert (Hs := scrollFrames_nonneg64 o lines Hv).
  assert (Hf := final_still_nonneg64 o Hv).
  unfold total, scrollEnd, scrollStart, HOLD_AFTER_ZOOM.
  destruct (hasScroll o lines); lia.
Qed.

(** The first frame of a page: [currentPage] and [frameInPage]. *)
Lemma page_start_split (len k : Z) :
  1 <= len -> 0 <= k -> Z.abs k < 2 ^ 53 ->
  Math_floor (fdiv (inject_Z (k * len)) (inject_Z len)) = k /\
  Z.rem (k * len) len = 0.
Proof.
  intros Hlen Hk Hk53. split; [|apply Z.rem_mul; lia].
  unfold Math_floor, fdiv.
  assert (H : (inject_Z (k * len) / inject_Z len == inject_Z k)%Q).
  { rewrite inject_Z_mult. field.
    assert (H' := inject_Z_pos len ltac:(lia)). lra. }
  rewrite H, (binary64_eq_Z _ _ (binary64_Z k Hk53)). apply Qfloor_Z.
Qed.

Section Whole_scroll.

Variable Math_pow : Q -> Z -> Q.
Variable o : Options.
Variable cw : Q.
Variable lines : list (list Ansi.Span).
Variable n : Z.
Hypothesis Hvalid : validOptions o.
Hypothesis Hn : (overlap o == inject_Z n)%Q.
Hypothesis Hlen : Z.of_nat (length lines) < 2 ^ 32.

Let P : Z := Z.max (LH o) (visH o - LH o * n).

Lemma pages_count_below (k : Z) : 0 <= k <= numPages o lines -> Z.abs k < 2 ^ 53.
Proof using Hvalid Hn Hlen.
  intros Hk. rewrite (numPages_whole o lines n Hvalid Hn Hlen) in Hk.
  assert (Hb := pages_below o lines n Hvalid Hn Hlen k Hk).
  assert (HP := page_whole_range o n Hvalid Hn). cbv zeta in HP, Hb.
  change (2 ^ 38) with 274877906944 in Hb.
  change (2 ^ 53) with 9007199254740992. nia.
Qed.

(** The eased scroll of a page at its first frame, when the engine raises
    1 to the power 3 exactly. *)
Lemma first_frame_of_page (k : Z) :
  (Math_pow 1 3%Z == 1)%Q ->
  0 <= k <= numPages o lines ->
  (inPage Math_pow o lines k 0
   == Qmin (inject_Z (maxScroll o lines)) (inject_Z (k * P)))%Q.
Proof using Hvalid Hn Hlen.
  intros Hpow Hk.
  assert (Hpsf := PAGE_SCROLL_FRAMES_pos64 o Hvalid).
  assert (Hprev := prevPageScroll_whole o lines n Hvalid Hn Hlen k).
  rewrite <- (numPages_whole o lines n Hvalid Hn Hlen) in Hprev.
  specialize (Hprev Hk). fold P in Hprev.
  assert (Hb := pages_below o lines n Hvalid Hn Hlen k).
  rewrite <- (numPages_whole o lines n Hvalid Hn Hlen) in Hb.
  specialize (Hb Hk). fold P in Hb.
  unfold inPage.
  replace (0 <? PAGE_SCROLL_FRAMES o) with true by (symmetry; apply Z.ltb_lt; lia).
  cbv zeta.
  assert (Hp : fdiv (inject_Z 0) (inject_Z (PAGE_SCROLL_FRAMES o)) = 0%Q).
  { apply (binary64_eq_Z _ 0). unfold fdiv.
    assert (H : (inject_Z 0 / inject_Z (PAGE_SCROLL_FRAMES o) == 0)%Q)
      by (change (inject_Z 0) with 0%Q; unfold Qdiv; ring).
    now rewrite H. }
  rewrite Hp. unfold easeOut.
  assert (H1 : fsub 1 0 = 1%Q) by reflexivity.
  rewrite H1.
  assert (He : (fsub 1 (Math_pow 1 3%Z) == 0)%Q).
  { unfold fsub. assert (H : (1 - Math_pow 1 3%Z == 0)%Q) by (rewrite Hpow; ring).
    now rewrite H. }
  assert (Hm : (fmul (pageHeight o) (fsub 1 (Math_pow 1 3%Z)) == 0)%Q).
  { unfold fmul.
    assert (H : (pageHeight o * fsub 1 (Math_pow 1 3%Z) == 0)%Q) by (rewrite He; ring).
    now rewrite H. }
  assert (Ha : (fadd (prevPageScroll o k) (fmul (pageHeight o) (fsub 1 (Math_pow 1 3%Z)))
                == inject_Z (k * P))%Q).
  { unfold fadd.
    assert (H : (prevPageScroll o k + fmul (pageHeight o) (fsub 1 (Math_pow 1 3%Z))
                 == inject_Z (k * P))%Q) by (rewrite Hm, Hprev; ring).
    rewrite H. apply binary64_Z.
    change (2 ^ 38) with 274877906944 in Hb.
    change (2 ^ 53) with 9007199254740992. lia. }
  now rewrite Ha.
Qed.

Lemma page_starts_at_rest64 (k : Z) :
  (Math_pow 1 3%Z == 1)%Q ->
  hasScroll o lines = true ->
  0 <= k < numPages o lines ->
  phaseOf o lines (scrollStart o + k * pageLen o) = PageScroll k /\
  (scrollY (transform Math_pow o cw lines (scrollStart o + k * pageLen o))
   == if k <=? 0 then 0 else pageTarget o lines (k - 1))%Q.
Proof using Hvalid Hn Hlen.
  intros Hpow Hs Hk.
  assert (HL := pageLen_pos64 o Hvalid).
  assert (Hpsf := PAGE_SCROLL_FRAMES_pos64 o Hvalid).
  destruct (phases_in_order64 o lines Hvalid) as (Hz & Hzs & _).
  assert (Hend : scrollEnd o lines = scrollStart o + numPages o lines * pageLen o).
  { unfold scrollEnd, scrollFrames. rewrite Hs. reflexivity. }
  set (f := scrollStart o + k * pageLen o).
  assert (Ha : (f <? ZOOM_FRAMES o) = false) by (apply Z.ltb_ge; unfold f; nia).
  assert (Hb : (f <? scrollStart o) = false) by (apply Z.ltb_ge; unfold f; nia).
  assert (Hc : (f <? scrollEnd o lines) = true)
    by (apply Z.ltb_lt; rewrite Hend; unfold f; nia).
  assert (Hsf : f - scrollStart o = k * pageLen o) by (unfold f; lia).
  destruct (page_start_split (pageLen o) k) as [Hq Hr];
    [lia|lia|apply pages_count_below; lia|].
  assert (Hr0 : (0 <? PAGE_SCROLL_FRAMES o) = true) by (apply Z.ltb_lt; lia).
  split.
  - unfold phaseOf. now rewrite Ha, Hb, Hc, Hsf, Hq, Hr, Hr0.
  - assert (Ht : scrollY (transform Math_pow o cw lines f)
                 = inPage Math_pow o lines k 0).
    { unfold transform, inPage. now rewrite Ha, Hb, Hc, Hsf, Hq, Hr, Hr0. }
    rewrite Ht, first_frame_of_page by (assumption || lia).
    assert (Hm := inject_Z_nonneg _ (maxScroll_nonneg o lines)).
    destruct (Z.leb_spec k 0) as [Hk0|Hk0].
    + assert (k = 0) by lia. subst k. change (inject_Z (0 * P)) with 0%Q.
      now apply Q.min_r.
    + rewrite (pageTarget_whole o lines n Hvalid Hn Hlen)
        by (rewrite <- (numPages_whole o lines n Hvalid Hn Hlen); lia).
      rewrite pageTarget_formula, (exact_pageHeight_whole o n Hn). fold P.
      rewrite <- inject_Z_mult. now replace (k - 1 + 1) with k by lia.
Qed.

(** **** The scroll never moves back *)

Hypothesis Hpow : forall x y : Q,
  (0 <= x -> x <= y -> y <= 1 ->
   0 <= Math_pow x 3%Z /\ Math_pow x 3%Z <= Math_pow y 3%Z /\ Math_pow y 3%Z <= 1)%Q.
Hypothesis Hframes : total o lines <= 2 ^ 51.

Let M : Q := inject_Z (maxScroll o lines).

(** The ease of frame [r] of a page's scroll. *)
Let ease (r : Z) : Q :=
  easeOut Math_pow (fdiv (inject_Z r) (inject_Z (PAGE_SCROLL_FRAMES o))).

Lemma ease_frames (r r' : Z) :
  0 <= r <= r' -> r' < PAGE_SCROLL_FRAMES o ->
  (0 <= ease r /\ ease r <= ease r' /\ ease r' <= 1)%Q.
Proof using Hpow.
  clear Hvalid Hn Hlen Hframes P.
  intros Hr Hr'. unfold ease, easeOut.
  set (psf := PAGE_SCROLL_FRAMES o) in *.
  destruct (FramesFacts.ratio_range r psf ltac:(lia)) as [Ha0 Ha1].
  destruct (FramesFacts.ratio_range r' psf ltac:(lia)) as [Hb0 Hb1].
  assert (Hab := FramesFacts.ratio_mono r r' psf ltac:(lia) ltac:(lia)).
  assert (Hp0 : (0 <= fdiv (inject_Z r) (inject_Z psf))%Q) by now apply binary64_nonneg.
  assert (Hpp : (fdiv (inject_Z r) (inject_Z psf) <= fdiv (inject_Z r') (inject_Z psf))%Q)
    by now apply binary64_mono.
  assert (Hp1 : (fdiv (inject_Z r') (inject_Z psf) <= 1)%Q)
    by (apply (binary64_le_Z _ 1); [reflexivity|change (inject_Z 1) with 1%Q; lra]).
  set (p := fdiv (inject_Z r) (inject_Z psf)) in *.
  set (p' := fdiv (inject_Z r') (inject_Z psf)) in *.
  assert (Hq0 : (0 <= fsub 1 p')%Q) by (apply binary64_nonneg; lra).
  assert (Hqq : (fsub 1 p' <= fsub 1 p)%Q) by (apply binary64_mono; lra).
  assert (Hq1 : (fsub 1 p <= 1)%Q)
    by (apply (binary64_le_Z _ 1); [reflexivity|change (inject_Z 1) with 1%Q; lra]).
  destruct (Hpow _ _ Hq0 Hqq Hq1) as (Hw0 & Hww & Hw1).
  split; [apply binary64_nonneg; lra|].
  split; [apply binary64_mono; lra|].
  apply (binary64_le_Z _ 1); [reflexivity|change (inject_Z 1) with 1%Q; lra].
Qed.

Lemma pageTarget_sum (k : Z) :
  0 <= k < numPages o lines ->
  (pageTarget o lines k == Qmin M (inject_Z (k * P + P)))%Q.
Proof using Hvalid Hn Hlen.
  clear Hpow Hframes.
  intros Hk.
  rewrite (pageTarget_whole o lines n Hvalid Hn Hlen)
    by (rewrite <- (numPages_whole o lines n Hvalid Hn Hlen); lia).
  unfold Video.pageTarget. rewrite (exact_pageHeight_whole o n Hn). fold P.
  now rewrite <- inject_Z_mult, <- inject_Z_plus.
Qed.

Lemma scroll_step (k : Z) (e : Q) :
  0 <= k < numPages o lines -> (0 <= e <= 1)%Q ->
  (inject_Z (k * P) <= fadd (prevPageScroll o k) (fmul (pageHeight o) e)
   <= inject_Z (k * P + P))%Q.
Proof using Hvalid Hn Hlen.
  clear Hpow Hframes.
  intros Hk He.
  assert (Hprev := prevPageScroll_whole o lines n Hvalid Hn Hlen k).
  rewrite <- (numPages_whole o lines n Hvalid Hn Hlen) in Hprev.
  specialize (Hprev ltac:(lia)). fold P in Hprev.
  assert (Hb := pages_below o lines n Hvalid Hn Hlen k).
  rewrite <- (numPages_whole o lines n Hvalid Hn Hlen) in Hb.
  specialize (Hb ltac:(lia)). fold P in Hb.
  assert (HP := page_whole_range o n Hvalid Hn). fold P in HP.
  assert (Hph := pageHeight_whole o n Hvalid Hn). fold P in Hph.
  assert (HPq := inject_Z_nonneg P ltac:(lia)).
  change (2 ^ 38) with 274877906944 in Hb.
  assert (Hm : (0 <= fmul (pageHeight o) e <= inject_Z P)%Q).
  { split.
    - apply binary64_nonneg. rewrite Hph. apply Qmult_le_0_compat; lra.
    - apply binary64_le_Z; [change (2 ^ 53) with 9007199254740992; lia|].
      rewrite Hph. rewrite <- (Qmult_1_r (inject_Z P)) at 2.
      apply Qmult_le_l; [|lra].
      apply inject_Z_pos. lia. }
  split.
  - apply binary64_ge_Z; [change (2 ^ 53) with 9007199254740992; lia|].
    rewrite Hprev. lra.
  - apply binary64_le_Z; [change (2 ^ 53) with 9007199254740992; lia|].
    rewrite Hprev, inject_Z_plus. lra.
Qed.

(** Within page [k] the scroll stays between the start of the page and its
    target. *)
Lemma inPage_range64 (k r : Z) :
  0 <= k < numPages o lines -> 0 <= r ->
  (Qmin M (inject_Z (k * P)) <= inPage Math_pow o lines k r
   <= pageTarget o lines k)%Q.
Proof using Hvalid Hn Hlen Hpow.
  clear Hframes.
  intros Hk Hr. rewrite (pageTarget_sum k Hk).
  assert (HP := page_whole_range o n Hvalid Hn). fold P in HP.
  assert (Hkk : (inject_Z (k * P) <= inject_Z (k * P + P))%Q)
    by (rewrite <- Zle_Qle; lia).
  unfold inPage. destruct (Z.ltb_spec r (PAGE_SCROLL_FRAMES o)) as [Hlt|Hge].
  - cbv zeta. destruct (ease_frames r r ltac:(lia) Hlt) as (He0 & _ & He1).
    fold (ease r).
    destruct (scroll_step k (ease r) Hk (conj He0 He1)) as [Hlo Hhi].
    fold M. split; apply Q.min_le_compat_l; assumption.
  - rewrite (pageTarget_sum k Hk). split; [|apply Qle_refl].
    now apply Q.min_le_compat_l.
Qed.

Lemma inPage_mono_frame64 (k r r' : Z) :
  0 <= k < numPages o lines -> 0 <= r <= r' ->
  (inPage Math_pow o lines k r <= inPage Math_pow o lines k r')%Q.
Proof using Hvalid Hn Hlen Hpow.
  clear Hframes.
  intros Hk Hr.
  destruct (Z_lt_le_dec r' (PAGE_SCROLL_FRAMES o)) as [H1|H1].
  - unfold inPage.
    replace (r <? PAGE_SCROLL_FRAMES o) with true by (symmetry; apply Z.ltb_lt; lia).
    replace (r' <? PAGE_SCROLL_FRAMES o) with true by (symmetry; apply Z.ltb_lt; lia).
    cbv zeta. fold (ease r) (ease r').
    destruct (ease_frames r r' Hr H1) as (He0 & Hee & He1).
    assert (Hp := pageHeight_pos64 o).
    apply Q.min_le_compat_l. unfold fadd, fmul. apply binary64_mono.
    assert (Hm : (binary64 (pageHeight o * ease r) <= binary64 (pageHeight o * ease r'))%Q)
      by (apply binary64_mono, Qmult_le_l; assumption).
    lra.
  - assert (Hr' : inPage Math_pow o lines k r' = pageTarget o lines k).
    { unfold inPage.
      now replace (r' <? PAGE_SCROLL_FRAMES o) with false
        by (symmetry; apply Z.ltb_ge; lia). }
    rewrite Hr'. apply inPage_range64; lia.
Qed.

Lemma inPage_mono_page64 (k k' r r' : Z) :
  0 <= k < k' -> k' < numPages o lines -> 0 <= r -> 0 <= r' ->
  (inPage Math_pow o lines k r <= inPage Math_pow o lines k' r')%Q.
Proof using Hvalid Hn Hlen Hpow.
  clear Hframes.
  intros Hk Hk' Hr Hr'.
  destruct (inPage_range64 k r ltac:(lia) Hr) as [_ Hup].
  destruct (inPage_range64 k' r' ltac:(lia) Hr') as [Hlo _].
  rewrite (pageTarget_sum k ltac:(lia)) in Hup.
  assert (HP := page_whole_range o n Hvalid Hn). fold P in HP.
  assert (Hkk : (inject_Z (k * P + P) <= inject_Z (k' * P))%Q)
    by (rewrite <- Zle_Qle; nia).
  assert (Hmin := Q.min_le_compat_l _ _ M Hkk).
  lra.
Qed.

Lemma current_page (f : Z) :
  scrollStart o <= f < scrollEnd o lines ->
  let sf := f - scrollStart o in
  let k := Math_floor (fdiv (inject_Z sf) (inject_Z (pageLen o))) in
  let r := Z.rem sf (pageLen o) in
  sf = k * pageLen o + r /\ 0 <= k < numPages o lines /\ 0 <= r < pageLen o.
Proof using Hvalid Hframes.
  clear Hn Hlen Hpow P.
  intros Hf sf k r.
  assert (HL := pageLen_pos64 o Hvalid).
  destruct (phases_in_order64 o lines Hvalid) as (Hz & Hzs & Hse & Het).
  assert (Hnp := numPages_nonneg64 o lines).
  assert (Hend : scrollEnd o lines - scrollStart o
                 = if hasScroll o lines then numPages o lines * pageLen o else 0)
    by (unfold scrollEnd, scrollFrames, pageLen; destruct (hasScroll o lines); lia).
  assert (Hsc : sf < numPages o lines * pageLen o)
    by (unfold sf; destruct (hasScroll o lines); lia).
  assert (Hk : k = sf / pageLen o).
  { unfold k, Math_floor. apply floor_fdiv; [unfold sf; lia|lia|].
    assert (Hsf0 : 0 <= sf) by (unfold sf; lia).
    assert (Hn1 : 1 <= numPages o lines).
    { destruct (Z_lt_le_dec (numPages o lines) 1) as [Hlt|Hge]; [exfalso|exact Hge].
      assert (numPages o lines = 0) by lia. nia. }
    assert (Hpl : pageLen o <= numPages o lines * pageLen o) by nia.
    assert (Hsfe : sf < scrollEnd o lines - scrollStart o) by (unfold sf; lia).
    change (2 ^ 52) with 4503599627370496.
    change (2 ^ 51) with 2251799813685248 in Hframes.
    destruct (hasScroll o lines); lia. }
  destruct (page_join (pageLen o) sf) as (Hj & Hk0 & Hr); [lia|unfold sf; lia|].
  unfold Math_floor in Hj, Hk0. rewrite <- Zdiv_Qdiv in Hj, Hk0.
  rewrite <- Hk in Hj, Hk0. fold r in Hj, Hr.
  split; [exact Hj|]. split; [|exact Hr]. nia.
Qed.

Lemma transform_in_pages64 (f : Z) :
  scrollStart o <= f < scrollEnd o lines ->
  transform Math_pow o cw lines f
  = mkTransform (zoomScale o cw)
      (inPage Math_pow o lines
         (Math_floor (fdiv (inject_Z (f - scrollStart o)) (inject_Z (pageLen o))))
         (Z.rem (f - scrollStart o) (pageLen o))).
Proof using Hvalid.
  clear Hn Hlen Hpow Hframes P.
  intros Hf. destruct (phases_in_order64 o lines Hvalid) as (_ & Hzs & _).
  unfold transform, inPage.
  replace (f <? ZOOM_FRAMES o) with false by (symmetry; apply Z.ltb_ge; lia).
  replace (f <? scrollStart o) with false by (symmetry; apply Z.ltb_ge; lia).
  replace (f <? scrollEnd o lines) with true by (symmetry; apply Z.ltb_lt; lia).
  destruct (Z.rem (f - scrollStart o) (pageLen o) <? PAGE_SCROLL_FRAMES o);
    reflexivity.
Qed.

Lemma scrollY_range64 (f : Z) :
  (0 <= scrollY (transform Math_pow o cw lines f) <= M)%Q.
Proof using Hvalid Hn Hlen Hpow Hframes.
  assert (Hm : (0 <= M)%Q) by apply inject_Z_nonneg, maxScroll_nonneg.
  destruct (phases_in_order64 o lines Hvalid) as (Hz & Hzs & Hse & _).
  destruct (Z_lt_le_dec f (scrollStart o)) as [H1|H1].
  - unfold transform.
    destruct (f <? ZOOM_FRAMES o); [cbn [scrollY]; lra|].
    replace (f <? scrollStart o) with true by (symmetry; apply Z.ltb_lt; lia).
    cbn [scrollY]. lra.
  - destruct (Z_lt_le_dec f (scrollEnd o lines)) as [H2|H2].
    + rewrite transform_in_pages64 by lia. cbn [scrollY].
      destruct (current_page f ltac:(lia)) as (_ & Hk & Hr). cbv zeta in Hk, Hr.
      destruct (inPage_range64 _ _ Hk (proj1 Hr)) as [Hlo Hhi].
      assert (Ht := pageTarget_le64 o lines
                      (Math_floor (fdiv (inject_Z (f - scrollStart o))
                                        (inject_Z (pageLen o))))).
      fold M in Ht. split; [|lra].
      assert (HP := page_whole_range o n Hvalid Hn). fold P in HP.
      assert (H0 : (0 <= inject_Z (Math_floor (fdiv (inject_Z (f - scrollStart o))
                                        (inject_Z (pageLen o))) * P))%Q)
        by (apply inject_Z_nonneg; nia).
      assert (Hmin := Q.min_glb _ _ _ Hm H0). lra.
    + unfold transform.
      replace (f <? ZOOM_FRAMES o) with false by (symmetry; apply Z.ltb_ge; lia).
      replace (f <? scrollStart o) with false by (symmetry; apply Z.ltb_ge; lia).
      replace (f <? scrollEnd o lines) with false
        by (symmetry; apply Z.ltb_ge; lia).
      unfold M in *. destruct (hasScroll o lines); cbn [scrollY]; lra.
Qed.

Lemma scrollY_mono64 (f g : Z) :
  f <= g ->
  (scrollY (transform Math_pow o cw lines f)
   <= scrollY (transform Math_pow o cw lines g))%Q.
Proof using Hvalid Hn Hlen Hpow Hframes.
  intros Hfg. destruct (phases_in_order64 o lines Hvalid) as (Hz & Hzs & Hse & _).
  assert (HL := pageLen_pos64 o Hvalid).
  destruct (Z_lt_le_dec f (scrollStart o)) as [H1|H1].
  { assert (Hf : scrollY (transform Math_pow o cw lines f) = 0%Q).
    { unfold transform. destruct (f <? ZOOM_FRAMES o); [reflexivity|].
      now replace (f <? scrollStart o) with true
        by (symmetry; apply Z.ltb_lt; lia). }
    rewrite Hf. apply scrollY_range64. }
  destruct (Z_lt_le_dec g (scrollEnd o lines)) as [H2|H2].
  - rewrite !transform_in_pages64 by lia. cbn [scrollY].
    destruct (current_page f ltac:(lia)) as (Hf & Hkf & Hrf).
    destruct (current_page g ltac:(lia)) as (Hg & Hkg & Hrg).
    cbv zeta in *.
    set (kf := Math_floor (fdiv (inject_Z (f - scrollStart o)) (inject_Z (pageLen o)))) in *.
    set (kg := Math_floor (fdiv (inject_Z (g - scrollStart o)) (inject_Z (pageLen o)))) in *.
    set (rf := Z.rem (f - scrollStart o) (pageLen o)) in *.
    set (rg := Z.rem (g - scrollStart o) (pageLen o)) in *.
    destruct (Z_lt_le_dec kf kg) as [Hk|Hk].
    + apply inPage_mono_page64; lia.
    + assert (kf = kg) by nia. assert (rf <= rg) by nia.
      replace kg with kf by assumption. apply inPage_mono_frame64; lia.
  - assert (Hg : scrollY (transform Math_pow o cw lines g)
                 = if hasScroll o lines then M else 0%Q).
    { unfold transform.
      replace (g <? ZOOM_FRAMES o) with false by (symmetry; apply Z.ltb_ge; lia).
      replace (g <? scrollStart o) with false by (symmetry; apply Z.ltb_ge; lia).
      replace (g <? scrollEnd o lines) with false by (symmetry; apply Z.ltb_ge; lia).
      destruct (hasScroll o lines); reflexivity. }
    rewrite Hg. destruct (hasScroll o lines) eqn:Hs.
    + apply scrollY_range64.
    + assert (Hm : maxScroll o lines = 0).
      { unfold hasScroll in Hs. apply Z.ltb_ge in Hs.
        assert (H := maxScroll_nonneg o lines). lia. }
      assert (Hr := scrollY_range64 f). unfold M in Hr. rewrite Hm in Hr.
      change (inject_Z 0) with 0%Q in Hr. lra.
Qed.

End Whole_scroll.

(** A [Math.pow] that rounds the exact power is monotone on [0, 1] and
    keeps to it. *)
Lemma roundedPow_cube (x y : Q) :
  (0 <= x -> x <= y -> y <= 1 ->
   0 <= roundedPow x 3%Z /\ roundedPow x 3%Z <= roundedPow y 3%Z /\ roundedPow y 3%Z <= 1)%Q.
Proof.
  intros Hx Hxy Hy. unfold roundedPow.
  rewrite !FramesFacts.cube_expand.
  assert (H1 := FramesFacts.cube_mono x y Hx Hxy).
  assert (H2 := FramesFacts.cube_mono y 1 ltac:(lra) Hy).
  assert (H0 := FramesFacts.cube_mono 0 x ltac:(lra) Hx).
  split; [apply binary64_nonneg; lra|].
  split; [now apply binary64_mono|].
  apply (binary64_le_Z _ 1); [reflexivity|]. change (inject_Z 1) with 1%Q. lra.
Qed.

(** X2: for an overlap that is a whole number of lines, a document of fewer
    than 2^32 lines and an animation of at most 2^51 frames, the scroll
    offset that the doubles give never moves back from a frame to a later
    one, provided the engine's [Math.pow(x, 3)] is monotone on [0, 1] and
    keeps to [0, 1]: through the eased scroll of a page, from a page to the
    next, and into the zoom-out. *)
Theorem scroll_never_moves_back (Math_pow : Q -> Z -> Q) (o : Options) (cw : Q)
        (lines : list (list Ansi.Span)) (n f g : Z) :
  validOptions o ->
  (overlap o == inject_Z n)%Q ->
  Z.of_nat (length lines) < 2 ^ 32 ->
  total o lines <= 2 ^ 51 ->
  (forall x y : Q,
     (0 <= x -> x <= y -> y <= 1 ->
      0 <= Math_pow x 3%Z /\ Math_pow x 3%Z <= Math_pow y 3%Z /\ Math_pow y 3%Z <= 1)%Q) ->
  f <= g ->
  (scrollY (transform Math_pow o cw lines f)
   <= scrollY (transform Math_pow o cw lines g))%Q.
Proof.
  intros Hv Hn Hlen Hframes Hpow. now apply (scrollY_mono64 Math_pow o cw lines n).
Qed.

Lemma scroll_never_moves_back_witness :
  (scrollY (transform roundedPow DEFAULTS cw13 doc170 410)
   <= scrollY (transform roundedPow DEFAULTS cw13 doc170 411))%Q.
Proof.
  apply (scroll_never_moves_back roundedPow DEFAULTS cw13 doc170 4 410 411
           DEFAULTS_valid).
  - reflexivity.
  - vm_compute; reflexivity.
  - vm_compute; discriminate.
  - exact roundedPow_cube.
  - apply Z.leb_le. reflexivity.
Defined.

(** With a fractional overlap the offset can move back by a rounding
    error: with [--overlap 0.13] and 193 lines, page 5 rests at
    3332.4000000000001 on frame 1421 and page 6 sets out from
    3332.3999999999996 on frame 1422. *)
Lemma scroll_moves_back_fractional :
  scrollY (transform roundedPow overlap_0_13 cw13 doc193 1421)
    = (7328025096801485 # 2199023255552)%Q /\
  scrollY (transform roundedPow overlap_0_13 cw13 doc193 1422)
    = (1832006274200371 # 549755813888)%Q /\
  (scrollY (transform roundedPow overlap_0_13 cw13 doc193 1422)
   < scrollY (transform roundedPow overlap_0_13 cw13 doc193 1421))%Q.
Proof. repeat split; vm_compute; reflexivity. Qed.

(** X3: for an overlap that is a whole number of lines and a document of
    fewer than 2^32 lines, the first frame of the scroll of page [k] has, in
    double precision, the offset at which the page before came to rest: 0
    for the first page, the clamped target of page [k - 1] for the others,
    provided the engine's [Math.pow(1, 3)] is 1; no page starts with a
    jump. *)
Theorem page_scroll_starts_at_rest (Math_pow : Q -> Z -> Q) (o : Options) (cw : Q)
        (lines : list (list Ansi.Span)) (n k : Z) :
  validOptions o ->
  (overlap o == inject_Z n)%Q ->
  Z.of_nat (length lines) < 2 ^ 32 ->
  (Math_pow 1 3%Z == 1)%Q ->
  hasScroll o lines = true ->
  0 <= k < numPages o lines ->
  phaseOf o lines (scrollStart o + k * pageLen o) = PageScroll k /\
  (scrollY (transform Math_pow o cw lines (scrollStart o + k * pageLen o))
   == if k <=? 0 then 0 else pageTarget o lines (k - 1))%Q.
Proof.
  intros Hv Hn Hlen Hpow Hs Hk.
  now apply (page_starts_at_rest64 Math_pow o cw lines n).
Qed.

Lemma page_scroll_starts_at_rest_witness :
  (scrollY (transform roundedPow DEFAULTS cw13 doc170 (198 + 3 * 204)) == 3 * 478)%Q.
Proof.
  destruct (page_scroll_starts_at_rest roundedPow DEFAULTS cw13 doc170 4 3
              DEFAULTS_valid) as [_ H].
  - reflexivity.
  - vm_compute; reflexivity.
  - vm_compute; reflexivity.
  - vm_compute; reflexivity.
  - split; [apply Z.leb_le|apply Z.ltb_lt]; vm_compute; reflexivity.
  - etransitivity; [exact H|]. vm_compute; reflexivity.
Defined.

End Video64Facts.
